(** * envlight/light.py: the environment light [EnvLight]

    A shallow embedding of [src/envlight/light.py].  The Python object is a
    record of attributes threaded through a state-and-exception monad: a
    raised exception keeps the attribute writes made before it, as in Python.

    Idealisations, stated once:
    - numbers are rationals ([Q]): there is no NaN and no infinity.
      [get_mip] and [create_trainable_env_rnd] compute in [float32]: each
      tensor operation returns the rounding to nearest, ties to even, of the
      exact result, a Python scalar operand being converted to [float32]
      first, and Python's own [float] arithmetic rounds to binary64.  The
      division of a tensor by a Python float has two kernels, a true
      division and a multiplication by the rounded reciprocal; which one
      runs is left to the collaborators, and what is proved of [get_mip]
      holds for both.  The rounding has gradual underflow and no largest
      number, so what is proved of these two functions is stated for
      arguments below [2^127] in magnitude and divisors that are normal
      [float32] numbers, where nothing overflows.  Elsewhere (the scaling in
      [load], the roughness of line 88, the fill value of
      [create_trainable_env_fix]) the formulas are stated over the
      rationals;
    - a Parameter is a record with an identity [pid], its [.data] and its
      [requires_grad] flag: assigning [.data] keeps the identity;
    - the [while] loop of [build_mips] takes a fuel argument, and running out
      of it is the outcome [OutOfFuel], which is neither a value nor an
      exception;
    - the collaborators that are not part of [light.py] ([imageio],
      [renderutils], [utils], [nvdiffrast]) are the fields of the class
      [Collaborators]; automatic differentiation is not modelled. *)

From Stdlib Require Import ZArith QArith Qminmax Qround Qpower Lia Lqa String.
From stdpp Require Import base list.

Local Open Scope Z_scope.

(** ** Floating point *)

(** [floor (log2 q)] for [q > 0]. *)
Definition ilog2 (q : Q) : Z :=
  let k := Z.log2 (Qnum q) - Z.log2 (Zpos (Qden q)) in
  if Qle_bool (2 ^ k) q then k else k - 1.

(** The nearest integer, ties to the even one. *)
Definition rne (q : Q) : Z :=
  let f := Qfloor q in
  match (q - inject_Z f ?= 1 # 2)%Q with
  | Lt => f
  | Gt => f + 1
  | Eq => if Z.even f then f else f + 1
  end.

(** Rounding of [q > 0] to the nearest number [m * 2^e] with [m < 2^prec]
    and [e >= emin], ties to even. *)
Definition round_pos (prec emin : Z) (q : Q) : Q :=
  let e := Z.max (ilog2 q - (prec - 1)) emin in
  (inject_Z (rne (q / 2 ^ e)) * 2 ^ e)%Q.

(** Rounding to nearest, ties to even, in the binary format of precision
    [prec] whose smallest positive number is [2^emin] (gradual underflow);
    there is no largest number: overflow is not modelled.  The result is
    in lowest terms. *)
Definition round_fp (prec emin : Z) (q : Q) : Q :=
  Qred (match Qnum q with
        | Z0 => 0
        | Zpos _ => round_pos prec emin q
        | Zneg _ => - round_pos prec emin (- q)
        end).

(** [float32] (binary32) and Python's [float] (binary64). *)
Definition f32 : Q -> Q := round_fp 24 (-149).
Definition f64 : Q -> Q := round_fp 53 (-1074).

(** ** Tensors *)

(** A dense row-major tensor: [shape] as [torch.Size], [data] the flattened
    elements. *)
Record Tensor := mkTensor { shape : list Z; data : list Q }.

Definition numel (sh : list Z) : nat := Z.to_nat (fold_right Z.mul 1 sh).

(** [torch.full(sh, v)] *)
Definition torch_full (sh : list Z) (v : Q) : Tensor :=
  {| shape := sh; data := replicate (numel sh) v |}.

(** Elementwise operation against a Python scalar (broadcast). *)
Definition tensor_map (f : Q -> Q) (t : Tensor) : Tensor :=
  {| shape := shape t; data := map f (data t) |}.

(** [t * s] and [t + s] for a Python float [s]. *)
Definition tensor_mul (t : Tensor) (s : Q) : Tensor := tensor_map (fun x => (x * s)%Q) t.
Definition tensor_add (t : Tensor) (s : Q) : Tensor := tensor_map (fun x => (x + s)%Q) t.
Definition tensor_div (t : Tensor) (s : Q) : Tensor := tensor_map (fun x => (x / s)%Q) t.

(** [t * s] and [t + s] on a [float32] tensor: the Python float [s] is
    converted to [float32] and the result of the operation is rounded. *)
Definition tensor_mul32 (t : Tensor) (s : Q) : Tensor :=
  tensor_map (fun x => f32 (x * f32 s)%Q) t.
Definition tensor_add32 (t : Tensor) (s : Q) : Tensor :=
  tensor_map (fun x => f32 (x + f32 s)%Q) t.

(** [t / s] on one element of a [float32] tensor, for a Python float [s].
    PyTorch has two kernels for it: the CPU kernel divides by the scalar;
    the CUDA kernel multiplies by the reciprocal of the scalar, which is
    itself rounded to [float32], and may differ in the last bit. *)
Inductive DivKernel := TrueDivide | ByReciprocal.

Definition div32 (k : DivKernel) (x s : Q) : Q :=
  match k with
  | TrueDivide => f32 (x / f32 s)
  | ByReciprocal => f32 (x * f32 (1 / f32 s))
  end%Q.

(** [t[None, ...]] *)
Definition unsqueeze0 (t : Tensor) : Tensor :=
  {| shape := 1 :: shape t; data := data t |}.

(** ** Exceptions and outcomes *)

Inductive PyExc :=
| ZeroDivisionError
| TypeError
| AttributeError
| IndexError
| RuntimeError
| OSError
| ValueError.

Inductive outcome (A : Type) :=
| Ok (a : A)
| Raise (e : PyExc)
| OutOfFuel.
Arguments Ok {A} a.
Arguments Raise {A} e.
Arguments OutOfFuel {A}.

Definition is_ok {A} (o : outcome A) : bool :=
  match o with Ok _ => true | _ => false end.


(** [t.shape[:-1]] *)
Definition shape_prefix (t : Tensor) : list Z := removelast (shape t).

(** [t.shape[-1]]: an [IndexError] on a 0-dimensional tensor. *)
Definition shape_last (t : Tensor) : outcome Z :=
  match last (shape t) with
  | Some d => Ok d
  | None => Raise IndexError
  end.

(** [t.shape[i]] for a non-negative [i]. *)
Definition shape_at (t : Tensor) (i : nat) : outcome Z :=
  match shape t !! i with
  | Some d => Ok d
  | None => Raise IndexError
  end.

(** [t.reshape(pre..., -1, post...)] and [t.view(pre..., -1, post...)] on a
    contiguous tensor: the size standing for [-1] is inferred; the call
    raises when the known sizes multiply to zero or do not divide the number
    of elements. *)
Definition reshape_infer (t : Tensor) (pre post : list Z) : outcome Tensor :=
  let known := fold_right Z.mul 1 (pre ++ post) in
  let n := Z.of_nat (length (data t)) in
  if (known <=? 0) || negb (n mod known =? 0) then Raise RuntimeError
  else Ok {| shape := pre ++ (n / known) :: post; data := data t |}.

(** Every [k]-th element of a list, starting with the first. *)
Fixpoint stride (fuel : nat) (k : nat) (l : list Q) : list Q :=
  match fuel, l with
  | S fuel', x :: _ => x :: stride fuel' k (drop k l)
  | _, _ => []
  end.

(** [t[..., 0]]: an [IndexError] on a 0-dimensional tensor or when the last
    dimension is empty. *)
Definition select_last0 (t : Tensor) : outcome Tensor :=
  match last (shape t) with
  | None => Raise IndexError
  | Some d =>
      if d <=? 0 then Raise IndexError
      else Ok {| shape := removelast (shape t);
                 data := stride (length (data t)) (Z.to_nat d) (data t) |}
  end.

(** The shift of [torch.roll] is a C [int64]: a Python int outside
    [[-2^63, 2^63)] is refused when the arguments are unpacked, before
    anything else is done. *)
Definition is_int64 (z : Z) : bool := (- 2 ^ 63 <=? z) && (z <? 2 ^ 63).

(** Signed 64-bit wrap-around. *)
Definition wrap64 (z : Z) : Z := (z + 2 ^ 63) mod 2 ^ 64 - 2 ^ 63.

(** The column of the input that lands in column 0:
    [(size - shift) % size], computed on [int64] with the truncating
    remainder of C and then made non-negative. *)
Definition roll_start (d1 delta : Z) : Z :=
  let start := Z.rem (wrap64 (d1 - delta)) d1 in
  if start <? 0 then start + d1 else start.

(** [torch.roll(t, delta, dims=1)]: element [(i, j, c)] of the result is
    element [(i, (j + start) mod d1, c)] of [t], where [d1 = t.shape[1]],
    [start = roll_start d1 delta] (which is [(- delta) mod d1] as long as
    [d1 - delta] fits an [int64]) and [c] runs over the flattened trailing
    dimensions.  A tensor of fewer than two dimensions has no dimension 1. *)
Definition roll_source (d1 inner delta : Z) (k : Z) : Z :=
  let row := d1 * inner in
  (k / row) * row + (((k mod row) / inner + roll_start d1 delta) mod d1) * inner + k mod inner.

Definition torch_roll1 (t : Tensor) (delta : Z) : outcome Tensor :=
  if negb (is_int64 delta) then Raise ValueError
  else
    match shape t with
    | _ :: d1 :: rest =>
        let inner := fold_right Z.mul 1 rest in
        Ok {| shape := shape t;
              data := imap (fun k x =>
                              default x (data t !! Z.to_nat (roll_source d1 inner delta (Z.of_nat k))))
                           (data t) |}
    | _ => Raise IndexError
    end.

(** The shifts for which no [int64] computation on the shift and the size
    [d1] can overflow. *)
Definition roll_in_range (d1 delta : Z) : Prop :=
  - 2 ^ 63 < delta - d1 /\ delta + d1 < 2 ^ 63.

(** ** Collaborators *)

(** [numpy] dtypes of a decoded image; only [float32] is told apart. *)
Inductive dtype := Float32 | Float64 | UInt8 | UInt16.

Definition is_float32 (d : dtype) : bool :=
  match d with Float32 => true | _ => false end.

(** The array [imageio.imread] returns. *)
Record ndarray := mkArray { arr_dtype : dtype; arr : Tensor }.

(** [filter_mode] of [dr.texture] ([boundary_mode] is always ['cube']). *)
Inductive FilterMode := Linear | LinearMipmapLinear.

(** What [light.py] imports and does not define.  Decoding and the
    latlong/cubemap projections may raise; the filters and the texture
    sampler are total functions of their arguments. *)
Class Collaborators := {
  (** [imageio.imread(path)] *)
  imread : string -> outcome ndarray;
  (** [utils.latlong_to_cubemap(latlong, res, device)] *)
  latlong_to_cubemap : Tensor -> list Z -> string -> outcome Tensor;
  (** [utils.cubemap_to_latlong(cubemap, res)] *)
  cubemap_to_latlong : Tensor -> list Z -> outcome Tensor;
  (** [utils.cubemap_mip.apply(cubemap)] *)
  cubemap_mip : Tensor -> Tensor;
  (** [ru.diffuse_cubemap(cubemap)] *)
  diffuse_cubemap : Tensor -> Tensor;
  (** [ru.specular_cubemap(cubemap, roughness, cutoff)] *)
  specular_cubemap : Tensor -> Q -> Q -> Tensor;
  (** [dr.texture(tex, uv, mip=..., mip_level_bias=..., filter_mode=...)] *)
  dr_texture : Tensor -> Tensor -> list Tensor -> option Tensor -> FilterMode -> Tensor;
  (** the [k]-th draw of the uniform generator behind [torch.rand] *)
  torch_uniform : nat -> Q;
  (** the kernel PyTorch runs for [tensor / float] on the device of the
      tensors *)
  torch_div : DivKernel
}.

(** ** The object *)

(** [torch.nn.Parameter].  [pid] is the identity of the Python object
    (what [is] compares): the Parameter objects an [EnvLight] creates are
    numbered in creation order, so a Parameter created later is another
    object even if it holds the same data.  [.data] is the only field the
    module assigns. *)
Record NNParameter := mkNNParameter { pid : nat; pdata : Tensor; requires_grad : bool }.

(** The object that [torch.nn.Parameter(...)] returns in [__init__]
    (line 48), the first Parameter the [EnvLight] creates. *)
Definition base_pid : nat := 0.

(** [p.data = t]: the object [p] stays, its data is replaced. *)
Definition set_pdata (t : Tensor) (p : NNParameter) : NNParameter :=
  {| pid := pid p; pdata := t; requires_grad := requires_grad p |}.

(** An entry of the list [self.specular].  [build_mips] starts the list with
    the object [self.base] itself, so an entry is either that Parameter (its
    tensor is whatever [self.base.data] holds when the entry is read) or a
    tensor of its own. *)
Inductive TexRef :=
| BaseParam
| Detached (t : Tensor).

Definition is_detached (r : TexRef) : bool :=
  match r with Detached _ => true | BaseParam => false end.

(** The attributes of an [EnvLight].  [base_image], [specular] and [diffuse]
    are [None] until first assigned: reading them before raises
    [AttributeError]. *)
Record EnvLight := mkEnvLight {
  device : string;
  scale : Q;
  min_res : Z;
  max_res : Z;
  min_roughness : Q;
  max_roughness : Q;
  trainable : bool;
  base : NNParameter;
  base_image : option Tensor;
  specular : option (list TexRef);
  diffuse : option Tensor
}.

Definition with_base_data (t : Tensor) (e : EnvLight) : EnvLight :=
  {| device := device e; scale := scale e; min_res := min_res e; max_res := max_res e;
     min_roughness := min_roughness e; max_roughness := max_roughness e;
     trainable := trainable e;
     base := set_pdata t (base e);
     base_image := base_image e; specular := specular e; diffuse := diffuse e |}.

Definition with_base_image (t : Tensor) (e : EnvLight) : EnvLight :=
  {| device := device e; scale := scale e; min_res := min_res e; max_res := max_res e;
     min_roughness := min_roughness e; max_roughness := max_roughness e;
     trainable := trainable e; base := base e;
     base_image := Some t; specular := specular e; diffuse := diffuse e |}.

Definition with_specular (l : list TexRef) (e : EnvLight) : EnvLight :=
  {| device := device e; scale := scale e; min_res := min_res e; max_res := max_res e;
     min_roughness := min_roughness e; max_roughness := max_roughness e;
     trainable := trainable e; base := base e;
     base_image := base_image e; specular := Some l; diffuse := diffuse e |}.

Definition with_diffuse (t : Tensor) (e : EnvLight) : EnvLight :=
  {| device := device e; scale := scale e; min_res := min_res e; max_res := max_res e;
     min_roughness := min_roughness e; max_roughness := max_roughness e;
     trainable := trainable e; base := base e;
     base_image := base_image e; specular := specular e; diffuse := Some t |}.

(** The tensor an entry of [self.specular] stands for. *)
Definition deref (e : EnvLight) (r : TexRef) : Tensor :=
  match r with
  | BaseParam => pdata (base e)
  | Detached t => t
  end.

(** ** The monad: attributes, texture lookups made so far, exceptions *)

Record World := mkWorld { self : EnvLight; lookups : list FilterMode }.

Definition M (A : Type) : Type := World -> outcome A * World.

Definition ret {A} (a : A) : M A := fun w => (Ok a, w).

Definition raise {A} (e : PyExc) : M A := fun w => (Raise e, w).

Definition bind {A B} (m : M A) (k : A -> M B) : M B :=
  fun w =>
    match m w with
    | (Ok a, w') => k a w'
    | (Raise e, w') => (Raise e, w')
    | (OutOfFuel, w') => (OutOfFuel, w')
    end.

Declare Scope py_scope.
Delimit Scope py_scope with py.
Notation "x <- c ;; k" := (bind c (fun x => k))
  (at level 100, c at next level, right associativity) : py_scope.
Notation "c ;; k" := (bind c (fun _ => k))
  (at level 100, right associativity) : py_scope.
Local Open Scope py_scope.

(** A collaborator's or a tensor operation's outcome, in the monad. *)
Definition lift {A} (o : outcome A) : M A := fun w => (o, w).

(** Reading an attribute that [__init__] assigns before anything can fail. *)
Definition attr {A} (f : EnvLight -> A) : M A := fun w => (Ok (f (self w)), w).

(** Reading an attribute that may not have been assigned yet. *)
Definition getattr {A} (f : EnvLight -> option A) : M A :=
  fun w => match f (self w) with
           | Some a => (Ok a, w)
           | None => (Raise AttributeError, w)
           end.

Definition modify (f : EnvLight -> EnvLight) : M unit :=
  fun w => (Ok tt, {| self := f (self w); lookups := lookups w |}).

(** [self.specular = [self.base]] *)
Definition specular_init : M unit := modify (with_specular [BaseParam]).

(** [len(self.specular)] *)
Definition specular_len : M nat :=
  l <- getattr specular ;; ret (length l).

(** [self.specular[i]], read as the tensor the entry stands for;
    [IndexError] out of range. *)
Definition specular_getitem (i : nat) : M Tensor :=
  l <- getattr specular ;;
  match l !! i with
  | Some r => attr (fun e => deref e r)
  | None => raise IndexError
  end.

(** [self.specular[-1]] *)
Definition specular_getitem_last : M Tensor :=
  l <- getattr specular ;;
  match last l with
  | Some r => attr (fun e => deref e r)
  | None => raise IndexError
  end.

(** [self.specular[1:]] *)
Definition specular_tail : M (list Tensor) :=
  l <- getattr specular ;;
  attr (fun e => map (deref e) (drop 1 l)).

(** [self.specular += [t]] *)
Definition specular_append (t : Tensor) : M unit :=
  l <- getattr specular ;;
  modify (with_specular (l ++ [Detached t])).

(** [self.specular[i] = t] *)
Definition specular_setitem (i : nat) (t : Tensor) : M unit :=
  l <- getattr specular ;;
  if decide (i < length l)%nat then modify (with_specular (<[i := Detached t]> l))
  else raise IndexError.

(** [self.specular[-1] = t] *)
Definition specular_setitem_last (t : Tensor) : M unit :=
  l <- getattr specular ;;
  match l with
  | [] => raise IndexError
  | _ => modify (with_specular (<[pred (length l) := Detached t]> l))
  end.

(** One call of [dr.texture], recorded in [lookups]. *)
Definition texture `{Collaborators} (tex uv : Tensor) (mips : list Tensor)
    (bias : option Tensor) (mode : FilterMode) : M Tensor :=
  fun w => (Ok (dr_texture tex uv mips bias mode),
            {| self := self w; lookups := lookups w ++ [mode] |}).

(** [for i in range(n): body(i)], over the indices [range(n)] lists. *)
Fixpoint for_range (idxs : list nat) (body : nat -> M unit) : M unit :=
  match idxs with
  | [] => ret tt
  | i :: rest => body i ;; for_range rest body
  end.

(** Python's [a / b] on two integers. *)
Definition py_truediv (a b : Z) : M Q :=
  if b =? 0 then raise ZeroDivisionError else ret (inject_Z a / inject_Z b)%Q.

(** ** light.py *)

Section Methods.
Context `{Collaborators}.

(** [torch.rand] on the sizes [sh]: one draw per element; a negative size
    raises. *)
Definition torch_rand (sh : list Z) : outcome Tensor :=
  if forallb (fun d => 0 <=? d) sh
  then Ok {| shape := sh; data := map torch_uniform (seq 0 (numel sh)) |}
  else Raise RuntimeError.

(** Default arguments of [create_trainable_env_rnd]: [scale=0.0, bias=0.5]. *)
Definition rnd_default_scale : Q := 0.
Definition rnd_default_bias : Q := 1 # 2.

Definition create_trainable_env_rnd (base_res : Z) (scale bias : Q) (device : string)
  : outcome Tensor :=
  match torch_rand [6; base_res; base_res; 3] with
  | Ok t => Ok (tensor_add32 (tensor_mul32 t scale) bias)
  | Raise e => Raise e
  | OutOfFuel => OutOfFuel
  end.

Definition create_trainable_env_fix (base_res : Z) (value : Q) (device : string)
  : outcome Tensor :=
  if 0 <=? base_res then Ok (torch_full [6; base_res; base_res; 3] value)
  else Raise RuntimeError.

(** [EnvLight.load] *)
Definition load (path : string) : M unit :=
  image <- lift (imread path) ;;
  let image :=
    if negb (is_float32 (arr_dtype image))
    then tensor_div (arr image) 255
    else arr image in
  sc <- attr scale ;;
  let img := tensor_mul image sc in
  modify (with_base_image img) ;;
  res <- attr max_res ;;
  dev <- attr device ;;
  cubemap <- lift (latlong_to_cubemap img [res; res] dev) ;;
  modify (with_base_data cubemap).

(** [EnvLight.gen_base_image] *)
Definition gen_base_image : M unit :=
  b <- attr (fun e => pdata (base e)) ;;
  img <- lift (cubemap_to_latlong b [2048; 4096]) ;;
  modify (with_base_image img).

(** [EnvLight.update_light] *)
Definition update_light (delta : Z) : M unit :=
  cached <- getattr base_image ;;
  img <- lift (torch_roll1 cached delta) ;;
  modify (with_base_image img) ;;
  res <- attr max_res ;;
  dev <- attr device ;;
  cubemap <- lift (latlong_to_cubemap img [res; res] dev) ;;
  modify (with_base_data cubemap).

(** The [while] loop of [build_mips] (lines 82-83). *)
Fixpoint mip_loop (fuel : nat) : M unit :=
  match fuel with
  | O => lift OutOfFuel
  | S fuel' =>
      top <- specular_getitem_last ;;
      r <- lift (shape_at top 1) ;;
      m <- attr min_res ;;
      if r >? m then
        top <- specular_getitem_last ;;
        specular_append (cubemap_mip top) ;;
        mip_loop fuel'
      else ret tt
  end.

(** Lines 81-83: the unfiltered chain. *)
Definition build_chain (fuel : nat) : M unit :=
  specular_init ;;
  mip_loop fuel.

(** The roughness of level [idx] (line 88). *)
Definition level_roughness (idx : nat) : M Q :=
  n <- specular_len ;;
  q <- py_truediv (Z.of_nat idx) (Z.of_nat n - 2) ;;
  maxr <- attr max_roughness ;;
  minr <- attr min_roughness ;;
  ret (q * (maxr - minr) + minr)%Q.

(** The body of the [for] loop of [build_mips] (lines 88-89). *)
Definition filter_level (cutoff : Q) (idx : nat) : M unit :=
  roughness <- level_roughness idx ;;
  lvl <- specular_getitem idx ;;
  specular_setitem idx (specular_cubemap lvl roughness cutoff).

(** Lines 85-91: the diffuse map and the per-level specular filter. *)
Definition filter_chain (cutoff : Q) : M unit :=
  top <- specular_getitem_last ;;
  modify (with_diffuse (diffuse_cubemap top)) ;;
  n <- specular_len ;;
  for_range (seq 0 (n - 1)) (filter_level cutoff) ;;
  top <- specular_getitem_last ;;
  specular_setitem_last (specular_cubemap top 1 cutoff).

(** [EnvLight.build_mips]; the default [cutoff] is [0.99]. *)
Definition build_mips (fuel : nat) (cutoff : Q) : M unit :=
  build_chain fuel ;;
  filter_chain cutoff.

Definition default_cutoff : Q := 99 # 100.

(** [torch.clamp(x, lo, hi)] on one element: [min(max(x, lo), hi)]. *)
Definition clamp (x lo hi : Q) : Q := Qmin (Qmax x lo) hi.

Definition Qltb (x y : Q) : bool := negb (Qle_bool y x).

(** The two branches of [get_mip] on one element of a [float32] roughness
    tensor, as functions of the clamped roughness [c]; [levels] is
    [len(self.specular)] and [k] the division kernel.
    [max_roughness - min_roughness] and [1.0 - max_roughness] are Python
    float operations; they, the bounds of the clamp and the integers
    [levels - 2], [levels] and [2] are converted to [float32] when they meet
    the tensor. *)
Definition mip_low_of (k : DivKernel) (minr maxr : Q) (levels : Z) (c : Q) : Q :=
  f32 (div32 k (f32 (c - f32 minr)) (f64 (maxr - minr)) * f32 (inject_Z (levels - 2)))%Q.

Definition mip_high_of (k : DivKernel) (maxr : Q) (levels : Z) (c : Q) : Q :=
  f32 (f32 (div32 k (f32 (c - f32 maxr)) (f64 (1 - maxr)) + f32 (inject_Z levels)) - f32 2)%Q.

Definition mip_low (k : DivKernel) (minr maxr : Q) (levels : Z) (r : Q) : Q :=
  mip_low_of k minr maxr levels (clamp r (f32 minr) (f32 maxr)).

Definition mip_high (k : DivKernel) (maxr : Q) (levels : Z) (r : Q) : Q :=
  mip_high_of k maxr levels (clamp r (f32 maxr) (f32 1)).

(** Their selection by [torch.where(roughness < self.max_roughness, ...)]. *)
Definition mip_level (k : DivKernel) (minr maxr : Q) (levels : Z) (r : Q) : Q :=
  if Qltb r (f32 maxr) then mip_low k minr maxr levels r else mip_high k maxr levels r.

(** [EnvLight.get_mip]; [None < float] raises [TypeError].  The two
    roughness attributes are Python floats: the binary64 numbers nearest to
    the rationals of the record. *)
Definition get_mip (roughness : option Tensor) : M Tensor :=
  match roughness with
  | None => raise TypeError
  | Some r =>
      maxr <- attr max_roughness ;;
      minr <- attr min_roughness ;;
      n <- specular_len ;;
      ret (tensor_map (mip_level torch_div (f64 minr) (f64 maxr) (Z.of_nat n)) r)
  end.

(** [l.reshape(1, 1, -1, l.shape[-1])], done when [len(prefix) != 3]. *)
Definition to_grid (l : Tensor) : M Tensor :=
  d <- lift (shape_last l) ;;
  lift (reshape_infer l [1; 1] [d]).

(** [EnvLight._forward_diffuse] *)
Definition _forward_diffuse (l : Tensor) : M Tensor :=
  let prefix := shape_prefix l in
  l <- (if decide (length prefix = 3%nat) then ret l else to_grid l) ;;
  d <- getattr diffuse ;;
  light <- texture (unsqueeze0 d) l [] None Linear ;;
  lift (reshape_infer light prefix []).

(** [EnvLight._forward_specular] *)
Definition _forward_specular (l : Tensor) (roughness : option Tensor) : M Tensor :=
  let prefix := shape_prefix l in
  args <-
     (if decide (length prefix = 3%nat) then ret (l, roughness)
      else
        l <- to_grid l ;;
        roughness <- match roughness with
                     | Some r => r <- lift (reshape_infer r [1; 1] [1]) ;; ret (Some r)
                     | None => ret None
                     end ;;
        ret (l, roughness)) ;;
  let '(l, roughness) := args in
  miplevel <- get_mip roughness ;;
  s0 <- specular_getitem 0 ;;
  mips <- specular_tail ;;
  bias <- lift (select_last0 miplevel) ;;
  light <- texture (unsqueeze0 s0) l (map unsqueeze0 mips) (Some bias) LinearMipmapLinear ;;
  lift (reshape_infer light prefix []).

(** [EnvLight.__call__] *)
Definition __call__ (fuel : nat) (shading_normal reflective : Tensor)
    (roughness : option Tensor) : M (Tensor * Tensor) :=
  tr <- attr trainable ;;
  (if tr then build_mips fuel default_cutoff else ret tt) ;;
  diffuse_light <- _forward_diffuse shading_normal ;;
  specular_light <- _forward_specular reflective roughness ;;
  ret (diffuse_light, specular_light).

(** [EnvLight.get_env_map] *)
Definition get_env_map : M Tensor :=
  b <- attr (fun e => pdata (base e)) ;;
  lift (cubemap_to_latlong b [512; 1024]).

(** [EnvLight.__init__].  The object exists only when the constructor
    returns; the attributes are those of the keyword arguments, with
    [device=None] read as ['cuda']. *)
Definition __init__ (fuel : nat) (path : option string) (device : option string)
    (scale : Q) (min_res max_res : Z) (min_roughness max_roughness : Q)
    (trainable : bool) (color_preset : option Q) : outcome EnvLight :=
  let device := default "cuda"%string device in
  let init_value :=
    match color_preset with
    | Some c => create_trainable_env_fix max_res c device
    | None => create_trainable_env_rnd max_res rnd_default_scale rnd_default_bias device
    end in
  match init_value with
  | Ok v =>
      let e := {| device := device; scale := scale; min_res := min_res; max_res := max_res;
                  min_roughness := min_roughness; max_roughness := max_roughness;
                  trainable := trainable;
                  base := {| pid := base_pid; pdata := v; requires_grad := trainable |};
                  base_image := None; specular := None; diffuse := None |} in
      let body :=
        (match path with Some p => load p | None => ret tt end) ;;
        build_mips fuel default_cutoff in
      match body {| self := e; lookups := [] |} with
      | (Ok _, w) => Ok (self w)
      | (Raise x, _) => Raise x
      | (OutOfFuel, _) => OutOfFuel
      end
  | Raise x => Raise x
  | OutOfFuel => OutOfFuel
  end.

End Methods.

(** * Vocabulary of the properties *)

Section Vocabulary.
Context `{Collaborators}.

Definition upd (f : EnvLight -> EnvLight) (w : World) : World :=
  {| self := f (self w); lookups := lookups w |}.

(** [invariant P m]: whatever [m] returns or raises, it takes a world in
    [P] to a world in [P]. *)
Definition invariant {A} (P : World -> Prop) (m : M A) : Prop :=
  forall w, P w -> P (snd (m w)).

(** [determined R R' m]: from two worlds related by [R], [m] has the same
    outcome, and when it returns, the two worlds are related by [R']. *)
Definition determined {A} (R R' : World -> World -> Prop) (m : M A) : Prop :=
  forall w w', R w w' ->
    fst (m w) = fst (m w') /\
    (is_ok (fst (m w)) = true -> R' (snd (m w)) (snd (m w'))).

(** Operations that only read the world. *)
Definition reads {A} (m : M A) : Prop := forall w, snd (m w) = w.

(** [t.shape[1]], the face resolution of a cubemap. *)
Definition face_res (t : Tensor) : option Z := shape t !! 1%nat.

(** [k] successive downsamplings of [t]. *)
Fixpoint mips_of (k : nat) (t : Tensor) : list Tensor :=
  match k with
  | O => []
  | S k' => cubemap_mip t :: mips_of k' (cubemap_mip t)
  end.

(** [utils.cubemap_mip] is not part of [light.py]; the assumption on it is
    that it halves the face resolution. *)
Definition mip_halves : Prop :=
  forall t r, face_res t = Some r -> face_res (cubemap_mip t) = Some (r / 2).

(** Line 88 as a formula: the roughness of level [idx] among [levels]. *)
Definition interpolated (e : EnvLight) (levels idx : nat) : Q :=
  (inject_Z (Z.of_nat idx) / inject_Z (Z.of_nat levels - 2)
   * (max_roughness e - min_roughness e) + min_roughness e)%Q.

(** The list after the first [n] iterations of the [for] loop. *)
Definition filtered_upto (e : EnvLight) (cutoff : Q) (n : nat) (chain : list TexRef)
  : list TexRef :=
  imap (fun i r =>
          if (i <? n)%nat
          then Detached (specular_cubemap (deref e r) (interpolated e (length chain) i) cutoff)
          else r) chain.

(** [self.specular] once [build_mips] has returned. *)
Definition filtered (e : EnvLight) (cutoff : Q) (chain : list TexRef) (top : TexRef)
  : list TexRef :=
  <[pred (length chain) := Detached (specular_cubemap (deref e top) 1 cutoff)]>
    (filtered_upto e cutoff (length chain - 1) chain).

(** Two objects with the same base Parameter and the same configuration of
    the chain. *)
Definition same_inputs (w w' : World) : Prop :=
  base (self w) = base (self w') /\
  min_res (self w) = min_res (self w') /\
  min_roughness (self w) = min_roughness (self w') /\
  max_roughness (self w) = max_roughness (self w').

Definition same_chain (w w' : World) : Prop :=
  same_inputs w w' /\ specular (self w) = specular (self w').

Definition same_derived (w w' : World) : Prop :=
  same_chain w w' /\ diffuse (self w) = diffuse (self w').

(** What the loops of [build_mips] read and write. *)
Record chain_footprint (R : World -> World -> Prop) : Prop := {
  cf_specular : forall w w', R w w' -> specular (self w) = specular (self w');
  cf_base : forall w w', R w w' -> base (self w) = base (self w');
  cf_min_res : forall w w', R w w' -> min_res (self w) = min_res (self w');
  cf_min_roughness : forall w w', R w w' -> min_roughness (self w) = min_roughness (self w');
  cf_max_roughness : forall w w', R w w' -> max_roughness (self w) = max_roughness (self w');
  cf_set : forall w w' l, R w w' -> R (upd (with_specular l) w) (upd (with_specular l) w')
}.

(** What the two samplers read. *)
Record sampling_footprint (R : World -> World -> Prop) : Prop := {
  sf_specular : forall w w', R w w' -> specular (self w) = specular (self w');
  sf_deref : forall w w' l r, R w w' -> specular (self w) = Some l -> r ∈ l ->
               deref (self w) r = deref (self w') r;
  sf_diffuse : forall w w', R w w' -> diffuse (self w) = diffuse (self w');
  sf_min_roughness : forall w w', R w w' -> min_roughness (self w) = min_roughness (self w');
  sf_max_roughness : forall w w', R w w' -> max_roughness (self w) = max_roughness (self w');
  sf_lookups : forall w w' lk lk', R w w' ->
                 R {| self := self w; lookups := lk |} {| self := self w'; lookups := lk' |}
}.

(** A chain none of whose entries is the base Parameter itself. *)
Definition detached_chain (e : EnvLight) : bool :=
  match specular e with
  | Some l => forallb is_detached l
  | None => true
  end.

(** Two objects with the same derived state, whose chains do not alias the
    base: the bases may differ. *)
Definition same_query (w w' : World) : Prop :=
  specular (self w) = specular (self w') /\
  detached_chain (self w) = true /\
  diffuse (self w) = diffuse (self w') /\
  min_roughness (self w) = min_roughness (self w') /\
  max_roughness (self w) = max_roughness (self w').

(** Lines 111-114 of [__call__]: the two lookups and the returned pair. *)
Definition sample_both (shading_normal reflective : Tensor) (roughness : option Tensor)
  : M (Tensor * Tensor) :=
  diffuse_light <- _forward_diffuse shading_normal ;;
  specular_light <- _forward_specular reflective roughness ;;
  ret (diffuse_light, specular_light).

(** The image [load] stores in [self.base_image]. *)
Definition scaled_image (image : ndarray) (sc : Q) : Tensor :=
  tensor_mul (if negb (is_float32 (arr_dtype image))
              then tensor_div (arr image) 255
              else arr image) sc.

(** The derived state of [e] is the one [build_mips] computes from the base
    [e] holds now. *)
Definition derived_fresh (fuel : nat) (e : EnvLight) : Prop :=
  exists w', build_mips fuel default_cutoff {| self := e; lookups := [] |} = (Ok tt, w') /\
             specular (self w') = specular e /\
             diffuse (self w') = diffuse e.

(** The object [build_mips] leaves when it returns after [k]
    downsamplings, as a function of the object [w] it started from: the
    levels are the base data of [w] and its successive downsamplings, each
    filtered, and the diffuse map is the filter of the smallest level.
    What [w] held in [self.specular] and [self.diffuse] is overwritten. *)
Definition rebuilt (cutoff : Q) (k : nat) (w : World) : World :=
  let chain := BaseParam :: map Detached (mips_of k (pdata (base (self w)))) in
  let top := default BaseParam (last chain) in
  let w1 := upd (with_specular chain) w in
  upd (with_specular (filtered (self w1) cutoff chain top))
    (upd (with_diffuse (diffuse_cubemap (deref (self w1) top))) w1).

(** Row-major position of element [(i, j, c)] in a tensor whose dimension 1
    has size [d1] and whose trailing dimensions have [inner] elements. *)
Definition flat_index (d1 inner i j c : Z) : Z := i * (d1 * inner) + j * inner + c.

(** A method call a client makes on a constructed object. *)
Inductive Op :=
| OpLoad (path : string)
| OpGenBaseImage
| OpUpdateLight (delta : Z)
| OpBuildMips (cutoff : Q).

Definition run_op (fuel : nat) (op : Op) : M unit :=
  match op with
  | OpLoad path => load path
  | OpGenBaseImage => gen_base_image
  | OpUpdateLight delta => update_light delta
  | OpBuildMips cutoff => build_mips fuel cutoff
  end.

Definition is_build (op : Op) : bool :=
  match op with OpBuildMips _ => true | _ => false end.

(** A sequence of calls; the client goes on after a call that raised. *)
Fixpoint run_ops (fuel : nat) (ops : list Op) (w : World) : World :=
  match ops with
  | [] => w
  | op :: rest => run_ops fuel rest (snd (run_op fuel op w))
  end.

(** Modelled from the spec: [utils.latlong_to_cubemap] is not part of
    [light.py].  Its result is a Cubemap with faces of the requested
    resolution, a Cubemap being six faces of three channels each. *)
Definition projector_shape : Prop :=
  forall img r0 r1 dev t, latlong_to_cubemap img [r0; r1] dev = Ok t -> shape t = [6; r0; r1; 3].

(** The base is the Parameter object [p], with possibly other data, and
    its [requires_grad] is the [trainable] flag. *)
Definition base_kept (p : NNParameter) (w : World) : Prop :=
  base (self w) = set_pdata (pdata (base (self w))) p /\
  trainable (self w) = requires_grad p.

(** Where the data of the base comes from: the object is configured with
    the resolution [res] and the device [dev], and the data is [t0] or is
    what [latlong_to_cubemap] returned for [(res, res)] on [dev]. *)
Definition base_data_from (t0 : Tensor) (res : Z) (dev : string) (w : World) : Prop :=
  max_res (self w) = res /\
  device (self w) = dev /\
  (pdata (base (self w)) = t0 \/
   exists img, latlong_to_cubemap img [res; res] dev = Ok (pdata (base (self w)))).

(** The base is the Parameter the constructor made: [requires_grad] is the
    [trainable] flag and the shape is [(6, max_res, max_res, 3)]. *)
Definition base_inv (p : NNParameter) (w : World) : Prop :=
  base (self w) = set_pdata (pdata (base (self w))) p /\
  trainable (self w) = requires_grad p /\
  shape (pdata (base (self w))) = [6; max_res (self w); max_res (self w); 3].

End Vocabulary.

(** ** A small instance of the collaborators

    Enough to run the methods: every projection and filter fills its result
    with the first element of its input. *)

Module Demo.

Definition fill (sh : list Z) (t : Tensor) : Tensor :=
  torch_full sh (default 0%Q (head (data t))).

Definition res1 (t : Tensor) : Z := default 0 (shape t !! 1%nat).

#[export] Instance collaborators : Collaborators := {|
  imread path :=
    if String.eqb path "sky.hdr" then
      Ok {| arr_dtype := Float32; arr := torch_full [2; 4; 3] (3 # 4) |}
    else if String.eqb path "empty.png" then
      Ok {| arr_dtype := UInt8; arr := torch_full [0; 0; 3] 0 |}
    else Raise OSError;
  latlong_to_cubemap img res dev :=
    match data img with
    | [] => Raise RuntimeError
    | x :: _ => Ok (torch_full (6 :: res ++ [3]) x)
    end;
  cubemap_to_latlong cube res := Ok (fill (res ++ [3]) cube);
  cubemap_mip t := fill [6; res1 t / 2; res1 t / 2; 3] t;
  diffuse_cubemap t := t;
  specular_cubemap t roughness cutoff := tensor_mul t (1 - roughness / 2);
  dr_texture tex uv mips bias mode := fill (shape_prefix uv ++ [3]) tex;
  torch_uniform k := 16777215 # 16777216;
  torch_div := ByReciprocal
|}.

Definition world0 (e : EnvLight) : World := {| self := e; lookups := [] |}.

(** An object before [build_mips] has run: a constant base of face
    resolution [res], no cached image, no chain. *)
Definition blank (res minres : Z) (tr : bool) : EnvLight :=
  {| device := "cuda"; scale := 1; min_res := minres; max_res := res;
     min_roughness := 2 # 25; max_roughness := 1 # 2; trainable := tr;
     base := {| pid := base_pid; pdata := torch_full [6; res; res; 3] 1; requires_grad := tr |};
     base_image := None; specular := None; diffuse := None |}.

(** [EnvLight(min_res=1, max_res=4, color_preset=1.0)]: three levels. *)
Definition light3 : outcome EnvLight :=
  __init__ 8 None None 1 1 4 (2 # 25) (1 # 2) false (Some 1%Q).

(** [EnvLight(min_res=2, max_res=2, color_preset=1.0)]: a single level. *)
Definition light1 : outcome EnvLight :=
  __init__ 8 None None 1 2 2 (2 # 25) (1 # 2) false (Some 1%Q).

(** [EnvLight(min_res=2, max_res=2, trainable=True)]: random
    initialisation, a single level. *)
Definition light_rnd : outcome EnvLight :=
  __init__ 8 None None 1 2 2 (2 # 25) (1 # 2) true None.


(** The object of a returned constructor call. *)
Definition built (o : outcome EnvLight) : EnvLight :=
  match o with
  | Ok e => e
  | _ => blank 0 0 false
  end.

(** The objects, constructed. *)
Definition obj3 : EnvLight := Eval vm_compute in built light3.
Definition obj1 : EnvLight := Eval vm_compute in built light1.
Definition obj_rnd : EnvLight := Eval vm_compute in built light_rnd.

(** A batch of two directions and one roughness per direction. *)
Definition dirs : Tensor := {| shape := [2; 3]; data := [0; 0; 1; 0; 1; 0]%Q |}.
Definition rough : Tensor := {| shape := [2; 1]; data := [1 # 2; 3 # 10]%Q |}.


End Demo.

(** Worlds for the examples. *)
Definition demo_w4 : World := Demo.world0 (Demo.blank 4 1 false).

Definition demo_w3 : World :=
  Demo.world0 (with_specular [BaseParam; BaseParam; BaseParam] (Demo.blank 4 1 false)).

Definition demo_cached : World :=
  Demo.world0 (with_base_image {| shape := [1; 3; 1]; data := [1; 2; 3]%Q |}
                 (Demo.blank 4 1 false)).

(** The unfiltered chain of [demo_w4]: resolutions 4, 2, 1. *)
Definition demo_chain : list TexRef :=
  [BaseParam;
   Detached (torch_full [6; 2; 2; 3] 1);
   Detached (torch_full [6; 1; 1; 3] 1)].

(** A non-trainable object with a built chain of three levels. *)
Definition demo_fixed : World :=
  Demo.world0
    (with_diffuse (torch_full [6; 1; 1; 3] 1)
       (with_specular [Detached (torch_full [6; 4; 4; 3] 1);
                       Detached (torch_full [6; 2; 2; 3] 1);
                       Detached (torch_full [6; 1; 1; 3] 1)]
          (Demo.blank 4 1 false))).

(** A tensor whose data has as many elements as its shape says. *)
Definition tensor_wf (t : Tensor) : Prop :=
  Forall (fun d => 0 <= d) (shape t) /\ length (data t) = numel (shape t).

(** More worlds for the examples: [demo_w4] after [build_mips],
    [demo_cached] after [update_light(1)], and [demo_fixed] after a query
    with the result of that query. *)
Definition demo_built4 : World :=
  Eval vm_compute in snd (build_mips (H := Demo.collaborators) 3 default_cutoff demo_w4).

Definition demo_rolled : World :=
  Eval vm_compute in snd (update_light (H := Demo.collaborators) 1 demo_cached).

Definition demo_query_world : World :=
  Eval vm_compute in
    snd (__call__ (H := Demo.collaborators) 5 Demo.dirs Demo.dirs (Some Demo.rough) demo_fixed).

Definition demo_query_result : Tensor * Tensor :=
  Eval vm_compute in
    match fst (__call__ (H := Demo.collaborators) 5 Demo.dirs Demo.dirs (Some Demo.rough)
                 demo_fixed) with
    | Ok p => p
    | _ => (Demo.dirs, Demo.dirs)
    end.

(** [EnvLight(path='sky.hdr', min_res=1, max_res=4)]. *)
Definition demo_obj_sky : EnvLight :=
  Eval vm_compute in
    Demo.built (__init__ (H := Demo.collaborators) 8 (Some "sky.hdr"%string) None 1 1 4
                  (2 # 25) (1 # 2) false None).

(** A base of face resolution 6, not a power of two. *)
Definition demo_w6 : World := Demo.world0 (Demo.blank 6 1 false).

(** Edits of the light that do not rebuild. *)
Definition demo_edits : list Op :=
  [OpLoad "sky.hdr"; OpUpdateLight 1; OpLoad "missing.hdr"; OpGenBaseImage].

(** [EnvLight(min_res=1, max_res=4, trainable=True, color_preset=1.0)],
    its base data then overwritten with zeros, and a query on it with its
    result. *)
Definition demo_obj_train : EnvLight :=
  Eval vm_compute in
    Demo.built (__init__ (H := Demo.collaborators) 8 None None 1 1 4 (2 # 25) (1 # 2) true
                  (Some 1%Q)).

Definition demo_zeros : Tensor := torch_full [6; 4; 4; 3] 0.

Definition demo_train_edited : World :=
  upd (with_base_data demo_zeros) (Demo.world0 demo_obj_train).

Definition demo_train_query_world : World :=
  Eval vm_compute in
    snd (__call__ (H := Demo.collaborators) 5 Demo.dirs Demo.dirs (Some Demo.rough)
           demo_train_edited).

Definition demo_train_query_result : Tensor * Tensor :=
  Eval vm_compute in
    match fst (__call__ (H := Demo.collaborators) 5 Demo.dirs Demo.dirs (Some Demo.rough)
                 demo_train_edited) with
    | Ok p => p
    | _ => (Demo.dirs, Demo.dirs)
    end.

(** A base of face resolution 2 with [min_res = 1]: two levels. *)
Definition demo_w2 : World := Demo.world0 (Demo.blank 2 1 false).

(** [Demo.obj3] with its base data replaced by a cubemap of face resolution
    2, and what a call of [build_mips] leaves of it. *)
Definition demo_small : World :=
  upd (with_base_data (torch_full [6; 2; 2; 3] 1)) (Demo.world0 Demo.obj3).

Definition demo_failed : World :=
  Eval vm_compute in snd (build_mips (H := Demo.collaborators) 5 default_cutoff demo_small).

(** * Properties *)

(** ** Rounding *)

Section Rounding.
Local Open Scope Q_scope.

Lemma pow2_pos e : 0 < 2 ^ e.
Proof. apply Qpower_0_lt. reflexivity. Qed.

Lemma pow2_add a b : 2 ^ (a + b) == 2 ^ a * 2 ^ b.
Proof. apply Qpower_plus. discriminate. Qed.

Lemma pow2_le a b : (a <= b)%Z -> 2 ^ a <= 2 ^ b.
Proof. intros H. apply Qpower_le_compat_l; [exact H|discriminate]. Qed.

Lemma pow2_lt_inv a b : 2 ^ a < 2 ^ b -> (a < b)%Z.
Proof. intros H. apply (Qpower_lt_compat_l_inv 2); [exact H|reflexivity]. Qed.

Lemma pow2_Z n : (0 <= n)%Z -> 2 ^ n == inject_Z (2 ^ n).
Proof. intros H. symmetry. apply (Zpower_Qpower 2 n H). Qed.

Lemma Qnum_pos q : (0 < Qnum q)%Z <-> 0 < q.
Proof. destruct q as [n d]. unfold Qlt. simpl. lia. Qed.

(** [ilog2] is the floor of the logarithm. *)
Lemma ilog2_spec q : 0 < q -> 2 ^ ilog2 q <= q /\ q < 2 ^ (ilog2 q + 1).
Proof.
  intros Hq. unfold ilog2.
  set (n := Qnum q). set (d := Qden q).
  assert (Hn : (0 < n)%Z) by (apply Qnum_pos, Hq).
  destruct (Z.log2_spec n Hn) as [Hn1 Hn2].
  destruct (Z.log2_spec (Zpos d) ltac:(lia)) as [Hd1 Hd2].
  set (a := Z.log2 n) in *. set (b := Z.log2 (Zpos d)) in *.
  assert (Ha : (0 <= a)%Z) by apply Z.log2_nonneg.
  assert (Hb : (0 <= b)%Z) by apply Z.log2_nonneg.
  assert (Hqe : q == inject_Z n / inject_Z (Zpos d)).
  { unfold n, d. destruct q as [qn qd]. simpl. rewrite Qmake_Qdiv. reflexivity. }
  assert (Hdpos : 0 < inject_Z (Zpos d)) by reflexivity.
  (* 2^(a-b-1) < q < 2^(a-b+1) *)
  assert (Hlow : 2 ^ (a - b - 1) < q).
  { rewrite Hqe. apply Qlt_shift_div_l; [exact Hdpos|].
    apply Qlt_le_trans with (2 ^ (a - b - 1) * 2 ^ (b + 1)).
    - apply Qmult_lt_l; [apply pow2_pos|].
      rewrite (pow2_Z (b + 1)) by lia. rewrite <- Zlt_Qlt. exact Hd2.
    - rewrite <- pow2_add. replace (a - b - 1 + (b + 1))%Z with a by ring.
      rewrite (pow2_Z a) by lia. rewrite <- Zle_Qle. exact Hn1. }
  assert (Hhigh : q < 2 ^ (a - b + 1)).
  { rewrite Hqe. apply Qlt_shift_div_r; [exact Hdpos|].
    apply Qlt_le_trans with (2 ^ (a + 1)).
    - rewrite (pow2_Z (a + 1)) by lia. rewrite <- Zlt_Qlt. exact Hn2.
    - replace (a + 1)%Z with (a - b + 1 + b)%Z by ring. rewrite pow2_add.
      apply Qmult_le_l; [apply pow2_pos|].
      rewrite (pow2_Z b) by lia. rewrite <- Zle_Qle. exact Hd1. }
  destruct (Qle_bool (2 ^ (a - b)) q) eqn:E.
  - apply Qle_bool_iff in E. split; assumption.
  - assert (Hlt : q < 2 ^ (a - b)).
    { apply Qnot_le_lt. intros Hle. apply Qle_bool_iff in Hle. congruence. }
    split.
    + apply Qlt_le_weak. exact Hlow.
    + replace (a - b - 1 + 1)%Z with (a - b)%Z by ring. exact Hlt.
Qed.

Lemma ilog2_unique q k : 2 ^ k <= q -> q < 2 ^ (k + 1) -> ilog2 q = k.
Proof.
  intros H1 H2.
  assert (Hq : 0 < q) by (eapply Qlt_le_trans; [apply (pow2_pos k)|exact H1]).
  destruct (ilog2_spec q Hq) as [H3 H4].
  assert (ilog2 q < k + 1)%Z by (apply pow2_lt_inv; eapply Qle_lt_trans; eauto).
  assert (k < ilog2 q + 1)%Z by (apply pow2_lt_inv; eapply Qle_lt_trans; eauto).
  lia.
Qed.

Lemma ilog2_le q1 q2 : 0 < q1 -> q1 <= q2 -> (ilog2 q1 <= ilog2 q2)%Z.
Proof.
  intros H1 H12.
  assert (H2 : 0 < q2) by (eapply Qlt_le_trans; eauto).
  destruct (ilog2_spec q1 H1) as [Ha _]. destruct (ilog2_spec q2 H2) as [_ Hb].
  assert (ilog2 q1 < ilog2 q2 + 1)%Z; [|lia].
  apply pow2_lt_inv. eapply Qle_lt_trans; [exact Ha|]. eapply Qle_lt_trans; eauto.
Qed.

Lemma ilog2_comp q1 q2 : 0 < q1 -> q1 == q2 -> ilog2 q1 = ilog2 q2.
Proof.
  intros H1 E. destruct (ilog2_spec q1 H1) as [Ha Hb].
  symmetry. apply ilog2_unique; rewrite <- E; assumption.
Qed.

(** ** Nearest integer *)

Lemma rne_cases q : rne q = Qfloor q \/ rne q = (Qfloor q + 1)%Z.
Proof.
  unfold rne. destruct (_ ?= _); [destruct (Z.even _)|..]; auto.
Qed.

Lemma rne_Z z : rne (inject_Z z) = z.
Proof.
  unfold rne. rewrite Qfloor_Z.
  assert (E : (inject_Z z - inject_Z z ?= 1 # 2) = Lt).
  { apply Qlt_alt. assert (inject_Z z - inject_Z z == 0) as -> by ring. reflexivity. }
  rewrite E. reflexivity.
Qed.

Lemma rne_comp q1 q2 : q1 == q2 -> rne q1 = rne q2.
Proof.
  intros E. unfold rne. rewrite (Qfloor_comp _ _ E).
  assert (E' : (q1 - inject_Z (Qfloor q2) ?= 1 # 2) = (q2 - inject_Z (Qfloor q2) ?= 1 # 2)).
  { apply Qcompare_comp; [rewrite E; reflexivity|reflexivity]. }
  rewrite E'. reflexivity.
Qed.

Lemma rne_le q1 q2 : q1 <= q2 -> (rne q1 <= rne q2)%Z.
Proof.
  intros H.
  pose proof (Qfloor_resp_le _ _ H) as Hf.
  destruct (Z.eq_dec (Qfloor q1) (Qfloor q2)) as [E|E].
  - unfold rne. rewrite E. set (f := Qfloor q2).
    assert (Hr : q1 - inject_Z f <= q2 - inject_Z f) by lra.
    destruct (q1 - inject_Z f ?= 1 # 2) eqn:C1; destruct (q2 - inject_Z f ?= 1 # 2) eqn:C2;
      try (destruct (Z.even f)); try lia; exfalso.
    all: first [apply Qeq_alt in C1|apply Qlt_alt in C1|apply Qgt_alt in C1].
    all: first [apply Qeq_alt in C2|apply Qlt_alt in C2|apply Qgt_alt in C2].
    all: lra.
  - destruct (rne_cases q1) as [-> | ->], (rne_cases q2) as [-> | ->]; lia.
Qed.

(** [rne] is a nearest integer. *)
Lemma rne_near q : q - (1 # 2) <= inject_Z (rne q) /\ inject_Z (rne q) <= q + (1 # 2).
Proof.
  pose proof (Qfloor_le q) as Hlo. pose proof (Qlt_floor q) as Hhi.
  rewrite inject_Z_plus in Hhi. change (inject_Z 1) with 1 in Hhi.
  unfold rne. destruct (q - inject_Z (Qfloor q) ?= 1 # 2) eqn:C.
  - apply Qeq_alt in C. destruct (Z.even _); [|rewrite inject_Z_plus; change (inject_Z 1) with 1];
      split; lra.
  - apply Qlt_alt in C. split; lra.
  - apply Qgt_alt in C. rewrite inject_Z_plus. change (inject_Z 1) with 1. split; lra.
Qed.

Lemma rne_nonneg q : 0 <= q -> (0 <= rne q)%Z.
Proof. intros H. rewrite <- (rne_Z 0). apply rne_le. exact H. Qed.


(** ** Rounding of positive numbers *)

Section RoundPos.
Variables prec emin : Z.
Hypothesis Hprec : (1 <= prec)%Z.

Local Abbreviation expo q := (Z.max (ilog2 q - (prec - 1)) emin).

Lemma round_pos_nonneg q : 0 < q -> 0 <= round_pos prec emin q.
Proof.
  intros Hq. unfold round_pos.
  apply Qmult_le_0_compat; [|apply Qlt_le_weak, pow2_pos].
  change 0 with (inject_Z 0). rewrite <- Zle_Qle. apply rne_nonneg.
  apply Qlt_le_weak, Qlt_shift_div_l; [apply pow2_pos|]. lra.
Qed.

Lemma round_pos_comp q1 q2 : 0 < q1 -> q1 == q2 -> round_pos prec emin q1 == round_pos prec emin q2.
Proof.
  intros H1 E. unfold round_pos. rewrite (ilog2_comp q1 q2 H1 E).
  rewrite (rne_comp (q1 / 2 ^ expo q2) (q2 / 2 ^ expo q2)) by (rewrite E; reflexivity).
  reflexivity.
Qed.

(** The scaled number lies below [2^prec], and above [2^(prec-1)] except in
    the lowest binade. *)
Lemma scaled_lt q : 0 < q -> q / 2 ^ expo q < 2 ^ prec.
Proof.
  intros Hq. destruct (ilog2_spec q Hq) as [_ Hb].
  apply Qlt_shift_div_r; [apply pow2_pos|].
  eapply Qlt_le_trans; [exact Hb|]. rewrite <- pow2_add. apply pow2_le. lia.
Qed.

Lemma scaled_ge q : 0 < q -> (emin < expo q)%Z -> 2 ^ (prec - 1) <= q / 2 ^ expo q.
Proof.
  intros Hq He. destruct (ilog2_spec q Hq) as [Ha _].
  apply Qle_shift_div_l; [apply pow2_pos|].
  rewrite <- pow2_add. eapply Qle_trans; [|exact Ha]. apply pow2_le. lia.
Qed.

(** The rounding is within half a unit in the last place. *)
Lemma round_pos_near q :
  q - 2 ^ expo q / 2 <= round_pos prec emin q /\ round_pos prec emin q <= q + 2 ^ expo q / 2.
Proof.
  unfold round_pos. set (e := expo q).
  pose proof (pow2_pos e) as Hp.
  destruct (rne_near (q / 2 ^ e)) as [Hlo Hhi].
  set (n := inject_Z (rne (q / 2 ^ e))) in *. clearbody n.
  set (p := 2 ^ e) in *. clearbody p.
  assert (E1 : (q / p - (1 # 2)) * p == q - p / 2) by (field; lra).
  assert (E2 : (q / p + (1 # 2)) * p == q + p / 2) by (field; lra).
  split.
  - rewrite <- E1. apply Qmult_le_compat_r; lra.
  - rewrite <- E2. apply Qmult_le_compat_r; lra.
Qed.

Lemma round_pos_le q1 q2 :
  0 < q1 -> q1 <= q2 -> round_pos prec emin q1 <= round_pos prec emin q2.
Proof.
  intros H1 H12.
  assert (H2 : 0 < q2) by (eapply Qlt_le_trans; eauto).
  pose proof (ilog2_le q1 q2 H1 H12) as Hl.
  unfold round_pos.
  destruct (Z.eq_dec (expo q1) (expo q2)) as [E|E].
  - rewrite E. apply Qmult_le_compat_r; [|apply Qlt_le_weak, pow2_pos].
    rewrite <- Zle_Qle. apply rne_le.
    apply Qmult_le_compat_r; [exact H12|]. apply Qlt_le_weak, Qinv_lt_0_compat, pow2_pos.
  - assert (He : (expo q1 + 1 <= expo q2)%Z) by lia.
    assert (Hlow : (emin < expo q2)%Z) by lia.
    apply Qle_trans with (2 ^ prec * 2 ^ expo q1).
    + apply Qmult_le_compat_r; [|apply Qlt_le_weak, pow2_pos].
      rewrite (pow2_Z prec) by lia. rewrite <- Zle_Qle.
      rewrite <- (rne_Z (2 ^ prec)). apply rne_le.
      rewrite <- (pow2_Z prec) by lia. apply Qlt_le_weak, scaled_lt, H1.
    + apply Qle_trans with (2 ^ (prec - 1) * 2 ^ expo q2).
      * rewrite <- !pow2_add. apply pow2_le. lia.
      * apply Qmult_le_compat_r; [|apply Qlt_le_weak, pow2_pos].
        rewrite (pow2_Z (prec - 1)) by lia. rewrite <- Zle_Qle.
        rewrite <- (rne_Z (2 ^ (prec - 1))). apply rne_le.
        rewrite <- (pow2_Z (prec - 1)) by lia. apply scaled_ge; assumption.
Qed.

(** A number [m * 2^e] with [0 < m <= 2^prec] and [e >= emin] is its own
    rounding. *)
Lemma round_pos_exact m e :
  (0 < m <= 2 ^ prec)%Z -> (emin <= e)%Z ->
  round_pos prec emin (inject_Z m * 2 ^ e) == inject_Z m * 2 ^ e.
Proof.
  intros Hm He. set (q := inject_Z m * 2 ^ e).
  assert (Hq : 0 < q).
  { unfold q. apply Qmult_lt_0_compat; [|apply pow2_pos].
    change 0 with (inject_Z 0). rewrite <- Zlt_Qlt. lia. }
  assert (Hlog : ilog2 q = (Z.log2 m + e)%Z).
  { destruct (Z.log2_spec m ltac:(lia)) as [Hm1 Hm2].
    assert (0 <= Z.log2 m)%Z by apply Z.log2_nonneg.
    apply ilog2_unique; unfold q.
    - rewrite pow2_add. apply Qmult_le_compat_r; [|apply Qlt_le_weak, pow2_pos].
      rewrite (pow2_Z (Z.log2 m)) by lia. rewrite <- Zle_Qle. exact Hm1.
    - replace (Z.log2 m + e + 1)%Z with ((Z.log2 m + 1) + e)%Z by ring.
      rewrite pow2_add. apply Qmult_lt_compat_r; [apply pow2_pos|].
      rewrite (pow2_Z (Z.log2 m + 1)) by lia. rewrite <- Zlt_Qlt. exact Hm2. }
  assert (Hlm : (Z.log2 m <= prec)%Z).
  { apply Z.le_trans with (Z.log2 (2 ^ prec)); [apply Z.log2_le_mono; lia|].
    rewrite Z.log2_pow2 by lia. lia. }
  unfold round_pos. fold q.
  set (E := Z.max (ilog2 q - (prec - 1)) emin).
  assert (HE : (E <= e)%Z \/ (E = e + 1 /\ m = 2 ^ prec)%Z).
  { destruct (Z_le_gt_dec E e) as [Hle|Hgt]; [left; exact Hle|right].
    assert (Hlm' : Z.log2 m = prec) by lia.
    split; [lia|].
    destruct (Z.log2_spec m ltac:(lia)) as [Hm1 _]. rewrite Hlm' in Hm1. lia. }
  clearbody E.
  assert (Hnz : ~ 2 ^ E == 0) by (apply Qpower_not_0; discriminate).
  assert (Hint : exists z, q / 2 ^ E == inject_Z z).
  { destruct HE as [Hle|[-> Hm']].
    - exists (m * 2 ^ (e - E))%Z.
      rewrite inject_Z_mult, <- (pow2_Z (e - E)) by lia.
      unfold q. replace e with ((e - E) + E)%Z at 1 by ring.
      rewrite pow2_add.
      generalize dependent (2 ^ E). generalize (2 ^ (e - E)). intros; field; assumption.
    - exists (2 ^ (prec - 1))%Z.
      rewrite <- (pow2_Z (prec - 1)) by lia.
      unfold q. rewrite Hm', <- (pow2_Z prec) by lia.
      replace prec with ((prec - 1) + 1)%Z at 1 by ring.
      rewrite !pow2_add. change (2 ^ 1) with 2.
      assert (Hnz' : ~ 2 ^ e == 0) by (apply Qpower_not_0; discriminate).
      clear Hnz. generalize dependent (2 ^ e). generalize (2 ^ (prec - 1)).
      intros; field; assumption. }
  destruct Hint as [z Hz].
  rewrite (rne_comp _ _ Hz), rne_Z, <- Hz.
  clear Hz. generalize dependent (2 ^ E). intros; field; assumption.
Qed.

(** The rounding of a positive number is such a number, or zero. *)
Lemma round_pos_form q :
  0 < q -> exists m e, (0 <= m <= 2 ^ prec)%Z /\ (emin <= e)%Z /\
                       round_pos prec emin q == inject_Z m * 2 ^ e.
Proof.
  intros Hq. exists (rne (q / 2 ^ expo q)), (expo q).
  split; [|split; [lia|reflexivity]].
  split.
  - apply rne_nonneg, Qlt_le_weak, Qlt_shift_div_l; [apply pow2_pos|]. lra.
  - rewrite <- (rne_Z (2 ^ prec)). apply rne_le.
    rewrite <- (pow2_Z prec) by lia. apply Qlt_le_weak, scaled_lt, Hq.
Qed.

(** ** Rounding *)

Lemma round_fp_0 q : q == 0 -> round_fp prec emin q = 0.
Proof.
  intros E. unfold round_fp.
  assert (Qnum q = 0%Z) as ->; [|reflexivity].
  destruct q as [n d]. unfold Qeq in E. simpl in *. lia.
Qed.

Lemma round_fp_pos q : 0 < q -> round_fp prec emin q = Qred (round_pos prec emin q).
Proof.
  intros Hq. unfold round_fp. apply Qnum_pos in Hq.
  destruct (Qnum q); try lia. reflexivity.
Qed.

Lemma round_fp_neg q : q < 0 -> round_fp prec emin q = Qred (- round_pos prec emin (- q)).
Proof.
  intros Hq. unfold round_fp.
  assert (Qnum q < 0)%Z by (destruct q as [n d]; unfold Qlt in Hq; simpl in *; lia).
  destruct (Qnum q); try lia. reflexivity.
Qed.

Lemma round_fp_comp q1 q2 : q1 == q2 -> round_fp prec emin q1 = round_fp prec emin q2.
Proof.
  intros E. destruct (Q_dec q1 0) as [[Hlt|Hgt]|Hz].
  - rewrite !round_fp_neg by lra. apply Qred_complete.
    rewrite (round_pos_comp (- q1) (- q2)) by lra. reflexivity.
  - rewrite !round_fp_pos by lra. apply Qred_complete.
    apply round_pos_comp; [lra|exact E].
  - rewrite !round_fp_0 by lra. reflexivity.
Qed.

Lemma round_fp_le q1 q2 : q1 <= q2 -> round_fp prec emin q1 <= round_fp prec emin q2.
Proof.
  intros H.
  destruct (Q_dec q1 0) as [[Hlt1|Hgt1]|Hz1]; destruct (Q_dec q2 0) as [[Hlt2|Hgt2]|Hz2];
    try (exfalso; lra).
  - rewrite !round_fp_neg by assumption. rewrite !Qred_correct.
    apply Qopp_le_compat. apply round_pos_le; lra.
  - rewrite round_fp_neg, round_fp_pos by assumption. rewrite !Qred_correct.
    pose proof (round_pos_nonneg (- q1) ltac:(lra)). pose proof (round_pos_nonneg q2 Hgt2). lra.
  - rewrite round_fp_neg, round_fp_0 by assumption. rewrite Qred_correct.
    pose proof (round_pos_nonneg (- q1) ltac:(lra)). lra.
  - rewrite !round_fp_pos by assumption. rewrite !Qred_correct.
    apply round_pos_le; assumption.
  - rewrite round_fp_0, round_fp_pos by assumption. rewrite Qred_correct.
    apply round_pos_nonneg, Hgt2.
  - rewrite !round_fp_0 by assumption. apply Qle_refl.
Qed.

Lemma round_fp_exact m e :
  (Z.abs m <= 2 ^ prec)%Z -> (emin <= e)%Z ->
  round_fp prec emin (inject_Z m * 2 ^ e) == inject_Z m * 2 ^ e.
Proof.
  intros Hm He.
  pose proof (pow2_pos e) as Hp.
  destruct (Z.lt_trichotomy m 0) as [Hneg|[->|Hpos]].
  - assert (Hq : inject_Z m * 2 ^ e < 0).
    { assert (inject_Z m * 2 ^ e == - (inject_Z (- m) * 2 ^ e)) as ->
        by (rewrite inject_Z_opp; ring).
      assert (0 < inject_Z (- m) * 2 ^ e); [|lra].
      apply Qmult_lt_0_compat; [|exact Hp]. change 0 with (inject_Z 0).
      rewrite <- Zlt_Qlt. lia. }
    rewrite round_fp_neg by exact Hq. rewrite Qred_correct.
    rewrite (round_pos_comp _ (inject_Z (- m) * 2 ^ e)).
    + rewrite round_pos_exact by lia. rewrite inject_Z_opp. ring.
    + lra.
    + rewrite inject_Z_opp. ring.
  - rewrite round_fp_0 by ring. ring.
  - assert (Hq : 0 < inject_Z m * 2 ^ e).
    { apply Qmult_lt_0_compat; [|exact Hp]. change 0 with (inject_Z 0).
      rewrite <- Zlt_Qlt. lia. }
    rewrite round_fp_pos by exact Hq. rewrite Qred_correct.
    apply round_pos_exact; lia.
Qed.

Lemma round_fp_form q :
  exists m e, (Z.abs m <= 2 ^ prec)%Z /\ (emin <= e)%Z /\
              round_fp prec emin q == inject_Z m * 2 ^ e.
Proof.
  assert (H2 : (0 < 2 ^ prec)%Z) by (apply Z.pow_pos_nonneg; lia).
  destruct (Q_dec q 0) as [[Hlt|Hgt]|Hz].
  - destruct (round_pos_form (- q) ltac:(lra)) as (m & e & Hm & He & E).
    exists (- m)%Z, e. split; [lia|]. split; [exact He|].
    rewrite round_fp_neg by exact Hlt. rewrite Qred_correct, E, inject_Z_opp. ring.
  - destruct (round_pos_form q Hgt) as (m & e & Hm & He & E).
    exists m, e. split; [lia|]. split; [exact He|].
    rewrite round_fp_pos by exact Hgt. rewrite Qred_correct. exact E.
  - exists 0%Z, emin. split; [simpl; lia|]. split; [lia|].
    rewrite round_fp_0 by exact Hz. ring.
Qed.

(** A rounded number is its own rounding. *)
Lemma round_fp_idem q : round_fp prec emin (round_fp prec emin q) = round_fp prec emin q.
Proof.
  destruct (round_fp_form q) as (m & e & Hm & He & E).
  rewrite (round_fp_comp _ _ E).
  assert (E' : round_fp prec emin (inject_Z m * 2 ^ e) == round_fp prec emin q)
    by (rewrite E; apply round_fp_exact; assumption).
  unfold round_fp in E' |- *. rewrite !Qred_correct in E'.
  apply Qred_complete. exact E'.
Qed.


Lemma round_fp_nonneg q : 0 <= q -> 0 <= round_fp prec emin q.
Proof.
  intros H. rewrite <- (round_fp_0 0) by reflexivity. apply round_fp_le, H.
Qed.

Lemma round_fp_nonpos q : q <= 0 -> round_fp prec emin q <= 0.
Proof.
  intros H. apply Qle_trans with (round_fp prec emin 0); [apply round_fp_le, H|].
  rewrite round_fp_0 by reflexivity. apply Qle_refl.
Qed.

End RoundPos.

End Rounding.

(** The two formats. *)
Lemma f32_le x y : (x <= y)%Q -> (f32 x <= f32 y)%Q.
Proof. exact (round_fp_le 24 (-149) ltac:(lia) x y). Qed.

Lemma f32_comp x y : (x == y)%Q -> f32 x = f32 y.
Proof. exact (round_fp_comp 24 (-149) x y). Qed.

Lemma f32_idem x : f32 (f32 x) = f32 x.
Proof. exact (round_fp_idem 24 (-149) ltac:(lia) x). Qed.


Lemma f32_0 x : (x == 0)%Q -> f32 x = 0%Q.
Proof. exact (round_fp_0 24 (-149) x). Qed.

Lemma f32_nonneg x : (0 <= x)%Q -> (0 <= f32 x)%Q.
Proof. exact (round_fp_nonneg 24 (-149) ltac:(lia) x). Qed.

Lemma f64_le x y : (x <= y)%Q -> (f64 x <= f64 y)%Q.
Proof. exact (round_fp_le 53 (-1074) ltac:(lia) x y). Qed.

Lemma f64_comp x y : (x == y)%Q -> f64 x = f64 y.
Proof. exact (round_fp_comp 53 (-1074) x y). Qed.

Lemma f64_nonneg x : (0 <= x)%Q -> (0 <= f64 x)%Q.
Proof. exact (round_fp_nonneg 53 (-1074) ltac:(lia) x). Qed.

Lemma f32_nonpos x : (x <= 0)%Q -> (f32 x <= 0)%Q.
Proof. exact (round_fp_nonpos 24 (-149) ltac:(lia) x). Qed.

Lemma f64_nonpos x : (x <= 0)%Q -> (f64 x <= 0)%Q.
Proof. exact (round_fp_nonpos 53 (-1074) ltac:(lia) x). Qed.

Lemma f32_1 : f32 1 = 1%Q.
Proof. reflexivity. Qed.


(** ** Arithmetic of [get_mip] *)

Section MipLevel.
Local Open Scope Q_scope.

Lemma Qltb_true x y : Qltb x y = true <-> x < y.
Proof.
  unfold Qltb. rewrite negb_true_iff. split; intros Hxy.
  - apply Qnot_le_lt. intros Hle. apply Qle_bool_iff in Hle. congruence.
  - destruct (Qle_bool y x) eqn:E; [|reflexivity].
    apply Qle_bool_iff in E. exfalso. apply (Qlt_not_le _ _ Hxy E).
Qed.

Lemma Qltb_false x y : Qltb x y = false <-> y <= x.
Proof.
  unfold Qltb. rewrite negb_false_iff. apply Qle_bool_iff.
Qed.

Lemma clamp_bounds x lo hi : lo <= hi -> lo <= clamp x lo hi /\ clamp x lo hi <= hi.
Proof.
  intros Hlh. unfold clamp.
  destruct (Q.max_spec x lo) as [[? E1]|[? E1]];
    destruct (Q.min_spec (Qmax x lo) hi) as [[? E2]|[? E2]];
    rewrite E2; rewrite ?E1 in *; split; lra.
Qed.


Lemma clamp_above x lo hi : lo <= hi -> hi <= x -> clamp x lo hi == hi.
Proof.
  intros Hlh Hx. unfold clamp.
  destruct (Q.max_spec x lo) as [[? E1]|[? E1]];
    destruct (Q.min_spec (Qmax x lo) hi) as [[? E2]|[? E2]];
    rewrite E2; rewrite ?E1 in *; lra.
Qed.


Lemma clamp_monotone x y lo hi : x <= y -> clamp x lo hi <= clamp y lo hi.
Proof.
  intros Hxy. unfold clamp.
  destruct (Q.max_spec x lo) as [[? E1]|[? E1]];
    destruct (Q.max_spec y lo) as [[? E2]|[? E2]];
    destruct (Q.min_spec (Qmax x lo) hi) as [[? E3]|[? E3]];
    destruct (Q.min_spec (Qmax y lo) hi) as [[? E4]|[? E4]];
    rewrite E3, E4; rewrite ?E1, ?E2 in *; lra.
Qed.

Lemma Qdiv_le_compat a b d : 0 < d -> a <= b -> a / d <= b / d.
Proof.
  intros Hd Hab. unfold Qdiv. apply Qmult_le_compat_r; [exact Hab|].
  apply Qinv_le_0_compat. lra.
Qed.

(** A clamped value, rescaled to its interval, is a fraction in [[0, 1]]. *)
Lemma clamp_fraction x lo hi :
  lo < hi -> 0 <= (clamp x lo hi - lo) / (hi - lo) /\ (clamp x lo hi - lo) / (hi - lo) <= 1.
Proof.
  intros Hlh. destruct (clamp_bounds x lo hi) as [Hl Hh]; [lra|].
  split.
  - apply Qle_shift_div_l; lra.
  - apply Qle_shift_div_r; lra.
Qed.

End MipLevel.

(** Both division kernels are monotone in the dividend and exact on 0. *)
Section DivKernels.
Local Open Scope Q_scope.

Lemma div32_le k s a b : 0 < f32 s -> a <= b -> div32 k a s <= div32 k b s.
Proof.
  intros Hs Hab. destruct k; unfold div32; apply f32_le.
  - apply Qdiv_le_compat; assumption.
  - apply Qmult_le_compat_r; [exact Hab|]. apply f32_nonneg.
    unfold Qdiv. rewrite Qmult_1_l. apply Qinv_le_0_compat. lra.
Qed.


Lemma div32_comp k s a b : a == b -> div32 k a s = div32 k b s.
Proof.
  intros E. destruct k; unfold div32; apply f32_comp; rewrite E; reflexivity.
Qed.


End DivKernels.

Section MipLevelFacts.
Local Open Scope Q_scope.
Variables (k : DivKernel) (minr maxr : Q) (levels : Z).

Local Abbreviation minf := (f32 minr).
Local Abbreviation maxf := (f32 maxr).
Local Abbreviation div_low := (f32 (f64 (maxr - minr))).
Local Abbreviation div_high := (f32 (f64 (1 - maxr))).

Hypothesis Hmin : minf < maxf.
Hypothesis Hlow : 2 ^ (-126) <= div_low.
Hypothesis Hhigh : 2 ^ (-126) <= div_high.
Hypothesis Hlevels : (0 <= levels < 2 ^ 24)%Z.

Lemma div_low_pos : 0 < div_low.
Proof. eapply Qlt_le_trans; [apply (pow2_pos (-126))|exact Hlow]. Qed.

Lemma div_high_pos : 0 < div_high.
Proof. eapply Qlt_le_trans; [apply (pow2_pos (-126))|exact Hhigh]. Qed.

Lemma maxf_le_1 : maxf <= 1.
Proof.
  pose proof div_high_pos as Hpos.
  assert (Hlt : maxr < 1).
  { apply Qnot_le_lt. intros Hge.
    assert (f32 (f64 (1 - maxr)) <= 0) by (apply f32_nonpos, f64_nonpos; lra). lra. }
  rewrite <- f32_1. apply f32_le. lra.
Qed.



(** Both branches are non-decreasing in the clamped roughness. *)
Lemma mip_low_of_le c1 c2 :
  (2 <= levels)%Z -> c1 <= c2 ->
  mip_low_of k minr maxr levels c1 <= mip_low_of k minr maxr levels c2.
Proof.
  intros HM Hc. unfold mip_low_of. apply f32_le.
  apply Qmult_le_compat_r.
  - apply div32_le; [exact div_low_pos|]. apply f32_le. lra.
  - apply f32_nonneg. change 0 with (inject_Z 0). rewrite <- Zle_Qle. lia.
Qed.

Lemma mip_high_of_le c1 c2 :
  c1 <= c2 -> mip_high_of k maxr levels c1 <= mip_high_of k maxr levels c2.
Proof.
  intros Hc. unfold mip_high_of. apply f32_le.
  apply Qplus_le_compat; [|apply Qle_refl]. apply f32_le.
  apply Qplus_le_compat; [|apply Qle_refl].
  apply div32_le; [exact div_high_pos|]. apply f32_le. lra.
Qed.








Lemma mip_level_high r :
  maxf <= r -> mip_level k minr maxr levels r = mip_high k maxr levels r.
Proof.
  intros Hr. unfold mip_level.
  assert (Hge : Qltb r maxf = false) by (apply Qltb_false; exact Hr).
  rewrite Hge. reflexivity.
Qed.

Lemma mip_level_low r :
  r < maxf -> mip_level k minr maxr levels r = mip_low k minr maxr levels r.
Proof.
  intros Hr. unfold mip_level.
  assert (Hlt : Qltb r maxf = true) by (apply Qltb_true; exact Hr).
  rewrite Hlt. reflexivity.
Qed.

Lemma mip_level_above_one r :
  1 <= r -> mip_level k minr maxr levels r == mip_level k minr maxr levels 1.
Proof.
  intros Hr. pose proof maxf_le_1 as H1.
  rewrite !mip_level_high by lra. unfold mip_high, mip_high_of. rewrite f32_1.
  rewrite (f32_comp (clamp r maxf 1 - maxf) (clamp 1 maxf 1 - maxf)); [reflexivity|].
  rewrite (clamp_above r maxf 1), (clamp_above 1 maxf 1) by lra. reflexivity.
Qed.



Lemma mip_level_monotone r1 r2 :
  (2 <= levels)%Z -> r1 <= r2 -> r2 < maxf \/ maxf <= r1 ->
  mip_level k minr maxr levels r1 <= mip_level k minr maxr levels r2.
Proof.
  intros HM Hr [Hlt|Hge].
  - rewrite !mip_level_low by lra. unfold mip_low.
    apply mip_low_of_le; [exact HM|]. apply clamp_monotone, Hr.
  - rewrite !mip_level_high by lra. unfold mip_high.
    apply mip_high_of_le. apply clamp_monotone, Hr.
Qed.




End MipLevelFacts.

(** ** Reasoning about the monad *)

Lemma bind_Ok {A B} (m : M A) (k : A -> M B) w a w' :
  m w = (Ok a, w') -> bind m k w = k a w'.
Proof. unfold bind. intros ->. reflexivity. Qed.

Lemma bind_Raise {A B} (m : M A) (k : A -> M B) w e w' :
  m w = (Raise e, w') -> bind m k w = (Raise e, w').
Proof. unfold bind. intros ->. reflexivity. Qed.

Lemma invariant_ret {A} P (a : A) : invariant P (ret a).
Proof. intros w Hw. exact Hw. Qed.

Lemma invariant_raise {A} P e : invariant P (@raise A e).
Proof. intros w Hw. exact Hw. Qed.

Lemma invariant_lift {A} P (o : outcome A) : invariant P (lift o).
Proof. intros w Hw. exact Hw. Qed.

Lemma invariant_attr {A} P (f : EnvLight -> A) : invariant P (attr f).
Proof. intros w Hw. exact Hw. Qed.

Lemma invariant_getattr {A} P (f : EnvLight -> option A) : invariant P (getattr f).
Proof. intros w Hw. unfold getattr. destruct (f (self w)); exact Hw. Qed.

Lemma invariant_bind {A B} P (m : M A) (k : A -> M B) :
  invariant P m -> (forall a, invariant P (k a)) -> invariant P (bind m k).
Proof.
  intros Hm Hk w Hw. unfold bind. specialize (Hm w Hw).
  destruct (m w) as [[a|e|] w']; simpl in *; auto. apply Hk, Hm.
Qed.

Lemma invariant_modify P f :
  (forall w, P w -> P (upd f w)) -> invariant P (modify f).
Proof. intros Hf w Hw. apply Hf, Hw. Qed.

Lemma invariant_if {A} P (b : bool) (m1 m2 : M A) :
  invariant P m1 -> invariant P m2 -> invariant P (if b then m1 else m2).
Proof. destruct b; auto. Qed.

Lemma invariant_for_range P idxs body :
  (forall i, invariant P (body i)) -> invariant P (for_range idxs body).
Proof.
  intros Hb. induction idxs as [|i rest IH]; simpl.
  - apply invariant_ret.
  - apply invariant_bind; auto.
Qed.

Lemma determined_ret {A} R (a : A) : determined R R (ret a).
Proof. intros w w' Hw. split; auto. Qed.

Lemma determined_raise {A} R R' e : determined R R' (@raise A e).
Proof. intros w w' Hw. split; [reflexivity|intros; discriminate]. Qed.

Lemma determined_lift {A} R (o : outcome A) : determined R R (lift o).
Proof. intros w w' Hw. split; auto. Qed.

Lemma determined_attr {A} (R : World -> World -> Prop) (f : EnvLight -> A) :
  (forall w w', R w w' -> f (self w) = f (self w')) -> determined R R (attr f).
Proof. intros Hf w w' Hw. simpl. rewrite (Hf w w' Hw). auto. Qed.

Lemma determined_getattr {A} (R : World -> World -> Prop) (f : EnvLight -> option A) :
  (forall w w', R w w' -> f (self w) = f (self w')) -> determined R R (getattr f).
Proof.
  intros Hf w w' Hw. unfold getattr. rewrite (Hf w w' Hw).
  destruct (f (self w')); simpl; auto.
Qed.

Lemma determined_modify (R R' : World -> World -> Prop) f :
  (forall w w', R w w' -> R' (upd f w) (upd f w')) -> determined R R' (modify f).
Proof. intros Hf w w' Hw. split; [reflexivity|]. intros _. apply Hf, Hw. Qed.

Lemma determined_bind {A B} R R1 R2 (m : M A) (k : A -> M B) :
  determined R R1 m -> (forall a, determined R1 R2 (k a)) -> determined R R2 (bind m k).
Proof.
  intros Hm Hk w w' Hw. unfold bind. destruct (Hm w w' Hw) as [Ho Hr].
  destruct (m w) as [[a|e|] w1], (m w') as [[a'|e'|] w1']; simpl in *;
    try discriminate; try (split; [congruence|intros; discriminate]).
  injection Ho as <-. apply Hk, Hr. reflexivity.
Qed.

Lemma determined_if {A} R R' (b : bool) (m1 m2 : M A) :
  determined R R' m1 -> determined R R' m2 -> determined R R' (if b then m1 else m2).
Proof. destruct b; auto. Qed.

Lemma determined_for_range R idxs body :
  (forall i, determined R R (body i)) -> determined R R (for_range idxs body).
Proof.
  intros Hb. induction idxs as [|i rest IH]; simpl.
  - apply determined_ret.
  - eapply determined_bind; eauto.
Qed.

(** ** The unfiltered chain (lines 81-83) *)

Lemma upd_upd f g w : upd g (upd f w) = upd (fun e => g (f e)) w.
Proof. reflexivity. Qed.

Lemma with_specular_same e l : specular e = Some l -> with_specular l e = e.
Proof. destruct e; simpl; intros ->; reflexivity. Qed.

Lemma upd_with_specular_same w l : specular (self w) = Some l -> upd (with_specular l) w = w.
Proof.
  intros Hl. unfold upd. rewrite (with_specular_same _ _ Hl). destruct w; reflexivity.
Qed.

Lemma deref_with_specular l e r : deref (with_specular l e) r = deref e r.
Proof. destruct r; reflexivity. Qed.

Lemma deref_with_diffuse t e r : deref (with_diffuse t e) r = deref e r.
Proof. destruct r; reflexivity. Qed.

Lemma specular_getitem_last_eval w pre top :
  specular (self w) = Some (pre ++ [top]) ->
  specular_getitem_last w = (Ok (deref (self w) top), w).
Proof.
  intros Hs. unfold specular_getitem_last, bind, getattr. rewrite Hs, last_snoc.
  reflexivity.
Qed.

Lemma specular_getitem_eval w l i r :
  specular (self w) = Some l -> l !! i = Some r ->
  specular_getitem i w = (Ok (deref (self w) r), w).
Proof.
  intros Hs Hi. unfold specular_getitem, bind, getattr. rewrite Hs, Hi. reflexivity.
Qed.

Lemma specular_len_eval w l :
  specular (self w) = Some l -> specular_len w = (Ok (length l), w).
Proof. intros Hs. unfold specular_len, bind, getattr. rewrite Hs. reflexivity. Qed.

Lemma specular_append_eval w l t :
  specular (self w) = Some l ->
  specular_append t w = (Ok tt, upd (with_specular (l ++ [Detached t])) w).
Proof. intros Hs. unfold specular_append, bind, getattr. rewrite Hs. reflexivity. Qed.

Lemma specular_setitem_eval w l i t :
  specular (self w) = Some l -> (i < length l)%nat ->
  specular_setitem i t w = (Ok tt, upd (with_specular (<[i := Detached t]> l)) w).
Proof.
  intros Hs Hi. unfold specular_setitem, bind, getattr. rewrite Hs.
  destruct (decide (i < length l)%nat); [reflexivity|contradiction].
Qed.

Lemma shape_at_eval t r : face_res t = Some r -> shape_at t 1 = Ok r.
Proof. unfold face_res, shape_at. intros ->. reflexivity. Qed.

Section Halving.
Context `{Collaborators}.

Hypothesis Hhalf : mip_halves.

Lemma mip_loop_halving (k : nat) :
  forall fuel w pre top,
    specular (self w) = Some (pre ++ [top]) ->
    face_res (deref (self w) top) = Some (2 ^ Z.of_nat k * min_res (self w)) ->
    0 < min_res (self w) ->
    (k < fuel)%nat ->
    mip_loop fuel w =
      (Ok tt, upd (with_specular (pre ++ top :: map Detached (mips_of k (deref (self w) top)))) w).
Proof.
  induction k as [|k IH]; intros fuel w pre top Hs Hr Hm Hk;
    (destruct fuel as [|fuel]; [lia|]); simpl mip_loop.
  - rewrite (bind_Ok _ _ _ _ _ (specular_getitem_last_eval _ _ _ Hs)).
    unfold bind at 1. unfold lift. rewrite (shape_at_eval _ _ Hr).
    unfold bind at 1. unfold attr at 1.
    replace (2 ^ Z.of_nat 0 * min_res (self w) >? min_res (self w)) with false
      by (symmetry; rewrite Z.gtb_ltb; apply Z.ltb_ge; simpl; lia).
    simpl. rewrite (upd_with_specular_same _ _ Hs). reflexivity.
  - rewrite (bind_Ok _ _ _ _ _ (specular_getitem_last_eval _ _ _ Hs)).
    unfold bind at 1. unfold lift. rewrite (shape_at_eval _ _ Hr).
    unfold bind at 1. unfold attr at 1.
    assert (Hpow : 2 ^ Z.of_nat (S k) = 2 * 2 ^ Z.of_nat k).
    { rewrite Nat2Z.inj_succ, Z.pow_succ_r by lia. reflexivity. }
    assert (Hpos : 0 < 2 ^ Z.of_nat k) by (apply Z.pow_pos_nonneg; lia).
    replace (2 ^ Z.of_nat (S k) * min_res (self w) >? min_res (self w)) with true
      by (symmetry; rewrite Z.gtb_ltb; apply Z.ltb_lt; nia).
    rewrite (bind_Ok _ _ _ _ _ (specular_getitem_last_eval _ _ _ Hs)).
    rewrite (bind_Ok _ _ _ _ _ (specular_append_eval _ _ _ Hs)).
    rewrite (IH fuel _ (pre ++ [top]) (Detached (cubemap_mip (deref (self w) top)))).
    + simpl. rewrite <- app_assoc. reflexivity.
    + reflexivity.
    + simpl. rewrite (Hhalf _ _ Hr). f_equal.
      rewrite Hpow, <- Z.mul_assoc, Z.mul_comm, Z.div_mul by lia. reflexivity.
    + exact Hm.
    + lia.
Qed.

End Halving.

Lemma length_mips_of `{Collaborators} k t : length (mips_of k t) = k.
Proof. revert t. induction k as [|k IH]; intros t; simpl; [reflexivity|]. rewrite IH. reflexivity. Qed.

Lemma mips_of_res `{Collaborators} (Hhalf : mip_halves) k :
  forall t r i, face_res t = Some r -> (i <= k)%nat ->
    face_res <$> (t :: mips_of k t) !! i = Some (Some (r / 2 ^ Z.of_nat i)).
Proof.
  induction k as [|k IH]; intros t r i Hr Hi.
  - assert (i = 0)%nat as -> by lia. simpl. rewrite Hr, Z.div_1_r. reflexivity.
  - destruct i as [|i].
    + simpl. rewrite Hr, Z.div_1_r. reflexivity.
    + change ((t :: mips_of (S k) t) !! S i) with ((cubemap_mip t :: mips_of k (cubemap_mip t)) !! i).
      rewrite (IH _ (r / 2) i (Hhalf _ _ Hr)) by lia.
      rewrite Nat2Z.inj_succ, Z.pow_succ_r by lia.
      rewrite Z.div_div by (try lia; apply Z.pow_pos_nonneg; lia). reflexivity.
Qed.

Lemma invariant_reads {A} P (m : M A) : reads m -> invariant P m.
Proof. intros Hm w Hw. rewrite Hm. exact Hw. Qed.

Lemma reads_specular_getitem_last : reads specular_getitem_last.
Proof.
  intros w. unfold specular_getitem_last, bind, getattr.
  destruct (specular (self w)) as [l|]; [|reflexivity]. destruct (last l); reflexivity.
Qed.

Lemma reads_specular_getitem i : reads (specular_getitem i).
Proof.
  intros w. unfold specular_getitem, bind, getattr.
  destruct (specular (self w)) as [l|]; [|reflexivity]. destruct (l !! i); reflexivity.
Qed.

Lemma reads_specular_len : reads specular_len.
Proof.
  intros w. unfold specular_len, bind, getattr.
  destruct (specular (self w)) as [l|]; reflexivity.
Qed.

Lemma reads_specular_tail : reads specular_tail.
Proof.
  intros w. unfold specular_tail, bind, getattr.
  destruct (specular (self w)) as [l|]; reflexivity.
Qed.

Lemma reads_py_truediv a b : reads (py_truediv a b).
Proof. intros w. unfold py_truediv. destruct (b =? 0); reflexivity. Qed.

Lemma reads_bind {A B} (m : M A) (k : A -> M B) :
  reads m -> (forall a, reads (k a)) -> reads (bind m k).
Proof.
  intros Hm Hk w. unfold bind. specialize (Hm w).
  destruct (m w) as [[a|e|] w']; simpl in *; subst; auto. apply Hk.
Qed.

Lemma reads_level_roughness idx : reads (level_roughness idx).
Proof.
  unfold level_roughness.
  apply reads_bind; [apply reads_specular_len|intros n].
  apply reads_bind; [apply reads_py_truediv|intros q].
  intros w. reflexivity.
Qed.

Lemma invariant_specular_setitem (P : World -> Prop) i t :
  (forall w l, P w -> specular (self w) = Some l -> (i < length l)%nat ->
     P (upd (with_specular (<[i := Detached t]> l)) w)) ->
  invariant P (specular_setitem i t).
Proof.
  intros HP w Hw. unfold specular_setitem, bind, getattr.
  destruct (specular (self w)) as [l|] eqn:E; [|exact Hw].
  destruct (decide (i < length l)%nat); [|exact Hw]. apply HP; assumption.
Qed.

Lemma invariant_specular_setitem_last (P : World -> Prop) t :
  (forall w l, P w -> specular (self w) = Some l -> l <> [] ->
     P (upd (with_specular (<[pred (length l) := Detached t]> l)) w)) ->
  invariant P (specular_setitem_last t).
Proof.
  intros HP w Hw. unfold specular_setitem_last, bind, getattr.
  destruct (specular (self w)) as [l|] eqn:E; [|exact Hw].
  destruct l as [|x l]; [exact Hw|]. apply HP; [assumption..|discriminate].
Qed.

Lemma invariant_specular_append (P : World -> Prop) t :
  (forall w l, P w -> specular (self w) = Some l ->
     P (upd (with_specular (l ++ [Detached t])) w)) ->
  invariant P (specular_append t).
Proof.
  intros HP w Hw. unfold specular_append, bind, getattr.
  destruct (specular (self w)) as [l|] eqn:E; [|exact Hw]. apply HP; assumption.
Qed.

Section FilterFrame.
Context `{Collaborators}.

(** What the filtering half of [build_mips] may change is the content of
    the entries of [self.specular] and [self.diffuse]: an invariant that is
    insensitive to both survives it. *)
Lemma invariant_filter_chain (P : World -> Prop) cutoff :
  (forall w t, P w -> P (upd (with_diffuse t) w)) ->
  (forall w l i t, P w -> specular (self w) = Some l -> (i < length l)%nat ->
     P (upd (with_specular (<[i := Detached t]> l)) w)) ->
  invariant P (filter_chain cutoff).
Proof.
  intros Hd Hs. unfold filter_chain.
  apply invariant_bind; [apply invariant_reads, reads_specular_getitem_last|intros top].
  apply invariant_bind; [apply invariant_modify; auto|intros _].
  apply invariant_bind; [apply invariant_reads, reads_specular_len|intros n].
  apply invariant_bind.
  - apply invariant_for_range. intros i. unfold filter_level.
    apply invariant_bind; [apply invariant_reads, reads_level_roughness|intros roughness].
    apply invariant_bind; [apply invariant_reads, reads_specular_getitem|intros lvl].
    apply invariant_specular_setitem. auto.
  - intros _.
    apply invariant_bind; [apply invariant_reads, reads_specular_getitem_last|intros top'].
    apply invariant_specular_setitem_last. intros w l Hw Hl Hne. apply Hs; auto.
    destruct l; [contradiction|simpl; lia].
Qed.

Lemma filter_chain_keeps_length cutoff n :
  invariant (fun w => length <$> specular (self w) = Some n) (filter_chain cutoff).
Proof.
  apply invariant_filter_chain.
  - intros w t Hw. exact Hw.
  - intros w l i t Hw Hl Hi. simpl. rewrite length_insert.
    rewrite Hl in Hw. exact Hw.
Qed.

End FilterFrame.

Lemma pow2_div_pow2 (a i : nat) :
  (i <= a)%nat -> 2 ^ Z.of_nat a / 2 ^ Z.of_nat i = 2 ^ Z.of_nat (a - i).
Proof.
  intros Hi. replace (Z.of_nat a) with (Z.of_nat (a - i) + Z.of_nat i) at 1 by lia.
  rewrite Z.pow_add_r by lia. apply Z.div_mul.
  apply Z.pow_nonzero; lia.
Qed.

Lemma pow2_lt (x y : nat) : (x < y)%nat -> 2 ^ Z.of_nat x < 2 ^ Z.of_nat y.
Proof. intros Hxy. apply Z.pow_lt_mono_r; lia. Qed.

(** ** The filtered chain (lines 85-91) *)

Lemma for_range_app l1 l2 body w :
  for_range (l1 ++ l2) body w = (for_range l1 body ;; for_range l2 body) w.
Proof.
  revert w. induction l1 as [|i l1 IH]; intros w; simpl.
  - reflexivity.
  - unfold bind. destruct (body i w) as [[[]|e|] w']; simpl; [|reflexivity..].
    rewrite IH. reflexivity.
Qed.

Section Filtering.
Context `{Collaborators}.

Lemma length_filtered_upto e cutoff n chain :
  length (filtered_upto e cutoff n chain) = length chain.
Proof. apply length_imap. Qed.

Lemma filtered_upto_0 e cutoff chain : filtered_upto e cutoff 0 chain = chain.
Proof.
  apply list_eq. intros i. unfold filtered_upto. rewrite list_lookup_imap.
  destruct (chain !! i); reflexivity.
Qed.

Lemma filtered_upto_S e cutoff n chain r :
  chain !! n = Some r ->
  <[n := Detached (specular_cubemap (deref e r) (interpolated e (length chain) n) cutoff)]>
    (filtered_upto e cutoff n chain) = filtered_upto e cutoff (S n) chain.
Proof.
  intros Hn. apply list_eq. intros i. unfold filtered_upto.
  destruct (decide (i = n)) as [->|Hne].
  - rewrite list_lookup_insert_eq by (rewrite length_imap; eapply lookup_lt_Some; eauto).
    rewrite list_lookup_imap, Hn. simpl.
    replace (n <? S n)%nat with true by (symmetry; apply Nat.ltb_lt; lia). reflexivity.
  - rewrite list_lookup_insert_ne by auto. rewrite !list_lookup_imap.
    destruct (chain !! i); simpl; [|reflexivity].
    destruct (Nat.ltb_spec i n), (Nat.ltb_spec i (S n)); try lia; reflexivity.
Qed.

Lemma filter_level_eval cutoff w l n r :
  specular (self w) = Some l -> l !! n = Some r -> Z.of_nat (length l) - 2 <> 0 ->
  filter_level cutoff n w =
    (Ok tt, upd (with_specular
                   (<[n := Detached (specular_cubemap (deref (self w) r)
                                       (interpolated (self w) (length l) n) cutoff)]> l)) w).
Proof.
  intros Hs Hn Hd. unfold filter_level, level_roughness.
  unfold bind at 1. unfold bind at 1. rewrite (specular_len_eval _ _ Hs).
  unfold bind at 1. unfold py_truediv.
  destruct (Z.eqb_spec (Z.of_nat (length l) - 2) 0) as [E|_]; [contradiction|].
  simpl. unfold bind at 1. rewrite (specular_getitem_eval _ _ _ _ Hs Hn).
  rewrite (specular_setitem_eval _ _ _ _ Hs) by (eapply lookup_lt_Some; eauto).
  reflexivity.
Qed.

Lemma filter_loop_eval cutoff w chain n :
  specular (self w) = Some chain ->
  (n < length chain)%nat ->
  (n = 0%nat \/ Z.of_nat (length chain) - 2 <> 0) ->
  for_range (seq 0 n) (filter_level cutoff) w =
    (Ok tt, upd (with_specular (filtered_upto (self w) cutoff n chain)) w).
Proof.
  intros Hs. induction n as [|n IH]; intros Hn Hd.
  - simpl. rewrite filtered_upto_0, (upd_with_specular_same _ _ Hs). reflexivity.
  - destruct Hd as [Hd|Hd]; [discriminate|].
    rewrite seq_S, for_range_app. simpl seq.
    rewrite (bind_Ok _ _ _ _ _ (IH ltac:(lia) (or_intror Hd))).
    destruct (lookup_lt_is_Some_2 chain n ltac:(lia)) as [r Hr].
    simpl for_range.
    set (wn := upd (with_specular (filtered_upto (self w) cutoff n chain)) w).
    assert (Hlk : filtered_upto (self w) cutoff n chain !! n = Some r).
    { unfold filtered_upto. rewrite list_lookup_imap, Hr. simpl.
      rewrite Nat.ltb_irrefl. reflexivity. }
    assert (Hstep := filter_level_eval cutoff wn _ n r eq_refl Hlk).
    rewrite length_filtered_upto in Hstep. specialize (Hstep Hd).
    rewrite (bind_Ok _ _ _ _ _ Hstep).
    unfold wn. simpl self. rewrite deref_with_specular.
    change (interpolated (with_specular _ (self w))) with (interpolated (self w)).
    rewrite (filtered_upto_S _ _ _ _ _ Hr). reflexivity.
Qed.

End Filtering.

Lemma specular_getitem_last_eval' w l r :
  specular (self w) = Some l -> last l = Some r ->
  specular_getitem_last w = (Ok (deref (self w) r), w).
Proof.
  intros Hs Hl. unfold specular_getitem_last, bind, getattr. rewrite Hs, Hl. reflexivity.
Qed.

Lemma specular_setitem_last_eval w l t :
  specular (self w) = Some l -> l <> [] ->
  specular_setitem_last t w =
    (Ok tt, upd (with_specular (<[pred (length l) := Detached t]> l)) w).
Proof.
  intros Hs Hl. unfold specular_setitem_last, bind, getattr. rewrite Hs.
  destruct l; [contradiction|reflexivity].
Qed.

Section FilterChain.
Context `{Collaborators}.

Lemma last_filtered_upto e cutoff chain top :
  last chain = Some top ->
  last (filtered_upto e cutoff (length chain - 1) chain) = Some top.
Proof.
  intros Hl. rewrite last_lookup in *. rewrite length_filtered_upto.
  unfold filtered_upto. rewrite list_lookup_imap, Hl. simpl.
  replace (pred (length chain) <? length chain - 1)%nat with false
    by (symmetry; apply Nat.ltb_ge; lia).
  reflexivity.
Qed.

Lemma filter_chain_eval cutoff w chain top :
  specular (self w) = Some chain -> last chain = Some top -> length chain <> 2%nat ->
  filter_chain cutoff w =
    (Ok tt, upd (with_specular (filtered (self w) cutoff chain top))
              (upd (with_diffuse (diffuse_cubemap (deref (self w) top))) w)).
Proof.
  intros Hs Hl HL. unfold filter_chain.
  assert (Hne : chain <> []) by (intros ->; discriminate).
  assert (Hlen : (0 < length chain)%nat) by (destruct chain; [contradiction|simpl; lia]).
  rewrite (bind_Ok _ _ _ _ _ (specular_getitem_last_eval' _ _ _ Hs Hl)).
  set (wd := upd (with_diffuse (diffuse_cubemap (deref (self w) top))) w).
  erewrite bind_Ok by reflexivity. fold wd.
  assert (Hsd : specular (self wd) = Some chain) by exact Hs.
  rewrite (bind_Ok _ _ _ _ _ (specular_len_eval _ _ Hsd)).
  rewrite (bind_Ok _ _ _ _ _
             (filter_loop_eval cutoff wd chain (length chain - 1) Hsd ltac:(lia) ltac:(lia))).
  set (wf := upd (with_specular (filtered_upto (self wd) cutoff (length chain - 1) chain)) wd).
  assert (Hsf : specular (self wf) = Some (filtered_upto (self wd) cutoff (length chain - 1) chain))
    by reflexivity.
  rewrite (bind_Ok _ _ _ _ _
             (specular_getitem_last_eval' _ _ _ Hsf (last_filtered_upto _ _ _ _ Hl))).
  rewrite (specular_setitem_last_eval _ _ _ Hsf).
  - rewrite length_filtered_upto. unfold wf, filtered. simpl self.
    rewrite deref_with_specular, deref_with_diffuse. reflexivity.
  - intros E. apply (f_equal length) in E. rewrite length_filtered_upto in E.
    simpl in E. lia.
Qed.

Lemma filter_chain_two_levels cutoff w chain top :
  specular (self w) = Some chain -> last chain = Some top -> length chain = 2%nat ->
  filter_chain cutoff w =
    (Raise ZeroDivisionError, upd (with_diffuse (diffuse_cubemap (deref (self w) top))) w).
Proof.
  intros Hs Hl HL. unfold filter_chain.
  rewrite (bind_Ok _ _ _ _ _ (specular_getitem_last_eval' _ _ _ Hs Hl)).
  set (wd := upd (with_diffuse (diffuse_cubemap (deref (self w) top))) w).
  erewrite bind_Ok by reflexivity. fold wd.
  assert (Hsd : specular (self wd) = Some chain) by exact Hs.
  rewrite (bind_Ok _ _ _ _ _ (specular_len_eval _ _ Hsd)).
  rewrite HL. simpl seq. simpl for_range.
  apply bind_Raise. apply bind_Raise. unfold filter_level. apply bind_Raise.
  unfold level_roughness. rewrite (bind_Ok _ _ _ _ _ (specular_len_eval _ _ Hsd)).
  rewrite HL. reflexivity.
Qed.

Lemma filtered_lookup e cutoff chain top idx r :
  last chain = Some top -> chain !! idx = Some r ->
  filtered e cutoff chain top !! idx =
    Some (Detached (specular_cubemap (deref e r)
                      (if decide (idx = length chain - 1)%nat then 1%Q
                       else interpolated e (length chain) idx) cutoff)).
Proof.
  intros Hl Hr. unfold filtered.
  assert (Hi := lookup_lt_Some _ _ _ Hr).
  destruct (decide (idx = length chain - 1)%nat) as [->|Hne].
  - replace (pred (length chain)) with (length chain - 1)%nat by lia.
    rewrite list_lookup_insert_eq by (rewrite length_filtered_upto; lia).
    rewrite last_lookup in Hl.
    replace (pred (length chain)) with (length chain - 1)%nat in Hl by lia.
    congruence.
  - rewrite list_lookup_insert_ne by lia.
    unfold filtered_upto. rewrite list_lookup_imap, Hr. simpl.
    replace (idx <? length chain - 1)%nat with true by (symmetry; apply Nat.ltb_lt; lia).
    reflexivity.
Qed.

End FilterChain.

(** C3 (as amended).  From a base of face resolution [B = 2^a] and
    [min_res = m = 2^b] with [B > m], and a [cubemap_mip] that halves the
    face resolution, the loop of [build_mips] returns (given fuel for its
    iterations) a chain of exactly [floor(log2(B/m)) + 1] levels; level [i]
    has resolution [B / 2^i], so each level is half the previous one and
    strictly smaller; every level that was downsampled passed the test
    [resolution > min_res]; the last level has resolution [<= min_res].
    [build_mips] itself returns with a list of that many levels in
    [self.specular] unless the chain has exactly two levels, that is unless
    [B = 2m]: there it raises [ZeroDivisionError] (the list, unfiltered, is
    left in [self.specular]). *)
Theorem build_mips_chain_levels `{Collaborators} (w : World) (a b : nat) (cutoff : Q) :
  mip_halves ->
  face_res (pdata (base (self w))) = Some (2 ^ Z.of_nat a) ->
  min_res (self w) = 2 ^ Z.of_nat b ->
  (b < a)%nat ->
  let B := 2 ^ Z.of_nat a in
  let m := 2 ^ Z.of_nat b in
  let levels := Z.to_nat (Z.log2 (B / m) + 1) in
  forall fuel, (levels <= fuel)%nat ->
  exists chain,
    build_chain fuel w = (Ok tt, upd (with_specular chain) w) /\
    length chain = levels /\
    (forall i, (i < levels)%nat ->
       (fun r => face_res (deref (self w) r)) <$> chain !! i = Some (Some (B / 2 ^ Z.of_nat i))) /\
    (forall i, (S i < levels)%nat ->
       m < B / 2 ^ Z.of_nat i /\
       B / 2 ^ Z.of_nat (S i) = B / 2 ^ Z.of_nat i / 2 /\
       B / 2 ^ Z.of_nat (S i) < B / 2 ^ Z.of_nat i) /\
    B / 2 ^ Z.of_nat (levels - 1) <= m /\
    length <$> specular (self (snd (build_mips fuel cutoff w))) = Some levels /\
    (2 <= levels)%nat /\
    (levels = 2%nat <-> B = 2 * m) /\
    fst (build_mips fuel cutoff w) =
      (if decide (levels = 2%nat) then Raise ZeroDivisionError else Ok tt) /\
    (levels = 2%nat -> specular (self (snd (build_mips fuel cutoff w))) = Some chain).
Proof.
  intros Hhalf HB Hm Hab B m levels fuel Hfuel.
  set (k := (a - b)%nat).
  assert (Hlev : levels = S k).
  { unfold levels, B, m. rewrite pow2_div_pow2 by lia.
    rewrite Z.log2_pow2 by lia. unfold k. lia. }
  assert (HBm : B = 2 ^ Z.of_nat k * m).
  { unfold B, m, k. rewrite <- Z.pow_add_r by lia. f_equal. lia. }
  set (baset := pdata (base (self w))).
  set (chain := BaseParam :: map Detached (mips_of k baset)).
  assert (Hchain : build_chain fuel w = (Ok tt, upd (with_specular chain) w)).
  { unfold build_chain, specular_init.
    erewrite bind_Ok by reflexivity.
    rewrite (mip_loop_halving Hhalf k fuel _ [] BaseParam).
    - reflexivity.
    - reflexivity.
    - simpl. fold baset. rewrite Hm. fold m. rewrite <- HBm. exact HB.
    - simpl. rewrite Hm. apply Z.pow_pos_nonneg; lia.
    - lia. }
  assert (Hlen : length chain = levels).
  { unfold chain. simpl. rewrite length_map, length_mips_of. lia. }
  exists chain. split; [exact Hchain|].
  split; [exact Hlen|].
  split; [|split; [|split; [|split; [|split; [|split; [|split]]]]]].
  - intros i Hi.
    assert (Hres := mips_of_res Hhalf k baset B i HB ltac:(lia)).
    unfold chain. destruct i as [|i]; simpl in *.
    + exact Hres.
    + rewrite list_lookup_fmap. destruct (mips_of k baset !! i); simpl in *; exact Hres.
  - intros i Hi. unfold B, m.
    rewrite !pow2_div_pow2 by lia.
    replace (a - i)%nat with (S (a - S i)) by lia.
    rewrite (Nat2Z.inj_succ (a - S i)), Z.pow_succ_r by lia.
    assert (0 < 2 ^ Z.of_nat (a - S i)) by (apply Z.pow_pos_nonneg; lia).
    split; [|split].
    + rewrite <- Z.pow_succ_r, <- Nat2Z.inj_succ by lia. apply pow2_lt. lia.
    + rewrite Z.mul_comm, Z.div_mul by lia. reflexivity.
    + lia.
  - unfold B, m. rewrite pow2_div_pow2 by lia.
    replace (a - (levels - 1))%nat with b by lia. lia.
  - unfold build_mips. rewrite (bind_Ok _ _ _ _ _ Hchain).
    apply filter_chain_keeps_length. simpl.
    unfold chain. simpl. rewrite length_map, length_mips_of. f_equal. lia.
  - unfold k in Hlev. lia.
  - assert (Hmpos : 0 < m) by (apply Z.pow_pos_nonneg; lia).
    rewrite Hlev, HBm. split.
    + intros Hk. assert (k = 1%nat) as -> by lia. reflexivity.
    + intros Hk. destruct k as [|[|k']]; [lia|reflexivity|exfalso].
      rewrite !Nat2Z.inj_succ, !Z.pow_succ_r in Hk by lia.
      assert (0 < 2 ^ Z.of_nat k') by (apply Z.pow_pos_nonneg; lia). nia.
  - set (w1 := upd (with_specular chain) w).
    assert (Hs : specular (self w1) = Some chain) by reflexivity.
    destruct (last chain) as [top|] eqn:Hl.
    2:{ apply last_None in Hl. discriminate. }
    unfold build_mips. rewrite (bind_Ok _ _ _ _ _ Hchain). fold w1.
    destruct (decide (levels = 2%nat)) as [H2|H2].
    + rewrite (filter_chain_two_levels cutoff w1 chain top Hs Hl) by congruence. reflexivity.
    + rewrite (filter_chain_eval cutoff w1 chain top Hs Hl) by congruence. reflexivity.
  - intros H2. set (w1 := upd (with_specular chain) w).
    assert (Hs : specular (self w1) = Some chain) by reflexivity.
    destruct (last chain) as [top|] eqn:Hl.
    2:{ apply last_None in Hl. discriminate. }
    unfold build_mips. rewrite (bind_Ok _ _ _ _ _ Hchain). fold w1.
    rewrite (filter_chain_two_levels cutoff w1 chain top Hs Hl) by congruence. reflexivity.
Qed.

(** C4 (as amended).  Let the loop of [build_mips] have built [chain], of
    [levels] entries.
    - With [levels >= 3] the divisor [levels - 2] is not zero and
      [build_mips] returns: level [idx] is replaced by
      [specular_cubemap(level, roughness, cutoff)] with
      [roughness = idx / (levels - 2) * (max_roughness - min_roughness)
      + min_roughness] for every level but the last, and [roughness = 1.0]
      for the last; [self.diffuse] is the diffuse filter of the unfiltered
      last level.
    - With [levels = 2] the division raises [ZeroDivisionError] and the
      list is left unfiltered.
    - With [levels = 1] nothing is raised: the [for] loop runs no
      iteration and the single level is filtered with roughness [1.0]. *)
Theorem build_mips_level_roughness `{Collaborators} (fuel : nat) (cutoff : Q)
    (w w1 : World) (chain : list TexRef) :
  build_chain fuel w = (Ok tt, w1) ->
  specular (self w1) = Some chain ->
  let levels := length chain in
  let e := self w1 in
  ((3 <= levels)%nat ->
     Z.of_nat levels - 2 <> 0 /\
     exists final top,
       last chain = Some top /\
       build_mips fuel cutoff w =
         (Ok tt, upd (with_specular final)
                   (upd (with_diffuse (diffuse_cubemap (deref e top))) w1)) /\
       length final = levels /\
       forall idx r, chain !! idx = Some r ->
         final !! idx =
           Some (Detached (specular_cubemap (deref e r)
                             (if decide (idx = levels - 1)%nat then 1%Q
                              else interpolated e levels idx) cutoff))) /\
  (levels = 2%nat ->
     exists w2, build_mips fuel cutoff w = (Raise ZeroDivisionError, w2) /\
                specular (self w2) = Some chain) /\
  (levels = 1%nat ->
     exists top, chain = [top] /\
       build_mips fuel cutoff w =
         (Ok tt, upd (with_specular [Detached (specular_cubemap (deref e top) 1 cutoff)])
                   (upd (with_diffuse (diffuse_cubemap (deref e top))) w1))).
Proof.
  intros Hchain Hs levels e. unfold build_mips. rewrite (bind_Ok _ _ _ _ _ Hchain).
  split; [|split].
  - intros HL. split; [lia|].
    destruct (last chain) as [top|] eqn:Hl.
    2:{ apply last_None in Hl. subst chain. simpl in *. lia. }
    exists (filtered e cutoff chain top), top.
    split; [reflexivity|]. split; [|split].
    + apply filter_chain_eval; auto. unfold levels in HL. lia.
    + unfold filtered. rewrite length_insert. apply length_filtered_upto.
    + intros idx r Hr. apply filtered_lookup; assumption.
  - intros HL. destruct (last chain) as [top|] eqn:Hl.
    2:{ apply last_None in Hl. subst chain. discriminate. }
    eexists. split; [apply (filter_chain_two_levels _ _ _ _ Hs Hl HL)|exact Hs].
  - intros HL. destruct chain as [|top [|? ?]]; try discriminate.
    exists top. split; [reflexivity|].
    rewrite (filter_chain_eval cutoff w1 [top] top Hs eq_refl) by (simpl; lia).
    reflexivity.
Qed.

(** ** Roughness to mip level *)


(** ** What [build_mips] and the samplers depend on *)

Lemma same_chain_footprint : chain_footprint same_chain.
Proof.
  split; unfold same_chain, same_inputs; simpl; intros; intuition congruence.
Qed.

Lemma same_derived_footprint : chain_footprint same_derived.
Proof.
  split; unfold same_derived, same_chain, same_inputs; simpl; intros; intuition congruence.
Qed.

Lemma deref_same_base e e' r : base e = base e' -> deref e r = deref e' r.
Proof. intros Hb. destruct r; simpl; congruence. Qed.

Section ChainDetermined.
Context `{Collaborators}.
Variable R : World -> World -> Prop.
Hypothesis HR : chain_footprint R.

Lemma determined_specular_getitem_last : determined R R specular_getitem_last.
Proof.
  intros w w' Hw. unfold specular_getitem_last, bind, getattr, attr.
  rewrite <- (cf_specular R HR w w' Hw).
  destruct (specular (self w)) as [l|]; [|simpl; auto].
  destruct (last l) as [r|]; simpl; [|split; [reflexivity|intros; discriminate]].
  rewrite (deref_same_base _ _ r (cf_base R HR w w' Hw)). auto.
Qed.

Lemma determined_specular_getitem i : determined R R (specular_getitem i).
Proof.
  intros w w' Hw. unfold specular_getitem, bind, getattr, attr.
  rewrite <- (cf_specular R HR w w' Hw).
  destruct (specular (self w)) as [l|]; [|simpl; auto].
  destruct (l !! i) as [r|]; simpl; [|split; [reflexivity|intros; discriminate]].
  rewrite (deref_same_base _ _ r (cf_base R HR w w' Hw)). auto.
Qed.

Lemma determined_specular_len : determined R R specular_len.
Proof.
  intros w w' Hw. unfold specular_len, bind, getattr.
  rewrite <- (cf_specular R HR w w' Hw).
  destruct (specular (self w)) as [l|]; simpl; auto.
Qed.

Lemma determined_specular_append t : determined R R (specular_append t).
Proof.
  intros w w' Hw. unfold specular_append, bind, getattr.
  rewrite <- (cf_specular R HR w w' Hw).
  destruct (specular (self w)) as [l|]; simpl; auto.
  split; [reflexivity|]. intros _. apply (cf_set R HR), Hw.
Qed.

Lemma determined_specular_setitem i t : determined R R (specular_setitem i t).
Proof.
  intros w w' Hw. unfold specular_setitem, bind, getattr.
  rewrite <- (cf_specular R HR w w' Hw).
  destruct (specular (self w)) as [l|]; simpl; auto.
  destruct (decide (i < length l)%nat); simpl; auto.
  split; [reflexivity|]. intros _. apply (cf_set R HR), Hw.
Qed.

Lemma determined_specular_setitem_last t : determined R R (specular_setitem_last t).
Proof.
  intros w w' Hw. unfold specular_setitem_last, bind, getattr.
  rewrite <- (cf_specular R HR w w' Hw).
  destruct (specular (self w)) as [[|r l]|]; simpl; auto.
  split; [reflexivity|]. intros _. apply (cf_set R HR), Hw.
Qed.

Lemma determined_py_truediv a b : determined R R (py_truediv a b).
Proof. unfold py_truediv. destruct (b =? 0); [apply determined_raise|apply determined_ret]. Qed.

Lemma determined_mip_loop fuel : determined R R (mip_loop fuel).
Proof.
  induction fuel as [|fuel IH]; simpl.
  - apply determined_lift.
  - eapply determined_bind; [apply determined_specular_getitem_last|intros top].
    eapply determined_bind; [apply determined_lift|intros r].
    eapply determined_bind; [apply determined_attr, (cf_min_res R HR)|intros m].
    apply determined_if; [|apply determined_ret].
    eapply determined_bind; [apply determined_specular_getitem_last|intros top'].
    eapply determined_bind; [apply determined_specular_append|intros _].
    exact IH.
Qed.

Lemma determined_filter_level cutoff idx : determined R R (filter_level cutoff idx).
Proof.
  unfold filter_level, level_roughness.
  eapply determined_bind.
  - eapply determined_bind; [apply determined_specular_len|intros n].
    eapply determined_bind; [apply determined_py_truediv|intros q].
    eapply determined_bind; [apply determined_attr, (cf_max_roughness R HR)|intros maxr].
    eapply determined_bind; [apply determined_attr, (cf_min_roughness R HR)|intros minr].
    apply determined_ret.
  - intros roughness.
    eapply determined_bind; [apply determined_specular_getitem|intros lvl].
    apply determined_specular_setitem.
Qed.

End ChainDetermined.

Section BuildDetermined.
Context `{Collaborators}.

Lemma determined_filter_chain cutoff : determined same_chain same_derived (filter_chain cutoff).
Proof.
  unfold filter_chain.
  eapply determined_bind;
    [apply (determined_specular_getitem_last _ same_chain_footprint)|intros top].
  eapply determined_bind.
  { apply (determined_modify same_chain same_derived).
    intros w w' Hw. split; [exact Hw|reflexivity]. }
  intros _.
  eapply determined_bind;
    [apply (determined_specular_len _ same_derived_footprint)|intros n].
  eapply determined_bind.
  { apply determined_for_range. intros i.
    apply (determined_filter_level _ same_derived_footprint). }
  intros _.
  eapply determined_bind;
    [apply (determined_specular_getitem_last _ same_derived_footprint)|intros top'].
  apply (determined_specular_setitem_last _ same_derived_footprint).
Qed.

Lemma determined_build_chain fuel : determined same_inputs same_chain (build_chain fuel).
Proof.
  unfold build_chain, specular_init.
  eapply determined_bind.
  { apply (determined_modify same_inputs same_chain).
    intros w w' Hw. split; [exact Hw|reflexivity]. }
  intros _. apply (determined_mip_loop _ same_chain_footprint).
Qed.

(** The outcome of [build_mips], and the chain and diffuse map it leaves,
    are functions of the base Parameter and of the configuration alone. *)
Lemma determined_build_mips fuel cutoff :
  determined same_inputs same_derived (build_mips fuel cutoff).
Proof.
  unfold build_mips.
  eapply determined_bind; [apply determined_build_chain|intros _].
  apply determined_filter_chain.
Qed.

End BuildDetermined.

Lemma same_derived_sampling : sampling_footprint same_derived.
Proof.
  split; unfold same_derived, same_chain, same_inputs; simpl; intros;
    try (intuition congruence).
  apply deref_same_base. intuition.
Qed.

Lemma same_query_sampling : sampling_footprint same_query.
Proof.
  split; unfold same_query; simpl; intros; try (intuition congruence).
  destruct H as (Hs & Hd & _). unfold detached_chain in Hd. rewrite H0 in Hd.
  rewrite forallb_forall in Hd. apply list_elem_of_In in H1.
  specialize (Hd r H1). destruct r; [discriminate|reflexivity].
Qed.

Section SamplingDetermined.
Context `{Collaborators}.
Variable R : World -> World -> Prop.
Hypothesis HR : sampling_footprint R.

Lemma determined_texture tex uv mips bias mode :
  determined R R (texture tex uv mips bias mode).
Proof.
  intros w w' Hw. split; [reflexivity|]. intros _. apply (sf_lookups R HR), Hw.
Qed.

Lemma determined_to_grid l : determined R R (to_grid l).
Proof.
  unfold to_grid. eapply determined_bind; [apply determined_lift|intros d].
  apply determined_lift.
Qed.

Lemma determined_sampled_getitem i : determined R R (specular_getitem i).
Proof.
  intros w w' Hw. unfold specular_getitem, bind, getattr, attr.
  rewrite <- (sf_specular R HR w w' Hw).
  destruct (specular (self w)) as [l|] eqn:Hs; [|simpl; auto].
  destruct (l !! i) as [r|] eqn:Hi; simpl; [|split; [reflexivity|intros; discriminate]].
  rewrite (sf_deref R HR w w' l r Hw Hs) by (eapply list_elem_of_lookup_2; eauto). auto.
Qed.

Lemma determined_sampled_tail : determined R R specular_tail.
Proof.
  intros w w' Hw. unfold specular_tail, bind, getattr, attr.
  rewrite <- (sf_specular R HR w w' Hw).
  destruct (specular (self w)) as [l|] eqn:Hs; [|simpl; auto].
  simpl. split; [|auto]. f_equal.
  apply map_ext_in. intros r Hr. apply (sf_deref R HR w w' l r Hw Hs).
  apply (subseteq_drop 1 l). apply list_elem_of_In. exact Hr.
Qed.

Lemma determined_sampled_len : determined R R specular_len.
Proof.
  intros w w' Hw. unfold specular_len, bind, getattr.
  rewrite <- (sf_specular R HR w w' Hw).
  destruct (specular (self w)) as [l|]; simpl; auto.
Qed.

Lemma determined_get_mip roughness : determined R R (get_mip roughness).
Proof.
  unfold get_mip. destruct roughness as [r|]; [|apply determined_raise].
  eapply determined_bind; [apply determined_attr, (sf_max_roughness R HR)|intros maxr].
  eapply determined_bind; [apply determined_attr, (sf_min_roughness R HR)|intros minr].
  eapply determined_bind; [apply determined_sampled_len|intros n].
  apply determined_ret.
Qed.

Lemma determined_forward_diffuse l : determined R R (_forward_diffuse l).
Proof.
  unfold _forward_diffuse.
  eapply determined_bind.
  { destruct (decide _); [apply determined_ret|apply determined_to_grid]. }
  intros l'.
  eapply determined_bind; [apply determined_getattr, (sf_diffuse R HR)|intros d].
  eapply determined_bind; [apply determined_texture|intros light].
  apply determined_lift.
Qed.

Lemma determined_forward_specular l roughness : determined R R (_forward_specular l roughness).
Proof.
  unfold _forward_specular.
  eapply determined_bind.
  { destruct (decide _); [apply determined_ret|].
    eapply determined_bind; [apply determined_to_grid|intros l'].
    eapply determined_bind; [|intros r'; apply determined_ret].
    destruct roughness as [r|]; [|apply determined_ret].
    eapply determined_bind; [apply determined_lift|intros r'; apply determined_ret]. }
  intros [l' roughness'].
  eapply determined_bind; [apply determined_get_mip|intros miplevel].
  eapply determined_bind; [apply determined_sampled_getitem|intros s0].
  eapply determined_bind; [apply determined_sampled_tail|intros mips].
  eapply determined_bind; [apply determined_lift|intros bias].
  eapply determined_bind; [apply determined_texture|intros light].
  apply determined_lift.
Qed.

End SamplingDetermined.

(** ** The lighting query *)

Section Query.
Context `{Collaborators}.

Lemma call_trainable fuel n l r w :
  trainable (self w) = true ->
  __call__ fuel n l r w = (build_mips fuel default_cutoff ;; sample_both n l r) w.
Proof. intros Ht. unfold __call__, bind at 1, attr. rewrite Ht. reflexivity. Qed.

Lemma call_fixed fuel n l r w :
  trainable (self w) = false -> __call__ fuel n l r w = sample_both n l r w.
Proof. intros Ht. unfold __call__, bind at 1, attr. rewrite Ht. reflexivity. Qed.

Lemma determined_sample_both R n l r :
  sampling_footprint R -> determined R R (sample_both n l r).
Proof.
  intros HR. unfold sample_both.
  eapply determined_bind; [apply determined_forward_diffuse, HR|intros d].
  eapply determined_bind; [apply determined_forward_specular, HR|intros s].
  apply determined_ret.
Qed.

Lemma invariant_texture (P : World -> Prop) tex uv mips bias mode :
  (forall w lk, P w -> P {| self := self w; lookups := lk |}) ->
  invariant P (texture tex uv mips bias mode).
Proof. intros HP w Hw. apply HP, Hw. Qed.

Lemma reads_get_mip roughness : reads (get_mip roughness).
Proof.
  unfold get_mip. destruct roughness as [r|]; [|intros w; reflexivity].
  apply reads_bind; [intros w; reflexivity|intros maxr].
  apply reads_bind; [intros w; reflexivity|intros minr].
  apply reads_bind; [apply reads_specular_len|intros n]. intros w; reflexivity.
Qed.

(** The samplers write no attribute. *)
Lemma invariant_sample_both (P : World -> Prop) n l r :
  (forall w lk, P w -> P {| self := self w; lookups := lk |}) ->
  invariant P (sample_both n l r).
Proof.
  intros HP. unfold sample_both, _forward_diffuse, _forward_specular, to_grid.
  apply invariant_bind.
  { apply invariant_bind.
    { destruct (decide _); [apply invariant_ret|].
      apply invariant_bind; [apply invariant_lift|intros; apply invariant_lift]. }
    intros l'. apply invariant_bind; [apply invariant_getattr|intros d].
    apply invariant_bind; [apply invariant_texture, HP|intros; apply invariant_lift]. }
  intros d. apply invariant_bind; [|intros; apply invariant_ret].
  apply invariant_bind.
  { destruct (decide _); [apply invariant_ret|].
    apply invariant_bind; [|intros l'].
    { apply invariant_bind; [apply invariant_lift|intros; apply invariant_lift]. }
    apply invariant_bind; [|intros; apply invariant_ret].
    destruct r as [r|]; [|apply invariant_ret].
    apply invariant_bind; [apply invariant_lift|intros; apply invariant_ret]. }
  intros [l' r'].
  apply invariant_bind; [apply invariant_reads, reads_get_mip|intros miplevel].
  apply invariant_bind; [apply invariant_reads, reads_specular_getitem|intros s0].
  apply invariant_bind; [apply invariant_reads, reads_specular_tail|intros mips].
  apply invariant_bind; [apply invariant_lift|intros bias].
  apply invariant_bind; [apply invariant_texture, HP|intros; apply invariant_lift].
Qed.

Lemma sample_both_keeps_self n l r w : self (snd (sample_both n l r w)) = self w.
Proof.
  apply (invariant_sample_both (fun w' => self w' = self w)); [|reflexivity].
  intros w' lk Hw'. exact Hw'.
Qed.

(** [build_mips] writes [self.specular] and [self.diffuse] and nothing
    else. *)
Lemma invariant_build_mips (P : World -> Prop) fuel cutoff :
  (forall w t, P w -> P (upd (with_diffuse t) w)) ->
  (forall w l, P w -> P (upd (with_specular l) w)) ->
  invariant P (build_mips fuel cutoff).
Proof.
  intros Hd Hs. unfold build_mips, build_chain, specular_init.
  apply invariant_bind.
  - apply invariant_bind; [apply invariant_modify; auto|intros _].
    induction fuel as [|fuel IH]; simpl; [apply invariant_lift|].
    apply invariant_bind; [apply invariant_reads, reads_specular_getitem_last|intros top].
    apply invariant_bind; [apply invariant_lift|intros r].
    apply invariant_bind; [apply invariant_attr|intros m].
    apply invariant_if; [|apply invariant_ret].
    apply invariant_bind; [apply invariant_reads, reads_specular_getitem_last|intros top'].
    apply invariant_bind; [|intros _; exact IH].
    apply invariant_specular_append. auto.
  - intros _. apply invariant_filter_chain; auto.
Qed.

Lemma build_mips_same_inputs fuel cutoff w : same_inputs w (snd (build_mips fuel cutoff w)).
Proof.
  apply (invariant_build_mips (fun w' => same_inputs w w')).
  - intros w' t Hw'. exact Hw'.
  - intros w' l Hw'. exact Hw'.
  - repeat split.
Qed.

Lemma build_mips_keeps_trainable fuel cutoff w :
  trainable (self (snd (build_mips fuel cutoff w))) = trainable (self w).
Proof.
  apply (invariant_build_mips (fun w' => trainable (self w') = trainable (self w))); auto.
Qed.

End Query.

(** ** [load], [update_light] and the constructor, step by step *)

Section Loading.
Context `{Collaborators}.

Lemma load_eval path w :
  load path w =
    match imread path with
    | Ok image =>
        let img := scaled_image image (scale (self w)) in
        let w1 := upd (with_base_image img) w in
        match latlong_to_cubemap img [max_res (self w); max_res (self w)] (device (self w)) with
        | Ok cubemap => (Ok tt, upd (with_base_data cubemap) w1)
        | Raise e => (Raise e, w1)
        | OutOfFuel => (OutOfFuel, w1)
        end
    | Raise e => (Raise e, w)
    | OutOfFuel => (OutOfFuel, w)
    end.
Proof.
  unfold load, bind, lift, attr, modify, scaled_image.
  destruct (imread path) as [image|e|]; reflexivity.
Qed.

Lemma update_light_eval delta w :
  update_light delta w =
    match base_image (self w) with
    | None => (Raise AttributeError, w)
    | Some cached =>
        match torch_roll1 cached delta with
        | Ok img =>
            let w1 := upd (with_base_image img) w in
            match latlong_to_cubemap img [max_res (self w); max_res (self w)] (device (self w)) with
            | Ok cubemap => (Ok tt, upd (with_base_data cubemap) w1)
            | Raise e => (Raise e, w1)
            | OutOfFuel => (OutOfFuel, w1)
            end
        | Raise e => (Raise e, w)
        | OutOfFuel => (OutOfFuel, w)
        end
    end.
Proof.
  unfold update_light, bind, lift, attr, modify, getattr.
  destruct (base_image (self w)) as [cached|]; [|reflexivity].
  destruct (torch_roll1 cached delta) as [img|e|]; reflexivity.
Qed.

Lemma build_mips_derived_fresh fuel w w' :
  build_mips fuel default_cutoff w = (Ok tt, w') -> derived_fresh fuel (self w').
Proof.
  intros Hb. set (we := {| self := self w'; lookups := [] |}).
  assert (Hin : same_inputs w we).
  { pose proof (build_mips_same_inputs fuel default_cutoff w) as Hi.
    rewrite Hb in Hi. exact Hi. }
  destruct (determined_build_mips fuel default_cutoff w we Hin) as [Ho Hr].
  rewrite Hb in Ho, Hr. simpl in Ho, Hr. specialize (Hr eq_refl).
  destruct (build_mips fuel default_cutoff we) as [o2 w2] eqn:E2. simpl in Ho, Hr. subst o2.
  exists w2. fold we. rewrite E2. split; [reflexivity|].
  destruct Hr as [[_ Hs] Hd]. split; congruence.
Qed.

Lemma init_inv fuel path dev sc minres maxres minr maxr tr color e :
  __init__ fuel path dev sc minres maxres minr maxr tr color = Ok e ->
  exists v w1,
    match color with
    | Some c => create_trainable_env_fix maxres c (default "cuda"%string dev)
    | None => create_trainable_env_rnd maxres rnd_default_scale rnd_default_bias
                (default "cuda"%string dev)
    end = Ok v /\
    match path with Some p => load p | None => ret tt end
      {| self := {| device := default "cuda"%string dev; scale := sc; min_res := minres;
                    max_res := maxres; min_roughness := minr; max_roughness := maxr;
                    trainable := tr; base := {| pid := base_pid; pdata := v; requires_grad := tr |};
                    base_image := None; specular := None; diffuse := None |};
         lookups := [] |} = (Ok tt, w1) /\
    exists w2, build_mips fuel default_cutoff w1 = (Ok tt, w2) /\ e = self w2.
Proof.
  unfold __init__. intros Hi.
  destruct (match color with Some c => _ | None => _ end) as [v| |]; try discriminate.
  exists v. unfold bind in Hi.
  destruct (match path with Some p => load p | None => ret tt end _) as [[[]| |] w1];
    try discriminate.
  exists w1. split; [reflexivity|]. split; [reflexivity|].
  destruct (build_mips fuel default_cutoff w1) as [[[]| |] w2]; try discriminate.
  exists w2. split; [reflexivity|]. congruence.
Qed.

End Loading.

Section Detached.
Context `{Collaborators}.

Lemma length_filtered e cutoff chain top : length (filtered e cutoff chain top) = length chain.
Proof. unfold filtered. rewrite length_insert. apply length_filtered_upto. Qed.

Lemma filtered_all_detached e cutoff chain top :
  last chain = Some top -> forallb is_detached (filtered e cutoff chain top) = true.
Proof.
  intros Hl. apply forallb_forall. intros x Hx.
  apply list_elem_of_In, list_elem_of_lookup_1 in Hx. destruct Hx as [idx Hidx].
  assert (Hlt := lookup_lt_Some _ _ _ Hidx). rewrite length_filtered in Hlt.
  destruct (lookup_lt_is_Some_2 chain idx Hlt) as [r Hr].
  rewrite (filtered_lookup e cutoff chain top idx r Hl Hr) in Hidx.
  injection Hidx as <-. reflexivity.
Qed.

(** When [build_mips] returns, every entry of [self.specular] is a tensor
    of its own: none is the base Parameter. *)
Lemma build_mips_detached fuel cutoff w w' :
  build_mips fuel cutoff w = (Ok tt, w') -> detached_chain (self w') = true.
Proof.
  unfold build_mips. unfold bind at 1.
  destruct (build_chain fuel w) as [[[]|e|] w1] eqn:E; try discriminate.
  intros Hf.
  destruct (specular (self w1)) as [chain|] eqn:Hs.
  2:{ unfold filter_chain, specular_getitem_last, bind, getattr in Hf.
      rewrite Hs in Hf. discriminate. }
  destruct (last chain) as [top|] eqn:Hl.
  2:{ unfold filter_chain, specular_getitem_last, bind, getattr in Hf.
      rewrite Hs, Hl in Hf. discriminate. }
  destruct (decide (length chain = 2%nat)) as [H2|H2].
  { rewrite (filter_chain_two_levels _ _ _ _ Hs Hl H2) in Hf. discriminate. }
  rewrite (filter_chain_eval _ _ _ _ Hs Hl H2) in Hf.
  injection Hf as <-. unfold detached_chain. simpl.
  apply filtered_all_detached, Hl.
Qed.

(** The [while] loop only appends downsamplings of the level it started
    from. *)
Lemma mip_loop_Ok (fuel : nat) :
  forall w pre top w',
    specular (self w) = Some (pre ++ [top]) ->
    mip_loop fuel w = (Ok tt, w') ->
    exists k,
      w' = upd (with_specular (pre ++ top :: map Detached (mips_of k (deref (self w) top)))) w.
Proof.
  induction fuel as [|fuel IH]; intros w pre top w' Hs; [discriminate|].
  simpl mip_loop.
  rewrite (bind_Ok _ _ _ _ _ (specular_getitem_last_eval _ _ _ Hs)).
  unfold bind at 1. unfold lift.
  destruct (shape_at (deref (self w) top) 1) as [r| |]; try discriminate.
  unfold bind at 1. unfold attr at 1.
  destruct (r >? min_res (self w)).
  - rewrite (bind_Ok _ _ _ _ _ (specular_getitem_last_eval _ _ _ Hs)).
    rewrite (bind_Ok _ _ _ _ _ (specular_append_eval _ _ _ Hs)).
    intros Hrec.
    apply (IH _ (pre ++ [top]) (Detached (cubemap_mip (deref (self w) top)))) in Hrec;
      [|reflexivity].
    destruct Hrec as [k ->].
    exists (S k). simpl. rewrite <- app_assoc. reflexivity.
  - intros [= <-]. exists 0%nat. simpl. rewrite (upd_with_specular_same _ _ Hs). reflexivity.
Qed.

(** What a returned [build_mips] leaves is a function of the base and the
    configuration: [rebuilt], for some number [k <> 1] of downsamplings. *)
Lemma build_mips_Ok_rebuilt fuel cutoff w w' :
  build_mips fuel cutoff w = (Ok tt, w') -> exists k, k <> 1%nat /\ w' = rebuilt cutoff k w.
Proof.
  unfold build_mips. unfold bind at 1.
  destruct (build_chain fuel w) as [[[]|e|] w1] eqn:E; try discriminate.
  unfold build_chain, specular_init in E.
  erewrite bind_Ok in E by reflexivity.
  apply (mip_loop_Ok fuel _ [] BaseParam) in E; [|reflexivity].
  destruct E as [k ->].
  simpl app. intros Hf. exists k.
  set (chain := BaseParam :: map Detached (mips_of k (pdata (base (self w))))) in *.
  set (w1 := upd (with_specular chain) (upd (with_specular [BaseParam]) w)) in *.
  assert (Hw1 : w1 = upd (with_specular chain) w) by reflexivity.
  assert (Hs : specular (self w1) = Some chain) by reflexivity.
  assert (Hlen : length chain = S k).
  { unfold chain. simpl. rewrite length_map, length_mips_of. reflexivity. }
  destruct (last chain) as [top|] eqn:Hl.
  2:{ apply last_None in Hl. discriminate. }
  destruct (decide (k = 1%nat)) as [->|Hk].
  { rewrite (filter_chain_two_levels _ _ _ _ Hs Hl Hlen) in Hf. discriminate. }
  split; [exact Hk|].
  rewrite (filter_chain_eval _ _ _ _ Hs Hl) in Hf by lia.
  injection Hf as <-. unfold rebuilt. fold chain. rewrite Hl, <- Hw1. reflexivity.
Qed.

(** The diffuse map and the first level of a rebuilt object, in terms of
    its base data. *)
Lemma rebuilt_diffuse cutoff k w :
  diffuse (self (rebuilt cutoff k w)) =
    Some (diffuse_cubemap (default (pdata (base (self w)))
                             (last (mips_of k (pdata (base (self w))))))).
Proof.
  unfold rebuilt. simpl diffuse. f_equal. f_equal.
  generalize (mips_of k (pdata (base (self w)))). intros ms.
  rewrite last_cons.
  change (map Detached ms) with (Detached <$> ms). rewrite fmap_last.
  destruct (last ms); reflexivity.
Qed.

Lemma rebuilt_level0 cutoff k w :
  exists chain,
    specular (self (rebuilt cutoff k w)) = Some chain /\
    chain !! 0%nat =
      Some (Detached (specular_cubemap (pdata (base (self w)))
                        (if decide (k = 0%nat) then 1%Q
                         else interpolated (self w) (S k) 0) cutoff)) /\
    forallb is_detached chain = true.
Proof.
  unfold rebuilt.
  set (chain := BaseParam :: map Detached (mips_of k (pdata (base (self w))))).
  assert (Hlen : length chain = S k).
  { unfold chain. simpl. rewrite length_map, length_mips_of. reflexivity. }
  destruct (last chain) as [top|] eqn:Hl.
  2:{ apply last_None in Hl. discriminate. }
  eexists. split; [reflexivity|]. simpl default. split.
  - rewrite (filtered_lookup _ cutoff chain top 0 BaseParam Hl eq_refl).
    rewrite Hlen. simpl deref.
    destruct (decide (0 = S k - 1)%nat), (decide (k = 0%nat)); try lia; reflexivity.
  - apply filtered_all_detached, Hl.
Qed.

(** A [build_mips] that did not return leaves the base Parameter itself as
    level 0 of [self.specular]. *)
Lemma build_mips_failed_alias fuel cutoff w w' o :
  build_mips fuel cutoff w = (o, w') -> is_ok o = false ->
  exists rest, specular (self w') = Some (BaseParam :: rest).
Proof.
  unfold build_mips. unfold bind at 1.
  destruct (build_chain fuel w) as [o1 w1] eqn:E.
  assert (Hhead : exists rest, specular (self w1) = Some (BaseParam :: rest)).
  { assert (Hinv : invariant (fun w0 => exists rest, specular (self w0) = Some (BaseParam :: rest))
                     (mip_loop fuel)).
    { clear. induction fuel as [|fuel IH]; simpl; [apply invariant_lift|].
      apply invariant_bind; [apply invariant_reads, reads_specular_getitem_last|intros top].
      apply invariant_bind; [apply invariant_lift|intros r].
      apply invariant_bind; [apply invariant_attr|intros m].
      apply invariant_if; [|apply invariant_ret].
      apply invariant_bind; [apply invariant_reads, reads_specular_getitem_last|intros top'].
      apply invariant_bind; [|intros _; exact IH].
      apply invariant_specular_append. intros w0 l0 [rest Hrest] Hl0.
      rewrite Hl0 in Hrest. injection Hrest as ->. eexists. reflexivity. }
    unfold build_chain, specular_init in E. erewrite bind_Ok in E by reflexivity.
    pose proof (Hinv {| self := with_specular [BaseParam] (self w); lookups := lookups w |}
                  (ex_intro _ [] eq_refl)) as Hw.
    rewrite E in Hw. exact Hw. }
  destruct o1 as [[]|e|]; [|intros [= <- <-] _; exact Hhead..].
  destruct Hhead as [rest Hs]. intros Hf Ho.
  destruct (last (BaseParam :: rest)) as [top|] eqn:Hl.
  2:{ apply last_None in Hl. discriminate. }
  destruct (decide (length (BaseParam :: rest) = 2%nat)) as [H2|H2].
  - rewrite (filter_chain_two_levels _ _ _ _ Hs Hl H2) in Hf.
    injection Hf as <- <-. exists rest. exact Hs.
  - rewrite (filter_chain_eval _ _ _ _ Hs Hl H2) in Hf.
    injection Hf as <- <-. discriminate.
Qed.

(** A constructed object has a detached chain, and it keeps it as long as
    [build_mips] is not called again. *)
Lemma detached_after_calls fuel0 path dev sc minres maxres minr maxr tr color e fuel ops :
  __init__ fuel0 path dev sc minres maxres minr maxr tr color = Ok e ->
  forallb (fun op => negb (is_build op)) ops = true ->
  detached_chain (self (run_ops fuel ops {| self := e; lookups := [] |})) = true.
Proof.
  intros Hi Hops.
  destruct (init_inv _ _ _ _ _ _ _ _ _ _ _ Hi) as (v & w1 & _ & _ & w2 & Hb & ->).
  apply build_mips_detached in Hb.
  assert (Hgen : forall w, detached_chain (self w) = true ->
                           detached_chain (self (run_ops fuel ops w)) = true).
  { clear Hb. induction ops as [|op rest IH]; intros w Hw; simpl; [exact Hw|].
    simpl in Hops. apply andb_prop in Hops. destruct Hops as [Hop Hrest].
    apply (IH Hrest). destruct op; simpl; try discriminate.
    - rewrite load_eval. destruct (imread path0); simpl; auto.
      destruct (latlong_to_cubemap _ _ _); simpl; auto.
    - unfold gen_base_image, bind, attr, lift, modify.
      destruct (cubemap_to_latlong _ _); simpl; auto.
    - rewrite update_light_eval. destruct (base_image (self w)); simpl; auto.
      destruct (torch_roll1 _ _); simpl; auto.
      destruct (latlong_to_cubemap _ _ _); simpl; auto. }
  apply Hgen. exact Hb.
Qed.

End Detached.

(** C1 (as amended).  Let the base have just been replaced by [t] ([wt]).
    - On a trainable [EnvLight], [__call__] runs [build_mips] and then
      samples.  When it returns, the derived state it leaves and samples
      from is the one computed from [t]: level 0 of [self.specular] is the
      specular filter of [t], [self.diffuse] is the diffuse filter of the
      smallest downsampling of [t], and the pair returned is what the two
      samplers give on that state, whatever [self.specular] and
      [self.diffuse] held before.  The result is the one an explicit
      [build_mips] before the query would give, and it is the same from any
      object with the same base and configuration.
    - On a non-trainable [EnvLight], [__call__] changes no attribute (so
      [self.specular] and [self.diffuse] are unchanged).  Once a
      [build_mips] has returned, no entry of the chain is the base
      Parameter itself, in particular on a constructed object and after
      any calls of [load], [gen_base_image] and [update_light] on it; and
      then the query gives after the mutation of the base what it gave
      before.  But a [build_mips] that did not return (two levels,
      [ZeroDivisionError]) leaves the base Parameter itself as level 0 of
      the chain: then a query reads the current base data there. *)
Theorem call_rebuild_policy `{Collaborators} (fuel : nat) (n l : Tensor)
    (r : option Tensor) (w : World) (t : Tensor) :
  let wt := upd (with_base_data t) w in
  if trainable (self w) then
    __call__ fuel n l r wt = (build_mips fuel default_cutoff ;; sample_both n l r) wt /\
    fst (__call__ fuel n l r wt) =
      fst ((build_mips fuel default_cutoff ;; __call__ fuel n l r) wt) /\
    (forall w', same_inputs wt w' -> trainable (self w') = true ->
       fst (__call__ fuel n l r wt) = fst (__call__ fuel n l r w')) /\
    (forall p w', __call__ fuel n l r wt = (Ok p, w') ->
       exists k chain,
         k <> 1%nat /\
         sample_both n l r (rebuilt default_cutoff k wt) = (Ok p, w') /\
         diffuse (self w') = Some (diffuse_cubemap (default t (last (mips_of k t)))) /\
         specular (self w') = Some chain /\
         chain !! 0%nat =
           Some (Detached (specular_cubemap t
                             (if decide (k = 0%nat) then 1%Q
                              else interpolated (self w) (S k) 0) default_cutoff)) /\
         forallb is_detached chain = true)
  else
    self (snd (__call__ fuel n l r w)) = self w /\
    (forall fuel0 cutoff w0, build_mips fuel0 cutoff w0 = (Ok tt, w) ->
       detached_chain (self w) = true) /\
    (forall fuel0 path dev sc minres maxres minr maxr tr color e0 fuel1 ops,
       __init__ fuel0 path dev sc minres maxres minr maxr tr color = Ok e0 ->
       forallb (fun op => negb (is_build op)) ops = true ->
       self w = self (run_ops fuel1 ops {| self := e0; lookups := [] |}) ->
       detached_chain (self w) = true) /\
    (detached_chain (self w) = true ->
       fst (__call__ fuel n l r wt) = fst (__call__ fuel n l r w)) /\
    (forall fuel0 cutoff w0 o, build_mips fuel0 cutoff w0 = (o, w) -> is_ok o = false ->
       detached_chain (self w) = false /\
       specular_getitem 0 wt = (Ok t, wt)).
Proof.
  intros wt. destruct (trainable (self w)) eqn:Ht.
  - assert (Htt : trainable (self wt) = true) by exact Ht.
    assert (Hdet : forall w1 w2, same_inputs w1 w2 ->
              fst ((build_mips fuel default_cutoff ;; sample_both n l r) w1) =
              fst ((build_mips fuel default_cutoff ;; sample_both n l r) w2)).
    { intros w1 w2 H12.
      eapply (determined_bind same_inputs same_derived same_derived); [| |exact H12].
      - apply determined_build_mips.
      - intros _. apply determined_sample_both, same_derived_sampling. }
    split; [apply call_trainable, Htt|]. split; [|split].
    + rewrite (call_trainable _ _ _ _ _ Htt). unfold bind at 1 2.
      destruct (build_mips fuel default_cutoff wt) as [[[]|e|] w1] eqn:E; try reflexivity.
      assert (Hin : same_inputs wt w1).
      { pose proof (build_mips_same_inputs fuel default_cutoff wt) as Hi.
        rewrite E in Hi. exact Hi. }
      assert (Ht1 : trainable (self w1) = true).
      { pose proof (build_mips_keeps_trainable fuel default_cutoff wt) as Hk.
        rewrite E in Hk. simpl in Hk. congruence. }
      rewrite (call_trainable _ _ _ _ _ Ht1).
      destruct (determined_build_mips fuel default_cutoff wt w1 Hin) as [Ho Hr].
      rewrite E in Ho, Hr. simpl in Ho, Hr. specialize (Hr eq_refl).
      unfold bind. destruct (build_mips fuel default_cutoff w1) as [o2 w2].
      simpl in Ho, Hr. subst o2.
      apply (determined_sample_both same_derived n l r same_derived_sampling), Hr.
    + intros w' Hin Ht'. rewrite (call_trainable _ _ _ _ _ Htt), (call_trainable _ _ _ _ _ Ht').
      apply Hdet, Hin.
    + intros p w'. rewrite (call_trainable _ _ _ _ _ Htt). unfold bind at 1.
      destruct (build_mips fuel default_cutoff wt) as [[[]|e|] wb] eqn:E; try discriminate.
      destruct (build_mips_Ok_rebuilt _ _ _ _ E) as (k & Hk & ->).
      intros Hq.
      assert (Hself : self w' = self (rebuilt default_cutoff k wt)).
      { pose proof (sample_both_keeps_self n l r (rebuilt default_cutoff k wt)) as Hs.
        rewrite Hq in Hs. exact Hs. }
      destruct (rebuilt_level0 default_cutoff k wt) as (chain & Hc & H0 & Hall).
      exists k, chain. split; [exact Hk|]. split; [exact Hq|].
      rewrite Hself. split; [apply rebuilt_diffuse|].
      split; [exact Hc|]. split; [exact H0|exact Hall].
  - split; [|split; [|split; [|split]]].
    + rewrite (call_fixed _ _ _ _ _ Ht). apply sample_both_keeps_self.
    + intros fuel0 cutoff w0. apply build_mips_detached.
    + intros fuel0 path dev sc minres maxres minr maxr tr color e0 fuel1 ops Hi Hops ->.
      eapply detached_after_calls; eauto.
    + intros Hd. rewrite (call_fixed _ _ _ _ wt Ht), (call_fixed _ _ _ _ w Ht).
      apply (determined_sample_both same_query n l r same_query_sampling).
      unfold same_query. simpl. auto.
    + intros fuel0 cutoff w0 o Hb Ho.
      destruct (build_mips_failed_alias _ _ _ _ _ Hb Ho) as [rest Hs].
      split; [unfold detached_chain; rewrite Hs; reflexivity|].
      apply (specular_getitem_eval wt (BaseParam :: rest) 0 BaseParam Hs eq_refl).
Qed.

(** ** What [load] leaves behind *)

(** C5 (as amended).  When [load(path)] returns, [self.base.data] is the
    cubemap projected from the decoded image and [self.base_image] is the
    scaled image, while [self.specular] and [self.diffuse] are the ones from
    before the call: [load] itself rebuilds nothing.  The constructor is
    what rebuilds: it calls [build_mips] after [load], so the derived state
    of a constructed object is the one [build_mips] computes from its base. *)
Theorem load_leaves_derived_state `{Collaborators} (path : string) (w w' : World) :
  load path w = (Ok tt, w') ->
  (exists image cubemap,
     imread path = Ok image /\
     latlong_to_cubemap (scaled_image image (scale (self w)))
       [max_res (self w); max_res (self w)] (device (self w)) = Ok cubemap /\
     pdata (base (self w')) = cubemap /\
     base_image (self w') = Some (scaled_image image (scale (self w)))) /\
  specular (self w') = specular (self w) /\
  diffuse (self w') = diffuse (self w) /\
  (forall fuel dev sc minres maxres minr maxr tr color e,
     __init__ fuel (Some path) dev sc minres maxres minr maxr tr color = Ok e ->
     derived_fresh fuel e).
Proof.
  rewrite load_eval. intros Hl.
  destruct (imread path) as [image|e|]; try discriminate.
  simpl in Hl.
  destruct (latlong_to_cubemap _ _ _) as [cubemap|e|] eqn:Hc; try discriminate.
  injection Hl as <-. split; [|split; [|split]]; try reflexivity.
  - exists image, cubemap. repeat split; try reflexivity. exact Hc.
  - intros fuel dev sc minres maxres minr maxr tr color e Hi.
    destruct (init_inv _ _ _ _ _ _ _ _ _ _ _ Hi) as (v & w1 & _ & _ & w2 & Hb & ->).
    eapply build_mips_derived_fresh, Hb.
Qed.

(** C6 (as amended).  When [load(path)] does not return, [self.base],
    [self.specular] and [self.diffuse] are as before the call.  If the
    decoding failed, nothing at all has changed; if the decoding succeeded
    (so the projection is what failed), [self.base_image] has already been
    overwritten with the new scaled image. *)
Theorem load_failure_state `{Collaborators} (path : string) (w w' : World)
    (o : outcome unit) :
  load path w = (o, w') ->
  is_ok o = false ->
  base (self w') = base (self w) /\
  specular (self w') = specular (self w) /\
  diffuse (self w') = diffuse (self w) /\
  match imread path with
  | Ok image => base_image (self w') = Some (scaled_image image (scale (self w)))
  | _ => w' = w
  end.
Proof.
  rewrite load_eval. intros Hl Ho.
  destruct (imread path) as [image|e|].
  - simpl in Hl. destruct (latlong_to_cubemap _ _ _) as [cubemap|e|];
      injection Hl as <- <-; try discriminate; repeat split.
  - injection Hl as <- <-. repeat split.
  - injection Hl as <- <-. repeat split.
Qed.

(** ** [torch.roll] along dimension 1 *)

Lemma flat_index_bounds d0 d1 inner i j c :
  0 <= i < d0 -> 0 <= j < d1 -> 0 <= c < inner ->
  0 <= flat_index d1 inner i j c < d0 * (d1 * inner).
Proof.
  unfold flat_index. intros Hi Hj Hc.
  assert (Hrow : 0 <= j * inner + c < d1 * inner) by nia.
  generalize dependent (d1 * inner). intros row Hrow.
  assert (Hi' : 0 <= i * row /\ i * row + row <= d0 * row) by nia.
  lia.
Qed.

Lemma roll_in_range_int64 d1 delta :
  0 <= d1 -> roll_in_range d1 delta -> is_int64 delta = true.
Proof.
  intros Hd [Hlo Hhi]. unfold is_int64.
  apply andb_true_intro. split; [apply Z.leb_le|apply Z.ltb_lt]; lia.
Qed.

Lemma wrap64_small z : - 2 ^ 63 <= z < 2 ^ 63 -> wrap64 z = z.
Proof. intros Hz. unfold wrap64. rewrite Z.mod_small by lia. lia. Qed.

(** Without overflow the start column is [(- delta) mod d1]. *)
Lemma roll_start_in_range d1 delta :
  0 < d1 -> roll_in_range d1 delta -> roll_start d1 delta = (- delta) mod d1.
Proof.
  intros Hd [Hlo Hhi]. unfold roll_start.
  rewrite wrap64_small by lia.
  replace ((- delta) mod d1) with ((d1 - delta) mod d1)
    by (replace (d1 - delta) with (- delta + 1 * d1) by ring; apply Z_mod_plus_full).
  generalize (d1 - delta). intros z.
  destruct (Z_le_dec 0 z) as [Hz|Hz].
  - rewrite Z.rem_mod_nonneg by lia.
    pose proof (Z.mod_pos_bound z d1 Hd) as Hb.
    replace (z mod d1 <? 0) with false by (symmetry; apply Z.ltb_ge; lia). reflexivity.
  - assert (Hrem : Z.rem z d1 = - ((- z) mod d1)).
    { rewrite <- (Z.rem_mod_nonneg (- z) d1) by lia.
      rewrite <- Z.rem_opp_l by lia. f_equal. ring. }
    rewrite Hrem.
    pose proof (Z.mod_pos_bound (- z) d1 Hd) as Hb.
    assert (Hz' : z = - (- z)) by ring.
    destruct (Z.eq_dec ((- z) mod d1) 0) as [E|E].
    + rewrite E. simpl. symmetry.
      rewrite Hz'. apply Z.mod_opp_l_z; lia.
    + replace (- ((- z) mod d1) <? 0) with true by (symmetry; apply Z.ltb_lt; lia).
      rewrite Hz' at 2.
      rewrite (Z.mod_opp_l_nz (- z) d1) by lia. lia.
Qed.

Lemma roll_source_flat_start d1 inner delta i j c :
  0 <= j < d1 -> 0 <= c < inner ->
  roll_source d1 inner delta (flat_index d1 inner i j c) =
    flat_index d1 inner i ((j + roll_start d1 delta) mod d1) c.
Proof.
  intros Hj Hc. unfold roll_source, flat_index.
  assert (Hrow : 0 <= j * inner + c < d1 * inner) by nia.
  assert (Hpos : 0 < d1 * inner) by nia.
  assert (Hq : (i * (d1 * inner) + j * inner + c) / (d1 * inner) = i).
  { rewrite <- Z.add_assoc, Z.div_add_l by lia. rewrite Z.div_small by lia. lia. }
  assert (Hr : (i * (d1 * inner) + j * inner + c) mod (d1 * inner) = j * inner + c).
  { rewrite <- Z.add_assoc, Z.add_comm, Z.mod_add by lia. apply Z.mod_small. lia. }
  assert (Hj' : (j * inner + c) / inner = j).
  { rewrite Z.div_add_l by lia. rewrite Z.div_small by lia. lia. }
  assert (Hc' : (i * (d1 * inner) + j * inner + c) mod inner = c).
  { replace (i * (d1 * inner) + j * inner + c) with (c + (i * d1 + j) * inner) by ring.
    rewrite Z.mod_add by lia. apply Z.mod_small. lia. }
  rewrite Hq, Hr, Hj', Hc'. reflexivity.
Qed.

Lemma roll_source_flat d1 inner delta i j c :
  0 <= j < d1 -> 0 <= c < inner -> roll_in_range d1 delta ->
  roll_source d1 inner delta (flat_index d1 inner i j c) =
    flat_index d1 inner i ((j - delta) mod d1) c.
Proof.
  intros Hj Hc Hrange. rewrite roll_source_flat_start by assumption.
  rewrite (roll_start_in_range d1 delta) by (assumption || lia).
  rewrite Zplus_mod_idemp_r. replace (j + - delta) with (j - delta) by ring.
  reflexivity.
Qed.

Lemma roll_shift_back d1 delta j : 0 <= j < d1 -> ((j + delta) mod d1 - delta) mod d1 = j.
Proof.
  intros Hj. rewrite Zminus_mod_idemp_l.
  replace (j + delta - delta) with j by ring. apply Z.mod_small. lia.
Qed.

Lemma torch_roll1_overflow (t : Tensor) (delta : Z) :
  is_int64 delta = false -> torch_roll1 t delta = Raise ValueError.
Proof. intros Hd. unfold torch_roll1. rewrite Hd. reflexivity. Qed.

(** [torch_roll1] is a circular shift of the columns: what was in column
    [j] is in column [(j + delta) mod d1], in the same row and channel. *)
Lemma torch_roll1_shift (t : Tensor) (delta d0 d1 : Z) (rest : list Z) :
  shape t = d0 :: d1 :: rest ->
  length (data t) = Z.to_nat (d0 * (d1 * fold_right Z.mul 1 rest)) ->
  is_int64 delta = true ->
  exists img,
    torch_roll1 t delta = Ok img /\
    shape img = shape t /\
    length (data img) = length (data t) /\
    (roll_in_range d1 delta ->
     forall i j c,
      0 <= i < d0 -> 0 <= j < d1 -> 0 <= c < fold_right Z.mul 1 rest ->
      data img !! Z.to_nat (flat_index d1 (fold_right Z.mul 1 rest) i ((j + delta) mod d1) c) =
      data t !! Z.to_nat (flat_index d1 (fold_right Z.mul 1 rest) i j c) /\
      is_Some (data t !! Z.to_nat (flat_index d1 (fold_right Z.mul 1 rest) i j c))).
Proof.
  intros Hsh Hlen Hint. unfold torch_roll1. rewrite Hint, Hsh. cbn [negb].
  set (inner := fold_right Z.mul 1 rest) in *.
  eexists. split; [reflexivity|]. simpl. split; [auto|]. split; [apply length_imap|].
  intros Hrange i j c Hi Hj Hc.
  assert (Hj' : 0 <= (j + delta) mod d1 < d1) by (apply Z.mod_pos_bound; lia).
  pose proof (flat_index_bounds d0 d1 inner i j c Hi Hj Hc) as Hsrc.
  pose proof (flat_index_bounds d0 d1 inner i _ c Hi Hj' Hc) as Hdst.
  assert (Hsome : is_Some (data t !! Z.to_nat (flat_index d1 inner i j c))).
  { apply lookup_lt_is_Some_2. rewrite Hlen. lia. }
  split; [|exact Hsome].
  rewrite list_lookup_imap.
  destruct (lookup_lt_is_Some_2 (data t)
              (Z.to_nat (flat_index d1 inner i ((j + delta) mod d1) c))) as [x Hx];
    [rewrite Hlen; lia|].
  rewrite Hx. simpl. rewrite Z2Nat.id by lia.
  rewrite roll_source_flat by (assumption || lia). rewrite roll_shift_back by lia.
  destruct Hsome as [y Hy]. rewrite Hy. reflexivity.
Qed.

(** C7 (as amended).  [update_light(delta)] works on the latlong image
    cached in [self.base_image] (by [load] or [gen_base_image]) and does not
    compute it: with no cached image it raises [AttributeError] and changes
    nothing.  With a cached image, a [delta] that does not fit an [int64]
    is refused by [torch.roll] and nothing changes either.  For a [delta]
    that fits, and a cached image of shape [(d0, d1, ...)], the image is
    rolled along dimension 1, stored as the new cache, projected to a
    cubemap at [(max_res, max_res)] and assigned to [self.base.data]; the
    roll is the circular shift of the columns by [delta] (column [j] goes to
    column [(j + delta) mod d1]) for every [delta] with
    [-2^63 < delta - d1] and [delta + d1 < 2^63], where the index
    arithmetic on [int64] cannot overflow.  In every case [self.specular]
    and [self.diffuse] are unchanged on return. *)
Theorem update_light_rolls_cached `{Collaborators} (delta : Z) (w : World) :
  match base_image (self w) with
  | None => update_light delta w = (Raise AttributeError, w)
  | Some cached =>
      (is_int64 delta = false -> update_light delta w = (Raise ValueError, w)) /\
      forall d0 d1 rest,
        shape cached = d0 :: d1 :: rest ->
        length (data cached) = Z.to_nat (d0 * (d1 * fold_right Z.mul 1 rest)) ->
        is_int64 delta = true ->
        exists img,
          torch_roll1 cached delta = Ok img /\
          shape img = shape cached /\
          (roll_in_range d1 delta ->
           forall i j c,
             0 <= i < d0 -> 0 <= j < d1 -> 0 <= c < fold_right Z.mul 1 rest ->
             data img !! Z.to_nat (flat_index d1 (fold_right Z.mul 1 rest) i ((j + delta) mod d1) c) =
             data cached !! Z.to_nat (flat_index d1 (fold_right Z.mul 1 rest) i j c) /\
             is_Some (data cached !! Z.to_nat (flat_index d1 (fold_right Z.mul 1 rest) i j c))) /\
          base_image (self (snd (update_light delta w))) = Some img /\
          match latlong_to_cubemap img [max_res (self w); max_res (self w)] (device (self w)) with
          | Ok cubemap =>
              update_light delta w =
                (Ok tt, upd (with_base_data cubemap) (upd (with_base_image img) w))
          | Raise e => update_light delta w = (Raise e, upd (with_base_image img) w)
          | OutOfFuel => update_light delta w = (OutOfFuel, upd (with_base_image img) w)
          end
  end /\
  specular (self (snd (update_light delta w))) = specular (self w) /\
  diffuse (self (snd (update_light delta w))) = diffuse (self w).
Proof.
  rewrite !update_light_eval.
  destruct (base_image (self w)) as [cached|] eqn:Hb; [|repeat split].
  split; [split|].
  - intros Hover. rewrite (torch_roll1_overflow cached delta Hover). reflexivity.
  - intros d0 d1 rest Hsh Hlen Hint.
    destruct (torch_roll1_shift cached delta d0 d1 rest Hsh Hlen Hint)
      as (img & Hroll & Hshape & _ & Hshift).
    exists img. rewrite Hroll. simpl.
    split; [reflexivity|]. split; [exact Hshape|]. split; [exact Hshift|].
    destruct (latlong_to_cubemap _ _ _) as [cubemap|e|]; split; reflexivity.
  - destruct (torch_roll1 cached delta) as [img|e|]; simpl; [|split; reflexivity..].
    destruct (latlong_to_cubemap _ _ _) as [cubemap|e|]; split; reflexivity.
Qed.

(** ** The initial base *)

Section InitialBase.
Context `{Collaborators}.

Lemma create_trainable_env_rnd_data base_res sc b dev t :
  create_trainable_env_rnd base_res sc b dev = Ok t ->
  shape t = [6; base_res; base_res; 3] /\
  data t = map (fun k => f32 (f32 (torch_uniform k * f32 sc) + f32 b)%Q)
             (seq 0 (numel [6; base_res; base_res; 3])).
Proof.
  unfold create_trainable_env_rnd, torch_rand.
  destruct (forallb _ _); [|discriminate]. intros [= <-]. simpl.
  split; [reflexivity|]. rewrite !List.map_map. reflexivity.
Qed.

Lemma create_trainable_env_fix_data base_res v dev t :
  create_trainable_env_fix base_res v dev = Ok t ->
  shape t = [6; base_res; base_res; 3] /\
  data t = replicate (numel [6; base_res; base_res; 3]) v.
Proof.
  unfold create_trainable_env_fix. destruct (0 <=? base_res); [|discriminate].
  intros [= <-]. split; reflexivity.
Qed.

(** Without a path the constructed base is the initial value. *)
Lemma init_base_no_path fuel dev sc minres maxres minr maxr tr color e :
  __init__ fuel None dev sc minres maxres minr maxr tr color = Ok e ->
  exists v,
    match color with
    | Some c => create_trainable_env_fix maxres c (default "cuda"%string dev)
    | None => create_trainable_env_rnd maxres rnd_default_scale rnd_default_bias
                (default "cuda"%string dev)
    end = Ok v /\
    base e = {| pid := base_pid; pdata := v; requires_grad := tr |}.
Proof.
  intros Hi. destruct (init_inv _ _ _ _ _ _ _ _ _ _ _ Hi) as (v & w1 & Hv & Hl & w2 & Hb & ->).
  exists v. split; [exact Hv|]. injection Hl as <-.
  pose proof (build_mips_same_inputs fuel default_cutoff
                {| self := {| device := default "cuda"%string dev; scale := sc; min_res := minres;
                              max_res := maxres; min_roughness := minr; max_roughness := maxr;
                              trainable := tr; base := {| pid := base_pid; pdata := v; requires_grad := tr |};
                              base_image := None; specular := None; diffuse := None |};
                   lookups := [] |}) as Hs.
  rewrite Hb in Hs. destruct Hs as [Hbase _]. simpl in Hbase. congruence.
Qed.

End InitialBase.

(** C8 (as amended).  The constructor calls [create_trainable_env_rnd] with
    the resolution and the device only, so with the defaults [scale = 0.0]
    and [bias = 0.5]: constructed without a path and without a colour
    preset, every texel of the base equals [bias = 0.5] (the interval
    [[bias, bias + scale)] is empty).  For a call of
    [create_trainable_env_rnd] with [scale >= 0], with [scale] and [bias]
    below [2 ^ 127] in magnitude so that nothing overflows, every texel
    lies in the closed interval from [bias] to [scale + bias], both taken
    in [float32], the generator drawing from [[0, 1)]. *)
Theorem init_random_base `{Collaborators} (fuel : nat) (dev : option string) (sc : Q)
    (minres maxres : Z) (minr maxr : Q) (tr : bool) (e : EnvLight) :
  (forall k, (0 <= torch_uniform k /\ torch_uniform k < 1)%Q) ->
  __init__ fuel None dev sc minres maxres minr maxr tr None = Ok e ->
  shape (pdata (base e)) = [6; maxres; maxres; 3] /\
  length (data (pdata (base e))) = numel [6; maxres; maxres; 3] /\
  (rnd_default_scale == 0)%Q /\
  Forall (fun x => x = rnd_default_bias) (data (pdata (base e))) /\
  (forall base_res s b d t,
     create_trainable_env_rnd base_res s b d = Ok t ->
     (0 <= s /\ s < 2 ^ 127)%Q -> (- (2 ^ 127) < b /\ b < 2 ^ 127)%Q ->
     Forall (fun x => (f32 b <= x /\ x <= f32 (f32 s + f32 b))%Q) (data t)).
Proof.
  intros Hu Hi.
  destruct (init_base_no_path _ _ _ _ _ _ _ _ _ _ Hi) as (v & Hv & Hb).
  destruct (create_trainable_env_rnd_data _ _ _ _ _ Hv) as [Hsh Hd].
  rewrite Hb. simpl. split; [exact Hsh|]. split; [|split; [reflexivity|split]].
  - rewrite Hd, length_map, length_seq. reflexivity.
  - rewrite Hd. apply Forall_forall. intros x Hx.
    apply list_elem_of_In, in_map_iff in Hx. destruct Hx as (k & <- & _).
    rewrite (f32_0 (torch_uniform k * f32 rnd_default_scale))
      by (unfold rnd_default_scale; rewrite (f32_0 0) by reflexivity; ring).
    rewrite (f32_comp (0 + f32 rnd_default_bias) (f32 rnd_default_bias)) by ring.
    rewrite f32_idem. reflexivity.
  - intros base_res s b d t Ht [Hs _] _.
    destruct (create_trainable_env_rnd_data _ _ _ _ _ Ht) as [_ Hdt].
    rewrite Hdt. apply Forall_forall. intros x Hx.
    apply list_elem_of_In, in_map_iff in Hx. destruct Hx as (k & <- & _).
    destruct (Hu k) as [H0 H1].
    pose proof (f32_nonneg s Hs) as Hsf.
    assert (Hlo : (0 <= f32 (torch_uniform k * f32 s))%Q)
      by (apply f32_nonneg, Qmult_le_0_compat; assumption).
    assert (Hhi : (f32 (torch_uniform k * f32 s) <= f32 s)%Q).
    { rewrite <- (f32_idem s) at 2. apply f32_le. nra. }
    split.
    + rewrite <- (f32_idem b) at 1. apply f32_le. lra.
    + apply f32_le. lra.
Qed.

(** ** The base Parameter across calls *)

Section Calls.
Context `{Collaborators}.

Lemma run_ops_keeps_max_res fuel ops w :
  max_res (self (run_ops fuel ops w)) = max_res (self w).
Proof.
  revert w. induction ops as [|op rest IH]; intros w; simpl; [reflexivity|].
  rewrite IH. destruct op; simpl.
  - rewrite load_eval. destruct (imread path); simpl; auto.
    destruct (latlong_to_cubemap _ _ _); simpl; auto.
  - unfold gen_base_image, bind, attr, lift, modify.
    destruct (cubemap_to_latlong _ _); simpl; auto.
  - rewrite update_light_eval. destruct (base_image (self w)); simpl; auto.
    destruct (torch_roll1 _ _); simpl; auto.
    destruct (latlong_to_cubemap _ _ _); simpl; auto.
  - apply (invariant_build_mips (fun w' => max_res (self w') = max_res (self w))); auto.
Qed.

(** No call replaces the object [self.base]: [load] and [update_light]
    assign its [.data], the others do not touch it. *)
Lemma base_kept_load p path : invariant (base_kept p) (load path).
Proof.
  intros w (Hb & Ht). rewrite load_eval.
  destruct (imread path) as [image|e|]; simpl; try (split; assumption).
  destruct (latlong_to_cubemap _ _ _) as [cubemap|e|]; simpl; try (split; assumption).
  split; simpl; [rewrite Hb; reflexivity|exact Ht].
Qed.

Lemma base_kept_update_light p delta : invariant (base_kept p) (update_light delta).
Proof.
  intros w (Hb & Ht). rewrite update_light_eval.
  destruct (base_image (self w)) as [cached|]; simpl; try (split; assumption).
  destruct (torch_roll1 cached delta) as [img|e|]; simpl; try (split; assumption).
  destruct (latlong_to_cubemap _ _ _) as [cubemap|e|]; simpl; try (split; assumption).
  split; simpl; [rewrite Hb; reflexivity|exact Ht].
Qed.

Lemma base_kept_gen_base_image p : invariant (base_kept p) gen_base_image.
Proof.
  intros w Hw. unfold gen_base_image, bind, attr, lift, modify.
  destruct (cubemap_to_latlong _ _) as [img|e|]; simpl; exact Hw.
Qed.

Lemma base_kept_build_mips p fuel cutoff : invariant (base_kept p) (build_mips fuel cutoff).
Proof. apply invariant_build_mips; intros w x Hw; exact Hw. Qed.

Lemma base_kept_run_ops p fuel ops w : base_kept p w -> base_kept p (run_ops fuel ops w).
Proof.
  revert w. induction ops as [|op rest IH]; intros w Hw; simpl; [exact Hw|].
  apply IH. destruct op; simpl.
  - apply base_kept_load, Hw.
  - apply base_kept_gen_base_image, Hw.
  - apply base_kept_update_light, Hw.
  - apply base_kept_build_mips, Hw.
Qed.

(** The constructor: the base is the object created at line 48, of the
    initial shape when no file is loaded into it. *)
Lemma base_kept_init fuel path dev sc minres maxres minr maxr tr color e :
  __init__ fuel path dev sc minres maxres minr maxr tr color = Ok e ->
  pid (base e) = base_pid /\ requires_grad (base e) = tr /\ trainable e = tr /\
  (path = None -> shape (pdata (base e)) = [6; maxres; maxres; 3]).
Proof.
  intros Hi. destruct (init_inv _ _ _ _ _ _ _ _ _ _ _ Hi) as (v & w1 & Hv & Hl & w2 & Hb & ->).
  set (p0 := {| pid := base_pid; pdata := v; requires_grad := tr |}).
  set (w0 := {| self := {| device := default "cuda"%string dev; scale := sc; min_res := minres;
                           max_res := maxres; min_roughness := minr; max_roughness := maxr;
                           trainable := tr; base := p0;
                           base_image := None; specular := None; diffuse := None |};
                lookups := [] |}) in *.
  assert (Hv' : shape v = [6; maxres; maxres; 3]).
  { destruct color.
    - apply (create_trainable_env_fix_data _ _ _ _ Hv).
    - apply (create_trainable_env_rnd_data _ _ _ _ _ Hv). }
  assert (H0 : base_kept p0 w0) by (split; reflexivity).
  assert (H1 : base_kept p0 w1 /\ (path = None -> w1 = w0)).
  { destruct path as [p|].
    - change (load p w0 = (Ok tt, w1)) in Hl. split; [|discriminate].
      pose proof (base_kept_load p0 p w0 H0) as Hl1. rewrite Hl in Hl1. exact Hl1.
    - change (ret tt w0 = (Ok tt, w1)) in Hl. injection Hl as <-. split; [exact H0|reflexivity]. }
  destruct H1 as [H1 Hnone].
  pose proof (base_kept_build_mips p0 fuel default_cutoff w1 H1) as H2.
  pose proof (build_mips_same_inputs fuel default_cutoff w1) as [Hsame _].
  rewrite Hb in H2, Hsame. simpl in H2, Hsame.
  destruct H2 as [Hbase Htr].
  split; [rewrite Hbase; reflexivity|]. split; [rewrite Hbase; reflexivity|].
  split; [rewrite Htr; reflexivity|].
  intros Hp. rewrite <- Hsame, (Hnone Hp). exact Hv'.
Qed.

(** The only data ever assigned to the base is the result of
    [latlong_to_cubemap] at [(max_res, max_res)]. *)
Lemma base_data_from_load t0 res dev path :
  invariant (base_data_from t0 res dev) (load path).
Proof.
  intros w (Hres & Hdev & Hw). rewrite load_eval.
  destruct (imread path) as [image|e|]; simpl; try (repeat split; assumption).
  destruct (latlong_to_cubemap _ _ _) as [cubemap|e|] eqn:Hc; simpl;
    try (repeat split; assumption).
  split; [exact Hres|]. split; [exact Hdev|]. right. simpl.
  rewrite Hres, Hdev in Hc. eexists. exact Hc.
Qed.

Lemma base_data_from_update_light t0 res dev delta :
  invariant (base_data_from t0 res dev) (update_light delta).
Proof.
  intros w (Hres & Hdev & Hw). rewrite update_light_eval.
  destruct (base_image (self w)) as [cached|]; simpl; try (repeat split; assumption).
  destruct (torch_roll1 cached delta) as [img|e|]; simpl; try (repeat split; assumption).
  destruct (latlong_to_cubemap _ _ _) as [cubemap|e|] eqn:Hc; simpl;
    try (repeat split; assumption).
  split; [exact Hres|]. split; [exact Hdev|]. right. simpl.
  rewrite Hres, Hdev in Hc. eexists. exact Hc.
Qed.

Lemma base_data_from_gen_base_image t0 res dev :
  invariant (base_data_from t0 res dev) gen_base_image.
Proof.
  intros w Hw. unfold gen_base_image, bind, attr, lift, modify.
  destruct (cubemap_to_latlong _ _) as [img|e|]; simpl; exact Hw.
Qed.

Lemma base_data_from_build_mips t0 res dev fuel cutoff :
  invariant (base_data_from t0 res dev) (build_mips fuel cutoff).
Proof. apply invariant_build_mips; intros w x Hw; exact Hw. Qed.

Lemma base_data_from_run_ops t0 res dev fuel ops w :
  base_data_from t0 res dev w -> base_data_from t0 res dev (run_ops fuel ops w).
Proof.
  revert w. induction ops as [|op rest IH]; intros w Hw; simpl; [exact Hw|].
  apply IH. destruct op; simpl.
  - apply base_data_from_load, Hw.
  - apply base_data_from_gen_base_image, Hw.
  - apply base_data_from_update_light, Hw.
  - apply base_data_from_build_mips, Hw.
Qed.

Lemma base_data_from_init fuel path dev sc minres maxres minr maxr tr color e :
  __init__ fuel path dev sc minres maxres minr maxr tr color = Ok e ->
  exists v,
    shape v = [6; maxres; maxres; 3] /\
    (path = None -> pdata (base e) = v) /\
    base_data_from v maxres (default "cuda"%string dev) {| self := e; lookups := [] |}.
Proof.
  intros Hi. destruct (init_inv _ _ _ _ _ _ _ _ _ _ _ Hi) as (v & w1 & Hv & Hl & w2 & Hb & ->).
  set (p0 := {| pid := base_pid; pdata := v; requires_grad := tr |}).
  set (w0 := {| self := {| device := default "cuda"%string dev; scale := sc; min_res := minres;
                           max_res := maxres; min_roughness := minr; max_roughness := maxr;
                           trainable := tr; base := p0;
                           base_image := None; specular := None; diffuse := None |};
                lookups := [] |}) in *.
  exists v. split.
  { destruct color.
    - apply (create_trainable_env_fix_data _ _ _ _ Hv).
    - apply (create_trainable_env_rnd_data _ _ _ _ _ Hv). }
  assert (H0 : base_data_from v maxres (default "cuda"%string dev) w0).
  { split; [reflexivity|]. split; [reflexivity|]. left. reflexivity. }
  assert (H1 : base_data_from v maxres (default "cuda"%string dev) w1 /\
               (path = None -> w1 = w0)).
  { destruct path as [p|].
    - change (load p w0 = (Ok tt, w1)) in Hl. split; [|discriminate].
      pose proof (base_data_from_load v maxres (default "cuda"%string dev) p w0 H0) as Hl1.
      rewrite Hl in Hl1. exact Hl1.
    - change (ret tt w0 = (Ok tt, w1)) in Hl. injection Hl as <-. split; [exact H0|reflexivity]. }
  destruct H1 as [H1 Hnone].
  pose proof (base_data_from_build_mips v maxres (default "cuda"%string dev) fuel
                default_cutoff w1 H1) as H2.
  pose proof (build_mips_same_inputs fuel default_cutoff w1) as [Hsame _].
  rewrite Hb in H2, Hsame. simpl in H2, Hsame.
  split; [|exact H2].
  intros Hp. rewrite <- Hsame, (Hnone Hp). reflexivity.
Qed.

Hypothesis Hproj : projector_shape.

Lemma base_inv_load p path : invariant (base_inv p) (load path).
Proof.
  intros w (Hb & Ht & Hs). rewrite load_eval.
  destruct (imread path) as [image|e|]; simpl; try (repeat split; assumption).
  destruct (latlong_to_cubemap _ _ _) as [cubemap|e|] eqn:Hc; simpl;
    try (repeat split; assumption).
  repeat split; simpl.
  - rewrite Hb. reflexivity.
  - exact Ht.
  - apply (Hproj _ _ _ _ _ Hc).
Qed.

Lemma base_inv_update_light p delta : invariant (base_inv p) (update_light delta).
Proof.
  intros w (Hb & Ht & Hs). rewrite update_light_eval.
  destruct (base_image (self w)) as [cached|]; simpl; try (repeat split; assumption).
  destruct (torch_roll1 cached delta) as [img|e|]; simpl; try (repeat split; assumption).
  destruct (latlong_to_cubemap _ _ _) as [cubemap|e|] eqn:Hc; simpl;
    try (repeat split; assumption).
  repeat split; simpl.
  - rewrite Hb. reflexivity.
  - exact Ht.
  - apply (Hproj _ _ _ _ _ Hc).
Qed.

Lemma base_inv_gen_base_image p : invariant (base_inv p) gen_base_image.
Proof.
  intros w Hw. unfold gen_base_image, bind, attr, lift, modify.
  destruct (cubemap_to_latlong _ _) as [img|e|]; simpl; exact Hw.
Qed.

Lemma base_inv_build_mips p fuel cutoff : invariant (base_inv p) (build_mips fuel cutoff).
Proof. apply invariant_build_mips; intros w x Hw; exact Hw. Qed.

Lemma base_inv_run_ops p fuel ops w : base_inv p w -> base_inv p (run_ops fuel ops w).
Proof.
  revert w. induction ops as [|op rest IH]; intros w Hw; simpl; [exact Hw|].
  apply IH. destruct op; simpl.
  - apply base_inv_load, Hw.
  - apply base_inv_gen_base_image, Hw.
  - apply base_inv_update_light, Hw.
  - apply base_inv_build_mips, Hw.
Qed.

Lemma base_inv_init fuel path dev sc minres maxres minr maxr tr color e :
  __init__ fuel path dev sc minres maxres minr maxr tr color = Ok e ->
  max_res e = maxres /\ requires_grad (base e) = tr /\
  base_inv (base e) {| self := e; lookups := [] |}.
Proof.
  intros Hi. destruct (init_inv _ _ _ _ _ _ _ _ _ _ _ Hi) as (v & w1 & Hv & Hl & w2 & Hb & ->).
  set (p0 := {| pid := base_pid; pdata := v; requires_grad := tr |}).
  set (w0 := {| self := {| device := default "cuda"%string dev; scale := sc; min_res := minres;
                           max_res := maxres; min_roughness := minr; max_roughness := maxr;
                           trainable := tr; base := p0;
                           base_image := None; specular := None; diffuse := None |};
                lookups := [] |}) in *.
  assert (Hv' : shape v = [6; maxres; maxres; 3]).
  { destruct color.
    - apply (create_trainable_env_fix_data _ _ _ _ Hv).
    - apply (create_trainable_env_rnd_data _ _ _ _ _ Hv). }
  assert (H0 : base_inv p0 w0 /\ max_res (self w0) = maxres).
  { repeat split. exact Hv'. }
  assert (H1 : base_inv p0 w1 /\ max_res (self w1) = maxres).
  { destruct path as [p|].
    - change (load p w0 = (Ok tt, w1)) in Hl. split.
      + pose proof (base_inv_load p0 p w0 (proj1 H0)) as Hl1. rewrite Hl in Hl1. exact Hl1.
      + rewrite load_eval in Hl. destruct (imread p); try discriminate. simpl in Hl.
        destruct (latlong_to_cubemap _ _ _); try discriminate. injection Hl as <-. reflexivity.
    - change (ret tt w0 = (Ok tt, w1)) in Hl. injection Hl as <-. exact H0. }
  assert (H2 : base_inv p0 w2 /\ max_res (self w2) = maxres).
  { split.
    - pose proof (base_inv_build_mips p0 fuel default_cutoff w1 (proj1 H1)) as Hb2.
      rewrite Hb in Hb2. exact Hb2.
    - pose proof (invariant_build_mips (fun w => max_res (self w) = maxres) fuel default_cutoff
                    ltac:(auto) ltac:(auto) w1 (proj2 H1)) as Hm.
      rewrite Hb in Hm. exact Hm. }
  destruct H2 as [(Hbase & Htr & Hshape) Hmax].
  split; [exact Hmax|]. split; [rewrite Hbase; reflexivity|].
  repeat split; simpl.
  - rewrite Hbase. reflexivity.
  - rewrite Htr, Hbase. reflexivity.
  - exact Hshape.
Qed.

End Calls.

(** C9.  The constructor makes [self.base] one Parameter object whose
    [requires_grad] is the [trainable] flag, created with shape
    [(6, max_res, max_res, 3)].  No method rebinds [self.base]: after any
    sequence of [load], [gen_base_image], [update_light] and [build_mips]
    calls, returning or raising, [self.base] is the same object (the same
    [pid]) with at most its [.data] replaced, and [requires_grad] is still
    the [trainable] flag.  [.data] is the initial value, of shape
    [(6, max_res, max_res, 3)], or a result of [latlong_to_cubemap] for the
    resolution [(max_res, max_res)] and nothing else; so the shape is
    unchanged provided the projection returns six faces of the requested
    resolution with three channels (its contract in the specification). *)
Theorem base_parameter_preserved `{Collaborators} (fuel0 fuel : nat) (path : option string)
    (dev : option string) (sc : Q) (minres maxres : Z) (minr maxr : Q) (tr : bool)
    (color : option Q) (e : EnvLight) (ops : list Op) :
  __init__ fuel0 path dev sc minres maxres minr maxr tr color = Ok e ->
  let e' := self (run_ops fuel ops {| self := e; lookups := [] |}) in
  (pid (base e) = base_pid /\
   requires_grad (base e) = tr /\
   (path = None -> shape (pdata (base e)) = [6; maxres; maxres; 3])) /\
  (pid (base e') = pid (base e) /\
   base e' = set_pdata (pdata (base e')) (base e) /\
   requires_grad (base e') = tr /\
   trainable e' = tr) /\
  (exists v,
     shape v = [6; maxres; maxres; 3] /\
     (path = None -> pdata (base e) = v) /\
     forall x, x = pdata (base e) \/ x = pdata (base e') ->
       x = v \/
       exists img,
         latlong_to_cubemap img [maxres; maxres] (default "cuda"%string dev) = Ok x) /\
  (projector_shape ->
   shape (pdata (base e)) = [6; maxres; maxres; 3] /\
   shape (pdata (base e')) = [6; maxres; maxres; 3]).
Proof.
  intros Hi e'.
  destruct (base_kept_init _ _ _ _ _ _ _ _ _ _ _ Hi) as (Hpid & Hrg & Htr & Hsh).
  split; [split; [exact Hpid|split; [exact Hrg|exact Hsh]]|].
  assert (Hk0 : base_kept (base e) {| self := e; lookups := [] |}).
  { split; simpl; [destruct (base e); reflexivity|congruence]. }
  pose proof (base_kept_run_ops (base e) fuel ops _ Hk0) as (Hb & Ht).
  fold e' in Hb, Ht.
  split.
  { split; [rewrite Hb; reflexivity|]. split; [exact Hb|].
    split; [rewrite Hb; exact Hrg|rewrite Ht; exact Hrg]. }
  split.
  { destruct (base_data_from_init _ _ _ _ _ _ _ _ _ _ _ Hi) as (v & Hv & Hnone & Hfrom).
    exists v. split; [exact Hv|]. split; [exact Hnone|].
    pose proof (base_data_from_run_ops v maxres (default "cuda"%string dev) fuel ops _ Hfrom)
      as (_ & _ & Hfrom').
    fold e' in Hfrom'. destruct Hfrom as (_ & _ & Hfrom). simpl in Hfrom.
    intros x [-> | ->]; assumption. }
  intros Hproj.
  destruct (base_inv_init Hproj _ _ _ _ _ _ _ _ _ _ _ Hi) as (Hmax & _ & Hinv).
  assert (Hmax' : max_res e' = maxres).
  { unfold e'. rewrite run_ops_keeps_max_res. exact Hmax. }
  pose proof (base_inv_run_ops Hproj (base e) fuel ops _ Hinv) as (_ & _ & Hs).
  fold e' in Hs.
  destruct Hinv as (_ & _ & Hs0). simpl in Hs0. rewrite Hmax in Hs0.
  split; [exact Hs0|]. rewrite Hs, Hmax'. reflexivity.
Qed.

(** ** A query without roughness *)

Lemma reshape_infer_cases t pre post :
  (exists t', reshape_infer t pre post = Ok t') \/ reshape_infer t pre post = Raise RuntimeError.
Proof. unfold reshape_infer. destruct (_ || _); eauto. Qed.

Lemma shape_last_cases t :
  (exists d, shape_last t = Ok d) \/ shape_last t = Raise IndexError.
Proof. unfold shape_last. destruct (last (shape t)); eauto. Qed.

Lemma to_grid_cases l w :
  (exists l', to_grid l w = (Ok l', w)) \/ (exists e, to_grid l w = (Raise e, w)).
Proof.
  unfold to_grid, bind, lift.
  destruct (shape_last_cases l) as [[d ->]| ->]; [|eauto].
  destruct (reshape_infer_cases l [1; 1] [d]) as [[t' ->]| ->]; eauto.
Qed.

Section NoRoughness.
Context `{Collaborators}.

Lemma forward_specular_None l w :
  exists e, _forward_specular l None w = (Raise e, w) /\
            (length (shape_prefix l) = 3%nat -> e = TypeError).
Proof.
  unfold _forward_specular. destruct (decide (length (shape_prefix l) = 3%nat)) as [E|E].
  - exists TypeError. split; reflexivity.
  - unfold bind at 1. unfold bind at 1.
    destruct (to_grid_cases l w) as [[l' ->]|[e ->]].
    + exists TypeError. split; [reflexivity|contradiction].
    + exists e. split; [reflexivity|contradiction].
Qed.


Lemma build_mips_keeps_lookups fuel cutoff w :
  lookups (snd (build_mips fuel cutoff w)) = lookups w.
Proof.
  apply (invariant_build_mips (fun w' => lookups w' = lookups w)); auto.
Qed.

End NoRoughness.


(** * The properties on the small instance *)

Lemma demo_mip_halves : mip_halves (H := Demo.collaborators).
Proof.
  intros t r Hr. unfold face_res in *. simpl. unfold Demo.res1. rewrite Hr. reflexivity.
Qed.

Lemma demo_projector_shape : projector_shape (H := Demo.collaborators).
Proof.
  intros img r0 r1 dev t. simpl. destruct (data img) as [|x xs]; [discriminate|].
  intros [= <-]. reflexivity.
Qed.

Lemma demo_uniform_unit k :
  (0 <= torch_uniform (Collaborators := Demo.collaborators) k /\
   torch_uniform (Collaborators := Demo.collaborators) k < 1)%Q.
Proof. simpl. split; reflexivity || discriminate. Qed.

Lemma demo_light3_built :
  __init__ (H := Demo.collaborators) 8 None None 1 1 4 (2 # 25) (1 # 2) false (Some 1%Q)
  = Ok Demo.obj3.
Proof. vm_compute. reflexivity. Qed.

Lemma demo_light1_built :
  __init__ (H := Demo.collaborators) 8 None None 1 2 2 (2 # 25) (1 # 2) false (Some 1%Q)
  = Ok Demo.obj1.
Proof. vm_compute. reflexivity. Qed.


Lemma demo_light_rnd_built :
  __init__ (H := Demo.collaborators) 8 None None 1 2 2 (2 # 25) (1 # 2) true None
  = Ok Demo.obj_rnd.
Proof. vm_compute. reflexivity. Qed.

Lemma demo_train_built :
  __init__ (H := Demo.collaborators) 8 None None 1 1 4 (2 # 25) (1 # 2) true (Some 1%Q)
  = Ok demo_obj_train.
Proof. vm_compute. reflexivity. Qed.

Lemma demo_train_query :
  __call__ (H := Demo.collaborators) 5 Demo.dirs Demo.dirs (Some Demo.rough) demo_train_edited
  = (Ok demo_train_query_result, demo_train_query_world).
Proof. vm_compute. reflexivity. Qed.

(** C1 on a trainable object whose base has been overwritten with zeros:
    the query leaves the filters of the zeros as derived state.  And on
    [demo_fixed], not trainable: the query changes no attribute and gives
    the same result once the base has been overwritten with zeros. *)
Lemma call_rebuild_policy_witness :
  (trainable (self (Demo.world0 demo_obj_train)) = true /\
   exists k chain,
     k <> 1%nat /\
     sample_both (H := Demo.collaborators) Demo.dirs Demo.dirs (Some Demo.rough)
       (rebuilt (H := Demo.collaborators) default_cutoff k demo_train_edited)
       = (Ok demo_train_query_result, demo_train_query_world) /\
     diffuse (self demo_train_query_world) =
       Some (diffuse_cubemap (Collaborators := Demo.collaborators)
               (default demo_zeros (last (mips_of (H := Demo.collaborators) k demo_zeros)))) /\
     specular (self demo_train_query_world) = Some chain /\
     chain !! 0%nat =
       Some (Detached (specular_cubemap (Collaborators := Demo.collaborators) demo_zeros
                         (if decide (k = 0%nat) then 1%Q
                          else interpolated (self (Demo.world0 demo_obj_train)) (S k) 0)
                         default_cutoff)) /\
     forallb is_detached chain = true) /\
  (trainable (self demo_fixed) = false /\
   self (snd (__call__ (H := Demo.collaborators) 5 Demo.dirs Demo.dirs (Some Demo.rough)
                demo_fixed)) = self demo_fixed /\
   fst (__call__ (H := Demo.collaborators) 5 Demo.dirs Demo.dirs (Some Demo.rough)
          (upd (with_base_data (torch_full [6; 4; 4; 3] 0)) demo_fixed)) =
   fst (__call__ (H := Demo.collaborators) 5 Demo.dirs Demo.dirs (Some Demo.rough) demo_fixed)).
Proof.
  split.
  - split; [reflexivity|].
    destruct (call_rebuild_policy (H := Demo.collaborators) 5 Demo.dirs Demo.dirs
                (Some Demo.rough) (Demo.world0 demo_obj_train) demo_zeros)
      as (_ & _ & _ & Hbuilt).
    exact (Hbuilt _ _ demo_train_query).
  - split; [reflexivity|].
    destruct (call_rebuild_policy (H := Demo.collaborators) 5 Demo.dirs Demo.dirs
                (Some Demo.rough) demo_fixed (torch_full [6; 4; 4; 3] 0))
      as (Hself & _ & _ & Hsame & _).
    split; [exact Hself|]. apply Hsame. reflexivity.
Defined.


(** C3 with [B = 4] and [min_res = 1]: three levels, and [build_mips]
    returns. *)
Lemma build_mips_chain_levels_witness :
  (exists chain,
     build_chain (H := Demo.collaborators) 3 demo_w4
       = (Ok tt, upd (with_specular chain) demo_w4) /\
     length chain = 3%nat) /\
  fst (build_mips (H := Demo.collaborators) 3 default_cutoff demo_w4) = Ok tt.
Proof.
  destruct (build_mips_chain_levels (H := Demo.collaborators) demo_w4 2 0 default_cutoff
              demo_mip_halves eq_refl eq_refl ltac:(lia) 3 ltac:(vm_compute; lia))
    as (chain & Hb & Hlen & _ & _ & _ & _ & _ & _ & Hfst & _).
  split; [|exact Hfst].
  exists chain. split; [exact Hb|exact Hlen].
Defined.

(** The loop of [build_mips] on [demo_w4]. *)
Lemma demo_w4_chain :
  build_chain (H := Demo.collaborators) 3 demo_w4
  = (Ok tt, upd (with_specular demo_chain) demo_w4).
Proof. vm_compute. reflexivity. Qed.

(** C4 on the three levels of [demo_w4]: level 1 is filtered with roughness
    [1 / (3 - 2) * (0.5 - 0.08) + 0.08]. *)
Lemma build_mips_level_roughness_witness :
  Z.of_nat 3 - 2 <> 0 /\
  is_ok (fst (build_mips (H := Demo.collaborators) 3 default_cutoff demo_w4)) = true /\
  exists final,
    snd (build_mips (H := Demo.collaborators) 3 default_cutoff demo_w4)
    = upd (with_specular final)
        (upd (with_diffuse (torch_full [6; 1; 1; 3] 1)) (upd (with_specular demo_chain) demo_w4)) /\
    final !! 1%nat =
      Some (Detached (specular_cubemap (Collaborators := Demo.collaborators)
                        (torch_full [6; 2; 2; 3] 1)
                        (inject_Z 1 / inject_Z (3 - 2) * ((1 # 2) - (2 # 25)) + (2 # 25))%Q
                        default_cutoff)).
Proof.
  destruct (build_mips_level_roughness (H := Demo.collaborators) 3 default_cutoff demo_w4
              (upd (with_specular demo_chain) demo_w4) demo_chain demo_w4_chain eq_refl)
    as (H3 & _ & _).
  destruct (H3 ltac:(simpl; lia)) as (Hd & final & top & Htop & Hbuild & _ & Hlevels).
  injection Htop as <-.
  split; [exact Hd|]. rewrite Hbuild. split; [reflexivity|].
  exists final. split; [reflexivity|].
  exact (Hlevels 1%nat (Detached (torch_full [6; 2; 2; 3] 1)) eq_refl).
Defined.

(** C5 on [demo_fixed]: [load] returns and the chain is the old one. *)
Lemma load_leaves_derived_state_witness :
  specular (self (snd (load (H := Demo.collaborators) "sky.hdr" demo_fixed))) =
    specular (self demo_fixed) /\
  diffuse (self (snd (load (H := Demo.collaborators) "sky.hdr" demo_fixed))) =
    diffuse (self demo_fixed).
Proof.
  assert (Hl : load (H := Demo.collaborators) "sky.hdr" demo_fixed =
               (Ok tt, snd (load (H := Demo.collaborators) "sky.hdr" demo_fixed)))
    by (vm_compute; reflexivity).
  destruct (load_leaves_derived_state (H := Demo.collaborators) "sky.hdr" demo_fixed _ Hl)
    as (_ & Hs & Hd & _).
  split; [exact Hs|exact Hd].
Defined.

(** C6 on [demo_fixed]: the projection of an empty image raises. *)
Lemma load_failure_state_witness :
  base (self (snd (load (H := Demo.collaborators) "empty.png" demo_fixed))) =
    base (self demo_fixed) /\
  specular (self (snd (load (H := Demo.collaborators) "empty.png" demo_fixed))) =
    specular (self demo_fixed).
Proof.
  assert (Hl : load (H := Demo.collaborators) "empty.png" demo_fixed =
               (Raise RuntimeError, snd (load (H := Demo.collaborators) "empty.png" demo_fixed)))
    by (vm_compute; reflexivity).
  destruct (load_failure_state (H := Demo.collaborators) "empty.png" demo_fixed _ _ Hl eq_refl)
    as (Hb & Hs & _).
  split; [exact Hb|exact Hs].
Defined.

(** C7 on a cached image of one row and three columns, shifted by one. *)
Lemma update_light_rolls_cached_witness :
  exists img,
    torch_roll1 {| shape := [1; 3; 1]; data := [1; 2; 3]%Q |} 1 = Ok img /\
    data img !! 1%nat = Some 1%Q.
Proof.
  destruct (update_light_rolls_cached (H := Demo.collaborators) 1 demo_cached) as [Hroll _].
  change (base_image (self demo_cached))
    with (Some {| shape := [1; 3; 1]; data := [1; 2; 3]%Q |}) in Hroll.
  cbv iota beta in Hroll.
  destruct Hroll as [_ Hroll].
  destruct (Hroll 1 3 [1] eq_refl eq_refl eq_refl) as (img & Hr & _ & Hshift & _).
  exists img. split; [exact Hr|].
  assert (Hrange : roll_in_range 3 1) by (unfold roll_in_range; lia).
  destruct (Hshift Hrange 0 0 0 ltac:(lia) ltac:(lia) ltac:(simpl; lia)) as [Hidx _].
  exact Hidx.
Defined.

(** C8 on the randomly initialised object. *)
Lemma init_random_base_witness :
  shape (pdata (base Demo.obj_rnd)) = [6; 2; 2; 3] /\
  Forall (fun x => x = rnd_default_bias) (data (pdata (base Demo.obj_rnd))).
Proof.
  destruct (init_random_base (H := Demo.collaborators) 8 None 1 2 2 (2 # 25) (1 # 2) true
              Demo.obj_rnd demo_uniform_unit demo_light_rnd_built)
    as (Hsh & _ & _ & Hall & _).
  split; [exact Hsh|exact Hall].
Defined.

(** C9 on the three-level object, through calls that return and calls that
    raise: the same object, still not trainable, of the same shape. *)
Lemma base_parameter_preserved_witness :
  pid (base (self (run_ops (H := Demo.collaborators) 8
                     [OpLoad "sky.hdr"; OpUpdateLight 1; OpBuildMips default_cutoff;
                      OpLoad "missing.hdr"; OpGenBaseImage]
                     {| self := Demo.obj3; lookups := [] |}))) = pid (base Demo.obj3) /\
  requires_grad
    (base (self (run_ops (H := Demo.collaborators) 8
                   [OpLoad "sky.hdr"; OpUpdateLight 1; OpBuildMips default_cutoff;
                    OpLoad "missing.hdr"; OpGenBaseImage]
                   {| self := Demo.obj3; lookups := [] |}))) = false /\
  shape
    (pdata (base (self (run_ops (H := Demo.collaborators) 8
                          [OpLoad "sky.hdr"; OpUpdateLight 1; OpBuildMips default_cutoff;
                           OpLoad "missing.hdr"; OpGenBaseImage]
                          {| self := Demo.obj3; lookups := [] |})))) = [6; 4; 4; 3].
Proof.
  destruct (base_parameter_preserved (H := Demo.collaborators) 8 8 None None 1 1 4
              (2 # 25) (1 # 2) false (Some 1%Q) Demo.obj3
              [OpLoad "sky.hdr"; OpUpdateLight 1; OpBuildMips default_cutoff;
               OpLoad "missing.hdr"; OpGenBaseImage]
              demo_light3_built)
    as (_ & (Hpid & _ & Hrg & _) & _ & Hshape).
  split; [exact Hpid|]. split; [exact Hrg|].
  exact (proj2 (Hshape demo_projector_shape)).
Defined.


(** C1, as stated, fails on a non-trainable object on which a call of
    [build_mips] has raised.  The base data of the constructed [Demo.obj3]
    is replaced by a cubemap of face resolution 2; with [min_res = 1] that
    makes two levels, and the explicit [build_mips] raises
    [ZeroDivisionError] at line 88, before line 89 has replaced level 0:
    [self.specular[0]] is still the base Parameter.  From then on a query
    after a mutation of the base differs from the query before it, with no
    call of [build_mips] in between and [self.specular] unchanged. *)
Lemma call_follows_base_after_failed_build :
  __init__ (H := Demo.collaborators) 8 None None 1 1 4 (2 # 25) (1 # 2) false (Some 1%Q)
    = Ok Demo.obj3 /\
  trainable (self demo_small) = false /\
  build_mips (H := Demo.collaborators) 5 default_cutoff demo_small
    = (Raise ZeroDivisionError, demo_failed) /\
  specular (self demo_failed) = Some [BaseParam; Detached (torch_full [6; 1; 1; 3] 1)] /\
  exists p1 p2 w1 w2,
    __call__ (H := Demo.collaborators) 5 Demo.dirs Demo.dirs (Some Demo.rough) demo_failed
      = (Ok p1, w1) /\
    self w1 = self demo_failed /\
    __call__ (H := Demo.collaborators) 5 Demo.dirs Demo.dirs (Some Demo.rough)
      (upd (with_base_data (torch_full [6; 2; 2; 3] 0)) w1) = (Ok p2, w2) /\
    specular (self w2) = specular (self demo_failed) /\
    diffuse (self w2) = diffuse (self demo_failed) /\
    snd p1 <> snd p2.
Proof.
  split; [exact demo_light3_built|]. split; [reflexivity|].
  split; [vm_compute; reflexivity|]. split; [vm_compute; reflexivity|].
  eexists. eexists. eexists. eexists.
  split; [vm_compute; reflexivity|]. split; [reflexivity|].
  split; [vm_compute; reflexivity|]. split; [reflexivity|]. split; [reflexivity|].
  simpl. discriminate.
Qed.

(** C3, as stated, fails for [B = 2] and [min_res = 1], both powers of two
    with [B > m]: the loop builds the [floor(log2(2/1)) + 1 = 2] levels,
    and then line 88 divides by [len(self.specular) - 2 = 0]:
    [build_mips] raises and produces no chain, and so does the
    constructor. *)
Lemma build_mips_two_levels_raises :
  mip_halves (H := Demo.collaborators) /\
  face_res (pdata (base (self demo_w2))) = Some 2 /\
  min_res (self demo_w2) = 1 /\
  Z.to_nat (Z.log2 (2 / 1) + 1) = 2%nat /\
  build_chain (H := Demo.collaborators) 5 demo_w2
    = (Ok tt, upd (with_specular [BaseParam; Detached (torch_full [6; 1; 1; 3] 1)]) demo_w2) /\
  fst (build_mips (H := Demo.collaborators) 5 default_cutoff demo_w2)
    = Raise ZeroDivisionError /\
  specular (self (snd (build_mips (H := Demo.collaborators) 5 default_cutoff demo_w2)))
    = Some [BaseParam; Detached (torch_full [6; 1; 1; 3] 1)] /\
  __init__ (H := Demo.collaborators) 8 None None 1 1 2 (2 # 25) (1 # 2) false (Some 1%Q)
    = Raise ZeroDivisionError.
Proof.
  split; [exact demo_mip_halves|]. split; [reflexivity|]. split; [reflexivity|].
  split; [reflexivity|]. split; [vm_compute; reflexivity|].
  split; [vm_compute; reflexivity|]. split; vm_compute; reflexivity.
Qed.


(** C4, as stated, fails on a configuration with [max_res <= min_res]: it
    yields one level, fewer than three, and the constructor returns. *)
Lemma build_mips_single_level_accepted :
  __init__ (H := Demo.collaborators) 8 None None 1 2 2 (2 # 25) (1 # 2) false (Some 1%Q)
    = Ok Demo.obj1 /\
  length <$> specular Demo.obj1 = Some 1%nat /\
  is_ok (fst (build_mips (H := Demo.collaborators) 8 default_cutoff
                (Demo.world0 (Demo.blank 2 2 false)))) = true.
Proof.
  split; [exact demo_light1_built|]. split; [reflexivity|]. vm_compute. reflexivity.
Qed.

(** C5, as stated, fails: after [load] on a constructed object the chain and
    the diffuse map are still those of the old base. *)
Lemma load_leaves_stale_chain :
  exists w',
    load (H := Demo.collaborators) "sky.hdr" (Demo.world0 Demo.obj3) = (Ok tt, w') /\
    pdata (base (self w')) <> pdata (base Demo.obj3) /\
    specular (self w') = specular Demo.obj3 /\
    diffuse (self w') = diffuse Demo.obj3 /\
    ~ derived_fresh (H := Demo.collaborators) 8 (self w').
Proof.
  eexists. split; [vm_compute; reflexivity|].
  split; [discriminate|]. split; [reflexivity|]. split; [reflexivity|].
  intros (w'' & Hb & _ & Hd). vm_compute in Hb. injection Hb as <-.
  vm_compute in Hd. discriminate Hd.
Qed.

(** C6, as stated, fails: when the decoding succeeds and the projection
    raises, [self.base_image] has been overwritten. *)
Lemma load_failure_overwrites_base_image :
  exists w',
    load (H := Demo.collaborators) "empty.png" (Demo.world0 Demo.obj3)
      = (Raise RuntimeError, w') /\
    base_image Demo.obj3 = None /\
    base_image (self w') = Some {| shape := [0; 0; 3]; data := [] |}.
Proof.
  eexists. split; [vm_compute; reflexivity|]. split; reflexivity.
Qed.

(** C7, as stated, fails: on an object constructed without a path nothing
    is cached, and [update_light] raises instead of computing the latlong
    image from the base; the base is not replaced. *)
Lemma update_light_without_cached_image :
  __init__ (H := Demo.collaborators) 8 None None 1 1 4 (2 # 25) (1 # 2) false (Some 1%Q)
    = Ok Demo.obj3 /\
  base_image Demo.obj3 = None /\
  update_light (H := Demo.collaborators) 1 (Demo.world0 Demo.obj3)
    = (Raise AttributeError, Demo.world0 Demo.obj3).
Proof.
  split; [exact demo_light3_built|]. split; [reflexivity|]. vm_compute. reflexivity.
Qed.

(** C8, as stated, fails: the constructor passes neither [scale] nor
    [bias], so [scale = 0.0] and the interval [[bias, bias + scale)] is
    empty; the texels are [bias] itself.  With [scale > 0] the upper end is
    reached as well: for the largest [float32] draw below 1,
    [1 - 2 ^ -24], [scale = 2] and [bias = 1], the product [2 - 2 ^ -23] is
    exact and the sum [3 - 2 ^ -23] rounds to [3 = bias + scale]. *)
Lemma init_random_base_outside_interval :
  __init__ (H := Demo.collaborators) 8 None None 1 2 2 (2 # 25) (1 # 2) true None
    = Ok Demo.obj_rnd /\
  (forall k, (0 <= torch_uniform (Collaborators := Demo.collaborators) k /\
              torch_uniform (Collaborators := Demo.collaborators) k < 1)%Q) /\
  (exists x,
     data (pdata (base Demo.obj_rnd)) !! 0%nat = Some x /\
     ~ (rnd_default_bias <= x /\ x < rnd_default_bias + rnd_default_scale)%Q) /\
  torch_uniform (Collaborators := Demo.collaborators) 0 = 16777215 # 16777216 /\
  exists t,
    create_trainable_env_rnd (H := Demo.collaborators) 1 2 1 "cuda" = Ok t /\
    data t !! 0%nat = Some 3%Q /\
    ~ (1 <= 3 /\ 3 < 1 + 2)%Q.
Proof.
  split; [exact demo_light_rnd_built|]. split; [exact demo_uniform_unit|].
  split.
  { eexists. split; [reflexivity|].
    intros [_ Hlt]. vm_compute in Hlt. discriminate Hlt. }
  split; [reflexivity|].
  eexists. split; [vm_compute; reflexivity|]. split; [reflexivity|].
  intros [_ Hlt]. vm_compute in Hlt. discriminate Hlt.
Qed.


(** * Further properties *)

(** ** Roughness and mip level *)

(** X2.  [get_mip] is elementwise, and order preserving on each side of
    its branch point.  On a chain of at least two levels, with
    [min_roughness] and [max_roughness] distinct after rounding to
    [float32] and both divisors normal [float32] numbers after rounding,
    the result has the shape of the roughness tensor; of two elements
    [x1 <= x2] that are both below the rounded [max_roughness], or both not
    below it, the larger never gets a smaller level; and an element of
    [1.0] or more gets the level of [1.0]. *)
Theorem get_mip_monotone `{Collaborators} (w : World) (chain : list TexRef) (r : Tensor)
    (i j : nat) (x1 x2 : Q) :
  specular (self w) = Some chain ->
  (- (2 ^ 127) <= min_roughness (self w))%Q ->
  (f32 (f64 (min_roughness (self w))) < f32 (f64 (max_roughness (self w))))%Q ->
  (2 ^ (-126) <= f32 (f64 (f64 (max_roughness (self w)) - f64 (min_roughness (self w)))))%Q ->
  (2 ^ (-126) <= f32 (f64 (1 - f64 (max_roughness (self w)))))%Q ->
  (2 <= length chain)%nat ->
  Z.of_nat (length chain) < 2 ^ 24 ->
  data r !! i = Some x1 ->
  data r !! j = Some x2 ->
  (x1 <= x2)%Q ->
  let maxr := f64 (max_roughness (self w)) in
  let level :=
    mip_level torch_div (f64 (min_roughness (self w))) maxr (Z.of_nat (length chain)) in
  exists t y1 y2,
    get_mip (Some r) w = (Ok t, w) /\
    shape t = shape r /\
    length (data t) = length (data r) /\
    data t !! i = Some y1 /\
    data t !! j = Some y2 /\
    ((x2 < f32 maxr \/ f32 maxr <= x1)%Q -> (y1 <= y2)%Q) /\
    ((1 <= x2)%Q -> (y2 == level 1)%Q).
Proof.
  intros Hs _ Hmin Hlow Hhigh HL HM Hi Hj Hx maxr level.
  assert (HL' : 0 <= Z.of_nat (length chain) < 2 ^ 24) by lia.
  eexists. eexists. eexists.
  split.
  { unfold get_mip, bind, attr. rewrite (specular_len_eval _ _ Hs). reflexivity. }
  simpl. split; [reflexivity|]. split; [apply length_map|].
  split; [rewrite list_lookup_fmap, Hi; reflexivity|].
  split; [rewrite list_lookup_fmap, Hj; reflexivity|].
  split.
  - intros Hside. apply mip_level_monotone; auto. lia.
  - intros H1. apply mip_level_above_one; assumption.
Qed.

(** ** Composing rolls *)

Lemma fold_right_mul_nonneg (l : list Z) :
  Forall (fun d => 0 <= d) l -> 0 <= fold_right Z.mul 1 l.
Proof.
  induction 1 as [|d l Hd Hl IH]; simpl; [lia|]. apply Z.mul_nonneg_nonneg; assumption.
Qed.

(** A position decomposes into row, column and channel. *)
Lemma flat_decompose (d1 inner k : Z) :
  0 < d1 -> 0 < inner -> 0 <= k ->
  exists i j c,
    0 <= i /\ 0 <= j < d1 /\ 0 <= c < inner /\ k = flat_index d1 inner i j c /\
    i = k / (d1 * inner).
Proof.
  intros Hd Hi Hk.
  exists (k / (d1 * inner)), ((k / inner) mod d1), (k mod inner).
  assert (Hrow : 0 < d1 * inner) by nia.
  split; [apply Z.div_pos; lia|].
  split; [apply Z.mod_pos_bound; lia|].
  split; [apply Z.mod_pos_bound; lia|].
  split; [|reflexivity].
  unfold flat_index.
  pose proof (Z.div_mod k (d1 * inner) ltac:(lia)) as Hdm.
  replace (d1 * inner) with (inner * d1) in Hdm at 3 by ring.
  rewrite Z.rem_mul_r in Hdm by lia.
  set (q := k / (d1 * inner)) in *. set (j := (k / inner) mod d1) in *.
  set (c := k mod inner) in *. clearbody q j c.
  rewrite Hdm. ring.
Qed.

Lemma roll_source_range (d0 d1 inner delta k : Z) :
  0 < d1 -> 0 < inner -> 0 <= k < d0 * (d1 * inner) ->
  0 <= roll_source d1 inner delta k < d0 * (d1 * inner).
Proof.
  intros Hd Hi Hk.
  destruct (flat_decompose d1 inner k Hd Hi ltac:(lia)) as (i & j & c & Hi0 & Hj & Hc & -> & Hq).
  rewrite roll_source_flat_start by assumption.
  apply flat_index_bounds; [|apply Z.mod_pos_bound; lia|assumption].
  split; [assumption|]. rewrite Hq. apply Z.div_lt_upper_bound; [nia|lia].
Qed.

Lemma roll_source_compose (d1 inner a b k : Z) :
  0 < d1 -> 0 < inner -> 0 <= k ->
  roll_in_range d1 a -> roll_in_range d1 b -> roll_in_range d1 (a + b) ->
  roll_source d1 inner a (roll_source d1 inner b k) = roll_source d1 inner (a + b) k.
Proof.
  intros Hd Hi Hk Ha Hb Hab.
  destruct (flat_decompose d1 inner k Hd Hi Hk) as (i & j & c & Hi0 & Hj & Hc & -> & _).
  rewrite (roll_source_flat d1 inner b) by assumption.
  rewrite roll_source_flat by (try assumption; apply Z.mod_pos_bound; lia).
  rewrite roll_source_flat by assumption.
  f_equal. rewrite Zminus_mod_idemp_l. f_equal. ring.
Qed.

Lemma roll_source_congr (d1 inner a b k : Z) :
  0 < d1 -> 0 < inner -> 0 <= k ->
  roll_in_range d1 a -> roll_in_range d1 b -> a mod d1 = b mod d1 ->
  roll_source d1 inner a k = roll_source d1 inner b k.
Proof.
  intros Hd Hi Hk Ha Hb Hab.
  destruct (flat_decompose d1 inner k Hd Hi Hk) as (i & j & c & Hi0 & Hj & Hc & -> & _).
  rewrite !roll_source_flat by assumption. f_equal.
  rewrite <- (Zminus_mod_idemp_r j a), <- (Zminus_mod_idemp_r j b), Hab. reflexivity.
Qed.

Lemma roll_source_zero (d1 inner k : Z) :
  0 < d1 -> 0 < inner -> 0 <= k -> roll_in_range d1 0 -> roll_source d1 inner 0 k = k.
Proof.
  intros Hd Hi Hk H0.
  destruct (flat_decompose d1 inner k Hd Hi Hk) as (i & j & c & Hi0 & Hj & Hc & -> & _).
  rewrite roll_source_flat by assumption. f_equal.
  rewrite Z.sub_0_r. apply Z.mod_small. lia.
Qed.

Section RollFacts.
Variables (t : Tensor) (d0 d1 : Z) (rest : list Z).
Hypothesis Hshape : shape t = d0 :: d1 :: rest.
Hypothesis Hwf : tensor_wf t.

Local Abbreviation inner := (fold_right Z.mul 1 rest).

Lemma roll_dims : 0 <= d0 /\ 0 <= d1 /\ 0 <= inner /\
                  length (data t) = Z.to_nat (d0 * (d1 * inner)).
Proof.
  destruct Hwf as [Hnn Hlen]. rewrite Hshape in Hnn, Hlen.
  inversion Hnn as [|? ? H0 Hnn']; subst. inversion Hnn' as [|? ? H1 Hrest]; subst.
  repeat split; try assumption.
  apply fold_right_mul_nonneg, Hrest.
Qed.

Lemma roll_dims_pos : data t <> [] -> 0 < d0 /\ 0 < d1 /\ 0 < inner.
Proof.
  intros Hne. destruct roll_dims as (H0 & H1 & Hi & Hlen).
  assert (Hl : (0 < length (data t))%nat) by (destruct (data t); [contradiction|simpl; lia]).
  rewrite Hlen in Hl.
  assert (0 < d0 * (d1 * inner)) by lia. nia.
Qed.

(** Reading the rolled tensor at a position is reading the tensor at the
    source of that position. *)
Lemma torch_roll1_lookup (delta : Z) (k : nat) :
  is_int64 delta = true ->
  (k < length (data t))%nat ->
  exists img,
    torch_roll1 t delta = Ok img /\ shape img = shape t /\
    length (data img) = length (data t) /\
    data img !! k = data t !! Z.to_nat (roll_source d1 inner delta (Z.of_nat k)) /\
    (Z.to_nat (roll_source d1 inner delta (Z.of_nat k)) < length (data t))%nat.
Proof.
  intros Hint Hk. unfold torch_roll1. rewrite Hint, Hshape. cbn [negb].
  eexists. split; [reflexivity|]. simpl. split; [auto|]. split; [apply length_imap|].
  assert (Hne : data t <> []) by (intros E; rewrite E in Hk; simpl in Hk; lia).
  destruct (roll_dims_pos Hne) as (H0 & H1 & Hi).
  destruct roll_dims as (_ & _ & _ & Hlen).
  pose proof (roll_source_range d0 d1 inner delta (Z.of_nat k) H1 Hi ltac:(lia)) as Hr.
  assert (Hsrc : (Z.to_nat (roll_source d1 inner delta (Z.of_nat k)) < length (data t))%nat)
    by lia.
  split; [|exact Hsrc].
  rewrite list_lookup_imap.
  destruct (lookup_lt_is_Some_2 _ _ Hk) as [x Hx].
  destruct (lookup_lt_is_Some_2 _ _ Hsrc) as [y Hy].
  rewrite Hx, Hy. reflexivity.
Qed.

Lemma torch_roll1_Ok (delta : Z) :
  is_int64 delta = true ->
  exists img, torch_roll1 t delta = Ok img /\ shape img = shape t /\
              length (data img) = length (data t).
Proof.
  intros Hint. unfold torch_roll1. rewrite Hint, Hshape. cbn [negb].
  eexists. split; [reflexivity|].
  split; [auto|apply length_imap].
Qed.

End RollFacts.

Lemma torch_roll1_wf t delta img :
  tensor_wf t -> torch_roll1 t delta = Ok img -> tensor_wf img.
Proof.
  intros [Hnn Hlen]. unfold torch_roll1.
  destruct (is_int64 delta); [cbn [negb]|discriminate].
  destruct (shape t) as [|d0 [|d1 rest]] eqn:Hs; try discriminate.
  intros [= <-]. split; simpl; [exact Hnn|].
  rewrite length_imap. exact Hlen.
Qed.

Lemma torch_roll1_shape t delta img :
  torch_roll1 t delta = Ok img ->
  is_int64 delta = true /\ exists d0 d1 rest, shape t = d0 :: d1 :: rest.
Proof.
  unfold torch_roll1. destruct (is_int64 delta); [cbn [negb]|discriminate].
  destruct (shape t) as [|d0 [|d1 rest]]; try discriminate. eauto.
Qed.

Lemma tensor_eq (t u : Tensor) : shape t = shape u -> data t = data u -> t = u.
Proof. destruct t, u; simpl; intros -> ->; reflexivity. Qed.

(** Two rolls are one roll by the sum. *)
Lemma torch_roll1_compose (t img : Tensor) (a b d0 d1 : Z) (rest : list Z) :
  tensor_wf t -> shape t = d0 :: d1 :: rest ->
  roll_in_range d1 a -> roll_in_range d1 b -> roll_in_range d1 (a + b) ->
  torch_roll1 t a = Ok img -> torch_roll1 img b = torch_roll1 t (a + b).
Proof.
  intros Hwf Hs Hra Hrb Hrab Ha.
  pose proof (torch_roll1_wf _ _ _ Hwf Ha) as Hwf'.
  destruct (roll_dims t d0 d1 rest Hs Hwf) as (_ & Hd1 & _ & Hlen).
  pose proof (roll_in_range_int64 d1 a Hd1 Hra) as Hia.
  pose proof (roll_in_range_int64 d1 b Hd1 Hrb) as Hib.
  pose proof (roll_in_range_int64 d1 (a + b) Hd1 Hrab) as Hiab.
  destruct (torch_roll1_Ok t d0 d1 rest Hs a Hia) as (img' & Ha' & Hsa & Hla).
  rewrite Ha in Ha'. injection Ha' as <-.
  assert (Hs' : shape img = d0 :: d1 :: rest) by congruence.
  destruct (torch_roll1_Ok img d0 d1 rest Hs' b Hib) as (u & Hu & Hsu & Hlu).
  destruct (torch_roll1_Ok t d0 d1 rest Hs (a + b) Hiab) as (v & Hv & Hsv & Hlv).
  rewrite Hu, Hv. f_equal. apply tensor_eq; [congruence|].
  apply list_eq. intros k.
  destruct (decide (k < length (data t))%nat) as [Hk|Hk].
  - assert (Hk' : (k < length (data img))%nat) by (rewrite Hla; exact Hk).
    destruct (torch_roll1_lookup img d0 d1 rest Hs' Hwf' b k Hib Hk')
      as (u' & Hu' & _ & _ & Hlk & Hsrc).
    rewrite Hu in Hu'. injection Hu' as <-. rewrite Hlk.
    rewrite Hla in Hsrc.
    destruct (torch_roll1_lookup t d0 d1 rest Hs Hwf a _ Hia Hsrc)
      as (i' & Hi' & _ & _ & Hlk2 & _).
    rewrite Ha in Hi'. injection Hi' as <-. rewrite Hlk2.
    destruct (torch_roll1_lookup t d0 d1 rest Hs Hwf (a + b) k Hiab Hk)
      as (v' & Hv' & _ & _ & Hlk3 & _).
    rewrite Hv in Hv'. injection Hv' as <-. rewrite Hlk3.
    assert (Hne : data t <> []) by (intros E; rewrite E in Hk; simpl in Hk; lia).
    destruct (roll_dims_pos t d0 d1 rest Hs Hwf Hne) as (H0 & H1 & Hi).
    pose proof (roll_source_range d0 d1 _ b (Z.of_nat k) H1 Hi ltac:(lia)) as Hr.
    rewrite Z2Nat.id by lia.
    rewrite roll_source_compose by (assumption || lia). reflexivity.
  - rewrite !lookup_ge_None_2 by lia. reflexivity.
Qed.

(** Shifts that agree modulo the width give the same roll. *)
Lemma torch_roll1_congr (t : Tensor) (d0 d1 : Z) (rest : list Z) (a b : Z) :
  tensor_wf t -> shape t = d0 :: d1 :: rest ->
  roll_in_range d1 a -> roll_in_range d1 b ->
  a mod d1 = b mod d1 -> torch_roll1 t a = torch_roll1 t b.
Proof.
  intros Hwf Hs Hra Hrb Hab.
  destruct (roll_dims t d0 d1 rest Hs Hwf) as (_ & Hd1 & _ & _).
  pose proof (roll_in_range_int64 d1 a Hd1 Hra) as Hia.
  pose proof (roll_in_range_int64 d1 b Hd1 Hrb) as Hib.
  destruct (torch_roll1_Ok t d0 d1 rest Hs a Hia) as (u & Hu & Hsu & Hlu).
  destruct (torch_roll1_Ok t d0 d1 rest Hs b Hib) as (v & Hv & Hsv & Hlv).
  rewrite Hu, Hv. f_equal. apply tensor_eq; [congruence|].
  apply list_eq. intros k.
  destruct (decide (k < length (data t))%nat) as [Hk|Hk].
  - destruct (torch_roll1_lookup t d0 d1 rest Hs Hwf a k Hia Hk) as (u' & Hu' & _ & _ & Hlk & _).
    rewrite Hu in Hu'. injection Hu' as <-. rewrite Hlk.
    destruct (torch_roll1_lookup t d0 d1 rest Hs Hwf b k Hib Hk) as (v' & Hv' & _ & _ & Hlk2 & _).
    rewrite Hv in Hv'. injection Hv' as <-. rewrite Hlk2.
    assert (Hne : data t <> []) by (intros E; rewrite E in Hk; simpl in Hk; lia).
    destruct (roll_dims_pos t d0 d1 rest Hs Hwf Hne) as (H0 & H1 & Hi).
    rewrite (roll_source_congr d1 _ a b) by (assumption || lia). reflexivity.
  - rewrite !lookup_ge_None_2 by lia. reflexivity.
Qed.

(** A roll by zero changes nothing. *)
Lemma torch_roll1_zero (t : Tensor) (d0 d1 : Z) (rest : list Z) :
  tensor_wf t -> shape t = d0 :: d1 :: rest -> roll_in_range d1 0 -> torch_roll1 t 0 = Ok t.
Proof.
  intros Hwf Hs Hr0.
  destruct (torch_roll1_Ok t d0 d1 rest Hs 0 eq_refl) as (u & Hu & Hsu & Hlu).
  rewrite Hu. f_equal. apply tensor_eq; [exact Hsu|].
  apply list_eq. intros k.
  destruct (decide (k < length (data t))%nat) as [Hk|Hk].
  - destruct (torch_roll1_lookup t d0 d1 rest Hs Hwf 0 k eq_refl Hk)
      as (u' & Hu' & _ & _ & Hlk & _).
    rewrite Hu in Hu'. injection Hu' as <-. rewrite Hlk.
    assert (Hne : data t <> []) by (intros E; rewrite E in Hk; simpl in Hk; lia).
    destruct (roll_dims_pos t d0 d1 rest Hs Hwf Hne) as (H0 & H1 & Hi).
    rewrite roll_source_zero by (assumption || lia). rewrite Nat2Z.id. reflexivity.
  - rewrite !lookup_ge_None_2 by lia. reflexivity.
Qed.

Lemma roll_in_range_multiple d1 n :
  0 <= d1 -> roll_in_range d1 (n * d1) -> roll_in_range d1 0.
Proof. unfold roll_in_range. intros Hd [Hlo Hhi]. nia. Qed.

Lemma roll_in_range_opp d1 delta :
  0 <= d1 -> roll_in_range d1 delta -> roll_in_range d1 (- delta) -> roll_in_range d1 0.
Proof. unfold roll_in_range. intros Hd [Hlo Hhi] [Hlo' Hhi']. lia. Qed.

(** ** Rotating the light *)

Section Rotation.
Context `{Collaborators}.

Lemma update_light_Ok_inv delta w w1 cached :
  base_image (self w) = Some cached ->
  update_light delta w = (Ok tt, w1) ->
  exists img cubemap,
    torch_roll1 cached delta = Ok img /\
    latlong_to_cubemap img [max_res (self w); max_res (self w)] (device (self w)) = Ok cubemap /\
    w1 = upd (with_base_data cubemap) (upd (with_base_image img) w).
Proof.
  intros Hb. rewrite update_light_eval, Hb.
  destruct (torch_roll1 cached delta) as [img|e|]; try discriminate. simpl.
  destruct (latlong_to_cubemap _ _ _) as [cubemap|e|] eqn:Hc; try discriminate.
  intros [= <-]. exists img, cubemap. repeat split. exact Hc.
Qed.

End Rotation.

(** X3.  Rotations accumulate, as long as no shift leaves the range in
    which [torch.roll] computes without overflow ([-2^63 < s - d1] and
    [s + d1 < 2^63] for each of the shifts [s = a], [b] and [a + b], [d1]
    being the width of the cached image): after [update_light(a)] has
    returned, [update_light(b)] does what [update_light(a + b)] would have
    done on the object before the first call: the same outcome and the same
    cached image, and when it returns, the same object. *)
Theorem update_light_accumulates `{Collaborators} (a b : Z) (w w1 : World)
    (cached : Tensor) (d0 d1 : Z) (rest : list Z) :
  base_image (self w) = Some cached ->
  tensor_wf cached ->
  shape cached = d0 :: d1 :: rest ->
  roll_in_range d1 a -> roll_in_range d1 b -> roll_in_range d1 (a + b) ->
  update_light a w = (Ok tt, w1) ->
  fst (update_light b w1) = fst (update_light (a + b) w) /\
  base_image (self (snd (update_light b w1))) =
    base_image (self (snd (update_light (a + b) w))) /\
  (is_ok (fst (update_light b w1)) = true -> update_light b w1 = update_light (a + b) w).
Proof.
  intros Hb Hwf Hs Hra Hrb Hrab Ha.
  destruct (update_light_Ok_inv a w w1 cached Hb Ha) as (img & cube & Hr & Hc & ->).
  rewrite !update_light_eval. simpl. rewrite Hb.
  rewrite (torch_roll1_compose cached img a b d0 d1 rest Hwf Hs Hra Hrb Hrab Hr).
  destruct (roll_dims cached d0 d1 rest Hs Hwf) as (_ & Hd1 & _ & _).
  destruct (torch_roll1_Ok cached d0 d1 rest Hs (a + b) (roll_in_range_int64 _ _ Hd1 Hrab))
    as (img2 & -> & _). simpl.
  destruct (latlong_to_cubemap img2 _ _) as [cube2|e|]; simpl;
    split; try reflexivity; split; try reflexivity; intros; discriminate.
Qed.

(** X4.  A full turn is no turn: the shift of [update_light] counts modulo
    the width [d1] of the cached image, for shifts in the range in which
    [torch.roll] computes without overflow ([-2^63 < s - d1] and
    [s + d1 < 2^63]).  [update_light(delta + n * d1)] does what
    [update_light(delta)] does; a shift by [n * d1] (zero included) leaves
    the cached image as it is; and [update_light(-delta)] after a returned
    [update_light(delta)] restores the cached image. *)
Theorem update_light_full_turn `{Collaborators} (delta n : Z) (w : World)
    (cached : Tensor) (d0 d1 : Z) (rest : list Z) :
  base_image (self w) = Some cached ->
  tensor_wf cached ->
  shape cached = d0 :: d1 :: rest ->
  (roll_in_range d1 delta -> roll_in_range d1 (delta + n * d1) ->
   update_light (delta + n * d1) w = update_light delta w) /\
  (roll_in_range d1 (n * d1) ->
   base_image (self (snd (update_light (n * d1) w))) = Some cached) /\
  (roll_in_range d1 delta -> roll_in_range d1 (- delta) ->
   forall w1, update_light delta w = (Ok tt, w1) ->
     base_image (self (snd (update_light (- delta) w1))) = Some cached).
Proof.
  intros Hb Hwf Hs.
  destruct (roll_dims cached d0 d1 rest Hs Hwf) as (_ & Hd1 & _ & _).
  split; [|split].
  - intros Hr1 Hr2. rewrite !update_light_eval, Hb.
    rewrite (torch_roll1_congr cached d0 d1 rest (delta + n * d1) delta Hwf Hs Hr2 Hr1)
      by apply Z_mod_plus_full.
    reflexivity.
  - intros Hr. pose proof (roll_in_range_multiple d1 n Hd1 Hr) as Hr0.
    rewrite update_light_eval, Hb.
    rewrite (torch_roll1_congr cached d0 d1 rest (n * d1) 0 Hwf Hs Hr Hr0)
      by (rewrite <- (Z.add_0_l (n * d1)); apply Z_mod_plus_full).
    rewrite (torch_roll1_zero cached d0 d1 rest Hwf Hs Hr0). simpl.
    destruct (latlong_to_cubemap _ _ _); reflexivity.
  - intros Hr1 Hr2 w1 Hd.
    pose proof (roll_in_range_opp d1 delta Hd1 Hr1 Hr2) as Hr0.
    destruct (update_light_Ok_inv delta w w1 cached Hb Hd) as (img & cube & Hr & Hc & ->).
    clear Hc Hd. rewrite update_light_eval. simpl.
    assert (Hsum : roll_in_range d1 (delta + - delta))
      by (replace (delta + - delta) with 0 by ring; exact Hr0).
    rewrite (torch_roll1_compose cached img delta (- delta) d0 d1 rest Hwf Hs Hr1 Hr2 Hsum Hr).
    replace (delta + - delta) with 0 by ring.
    rewrite (torch_roll1_zero cached d0 d1 rest Hwf Hs Hr0). simpl.
    destruct (latlong_to_cubemap _ _ _); reflexivity.
Qed.

(** X5.  [gen_base_image] is what gives [update_light] its image: it
    caches the latlong projection of the current base and changes nothing
    else (nothing at all when the projection raises), and an
    [update_light(delta)] after it leaves in the cache that projection
    rolled by [delta], with the outcome of re-projecting the rolled image. *)
Theorem gen_base_image_then_update_light `{Collaborators} (delta : Z) (w : World) :
  match cubemap_to_latlong (pdata (base (self w))) [2048; 4096] with
  | Ok img =>
      gen_base_image w = (Ok tt, upd (with_base_image img) w) /\
      match torch_roll1 img delta with
      | Ok rolled =>
          base_image (self (snd ((gen_base_image ;; update_light delta) w))) = Some rolled /\
          fst ((gen_base_image ;; update_light delta) w) =
            match latlong_to_cubemap rolled [max_res (self w); max_res (self w)]
                    (device (self w)) with
            | Ok _ => Ok tt
            | Raise e => Raise e
            | OutOfFuel => OutOfFuel
            end /\
          (forall cubemap,
             latlong_to_cubemap rolled [max_res (self w); max_res (self w)] (device (self w))
               = Ok cubemap ->
             pdata (base (self (snd ((gen_base_image ;; update_light delta) w)))) = cubemap)
      | Raise e => (gen_base_image ;; update_light delta) w = (Raise e, upd (with_base_image img) w)
      | OutOfFuel => True
      end
  | Raise e => gen_base_image w = (Raise e, w)
  | OutOfFuel => gen_base_image w = (OutOfFuel, w)
  end /\
  base (self (snd (gen_base_image w))) = base (self w) /\
  specular (self (snd (gen_base_image w))) = specular (self w) /\
  diffuse (self (snd (gen_base_image w))) = diffuse (self w) /\
  lookups (snd (gen_base_image w)) = lookups w.
Proof.
  assert (Hg : gen_base_image w =
               match cubemap_to_latlong (pdata (base (self w))) [2048; 4096] with
               | Ok img => (Ok tt, upd (with_base_image img) w)
               | Raise e => (Raise e, w)
               | OutOfFuel => (OutOfFuel, w)
               end).
  { unfold gen_base_image, bind, attr, lift, modify.
    destruct (cubemap_to_latlong _ _); reflexivity. }
  split.
  - destruct (cubemap_to_latlong _ _) as [img|e|] eqn:Hc; try exact Hg.
    split; [exact Hg|].
    unfold bind at 1 2 3 4. rewrite Hg. rewrite !update_light_eval. simpl.
    destruct (torch_roll1 img delta) as [rolled|e|]; simpl; [|reflexivity|exact I].
    destruct (latlong_to_cubemap rolled _ _) as [cube|e|]; simpl.
    + split; [reflexivity|]. split; [reflexivity|]. intros c [= <-]. reflexivity.
    + split; [reflexivity|]. split; [reflexivity|]. intros c [=].
    + split; [reflexivity|]. split; [reflexivity|]. intros c [=].
  - rewrite Hg. destruct (cubemap_to_latlong _ _); repeat split.
Qed.

(** ** What a returned query looks like *)

Lemma reshape_infer_Ok t pre post t' :
  reshape_infer t pre post = Ok t' ->
  exists c, shape t' = pre ++ c :: post /\ data t' = data t.
Proof.
  unfold reshape_infer. destruct (_ || _); [discriminate|].
  intros [= <-]. eexists. split; reflexivity.
Qed.

Section Returned.
Context `{Collaborators}.

Lemma forward_diffuse_Ok l w light w' :
  _forward_diffuse l w = (Ok light, w') ->
  w' = {| self := self w; lookups := lookups w ++ [Linear] |} /\
  exists c, shape light = shape_prefix l ++ [c].
Proof.
  unfold _forward_diffuse, bind.
  destruct ((if decide (length (shape_prefix l) = 3%nat) then ret l else to_grid l) w)
    as [[l'| |] w0] eqn:Hg; try discriminate.
  assert (w0 = w) as ->.
  { destruct (decide _); [injection Hg as _ <-; reflexivity|].
    destruct (to_grid_cases l w) as [[x Hx]|[x Hx]]; rewrite Hx in Hg; congruence. }
  unfold getattr, texture, lift. destruct (diffuse (self w)) as [d|]; [|discriminate].
  destruct (reshape_infer _ _ _) as [t'| |] eqn:Hr; try discriminate.
  intros [= <- <-]. split; [reflexivity|].
  destruct (reshape_infer_Ok _ _ _ _ Hr) as (c & Hc & _). exists c. exact Hc.
Qed.

Lemma forward_specular_Ok l r w light w' :
  _forward_specular l r w = (Ok light, w') ->
  w' = {| self := self w; lookups := lookups w ++ [LinearMipmapLinear] |} /\
  (exists c, shape light = shape_prefix l ++ [c]) /\
  exists rt, r = Some rt.
Proof.
  destruct r as [rt|].
  2:{ destruct (forward_specular_None l w) as (e & -> & _). discriminate. }
  unfold _forward_specular. unfold bind at 1.
  match goal with |- context [match ?m w with _ => _ end] =>
    destruct (m w) as [[[l' r']| |] w0] eqn:Hg; try discriminate;
    assert (w0 = w) as ->
  end.
  { destruct (decide _); [injection Hg as _ _ <-; reflexivity|].
    unfold bind in Hg. destruct (to_grid_cases l w) as [[x Hx]|[x Hx]]; rewrite Hx in Hg;
      [|discriminate].
    unfold lift, ret in Hg. destruct (reshape_infer rt [1; 1] [1]); simpl in Hg; congruence. }
  clear Hg.
  unfold bind at 1.
  destruct (get_mip r' w) as [[miplevel| |] w0] eqn:Hm; try discriminate.
  pose proof (reads_get_mip r' w) as Hrm. rewrite Hm in Hrm. simpl in Hrm. subst w0.
  unfold bind at 1.
  destruct (specular_getitem 0 w) as [[s0| |] w0] eqn:Hs0; try discriminate.
  pose proof (reads_specular_getitem 0 w) as Hr0. rewrite Hs0 in Hr0. simpl in Hr0. subst w0.
  unfold bind at 1.
  destruct (specular_tail w) as [[mips| |] w0] eqn:Hst; try discriminate.
  pose proof (reads_specular_tail w) as Hrt. rewrite Hst in Hrt. simpl in Hrt. subst w0.
  unfold bind, lift, texture.
  destruct (select_last0 miplevel) as [bias| |]; try discriminate.
  destruct (reshape_infer (dr_texture _ _ _ _ _) _ _) as [t'| |] eqn:Hr; try discriminate.
  intros [= <- <-]. split; [reflexivity|]. split; [|eauto].
  destruct (reshape_infer_Ok _ _ _ _ Hr) as (c & Hc & _). exists c. exact Hc.
Qed.

End Returned.

(** X6.  A query that returns has made exactly two texture lookups, the
    diffuse one and then the specular one; each of the two results has the
    leading (batch) sizes of its direction tensor followed by one more
    size; the roughness was not [None]; and the base Parameter is the one
    from before the call. *)
Theorem call_returns `{Collaborators} (fuel : nat) (n l : Tensor) (r : option Tensor)
    (w w' : World) (d s : Tensor) :
  __call__ fuel n l r w = (Ok (d, s), w') ->
  lookups w' = lookups w ++ [Linear; LinearMipmapLinear] /\
  (exists c, shape d = shape_prefix n ++ [c]) /\
  (exists c, shape s = shape_prefix l ++ [c]) /\
  (exists rt, r = Some rt) /\
  base (self w') = base (self w).
Proof.
  change (__call__ fuel n l r w) with
    ((tr <- attr trainable ;;
      (if tr then build_mips fuel default_cutoff else ret tt) ;;
      sample_both n l r) w).
  unfold bind at 1. unfold attr. unfold bind at 1.
  destruct ((if trainable (self w) then build_mips fuel default_cutoff else ret tt) w)
    as [[[]| |] w0] eqn:Hpre; try discriminate.
  assert (Hfr : lookups w0 = lookups w /\ base (self w0) = base (self w)).
  { destruct (trainable (self w)).
    - pose proof (build_mips_keeps_lookups fuel default_cutoff w) as Hk.
      pose proof (build_mips_same_inputs fuel default_cutoff w) as [Hb _].
      rewrite Hpre in Hk, Hb. simpl in Hk, Hb. split; congruence.
    - injection Hpre as <-. split; reflexivity. }
  destruct Hfr as [Hlk Hbase].
  unfold sample_both. unfold bind at 1.
  destruct (_forward_diffuse n w0) as [[d'| |] w1] eqn:Hd; try discriminate.
  destruct (forward_diffuse_Ok _ _ _ _ Hd) as (-> & Hsd).
  unfold bind at 1.
  destruct (_forward_specular l r _) as [[s'| |] w2] eqn:Hs; try discriminate.
  destruct (forward_specular_Ok _ _ _ _ _ Hs) as (-> & Hss & Hr).
  intros [= <- <- <-]. simpl.
  split; [rewrite Hlk, <- app_assoc; reflexivity|].
  split; [exact Hsd|]. split; [exact Hss|]. split; [exact Hr|exact Hbase].
Qed.

(** ** Rebuilding twice *)

Section Rebuild.
Context `{Collaborators}.

(** The attributes [build_mips] never writes. *)
Lemma build_mips_frame fuel cutoff w :
  let w1 := snd (build_mips fuel cutoff w) in
  device (self w1) = device (self w) /\
  scale (self w1) = scale (self w) /\
  max_res (self w1) = max_res (self w) /\
  trainable (self w1) = trainable (self w) /\
  base_image (self w1) = base_image (self w) /\
  lookups w1 = lookups w.
Proof.
  apply (invariant_build_mips
           (fun w' => device (self w') = device (self w) /\
                      scale (self w') = scale (self w) /\
                      max_res (self w') = max_res (self w) /\
                      trainable (self w') = trainable (self w) /\
                      base_image (self w') = base_image (self w) /\
                      lookups w' = lookups w)).
  - intros w' t Hw'. exact Hw'.
  - intros w' l Hw'. exact Hw'.
  - repeat split.
Qed.

Lemma EnvLight_eq (e e' : EnvLight) :
  device e = device e' -> scale e = scale e' -> min_res e = min_res e' ->
  max_res e = max_res e' -> min_roughness e = min_roughness e' ->
  max_roughness e = max_roughness e' -> trainable e = trainable e' ->
  base e = base e' -> base_image e = base_image e' -> specular e = specular e' ->
  diffuse e = diffuse e' -> e = e'.
Proof. destruct e, e'; simpl; intros; subst; reflexivity. Qed.

(** A build from an object that holds the result of a returned build gives
    that object again. *)
Lemma build_mips_rebuild fuel cutoff w w1 w' :
  build_mips fuel cutoff w = (Ok tt, w1) -> self w' = self w1 ->
  exists w2, build_mips fuel cutoff w' = (Ok tt, w2) /\
             self w2 = self w1 /\ lookups w2 = lookups w'.
Proof.
  intros Hb Hself.
  assert (Hin : same_inputs w w').
  { pose proof (build_mips_same_inputs fuel cutoff w) as Hi. rewrite Hb in Hi.
    unfold same_inputs in *. rewrite Hself. exact Hi. }
  destruct (determined_build_mips fuel cutoff w w' Hin) as [Ho Hr].
  pose proof (build_mips_frame fuel cutoff w') as Hf.
  rewrite Hb in Ho, Hr. simpl in Ho, Hr. specialize (Hr eq_refl).
  destruct (build_mips fuel cutoff w') as [o2 w2]. simpl in Ho, Hr, Hf. subst o2.
  exists w2. split; [reflexivity|].
  destruct Hr as [[(Hbase & Hmin & Hminr & Hmaxr) Hsp] Hdf].
  destruct Hf as (Hdev & Hsc & Hmax & Htr & Himg & Hlk).
  split; [|exact Hlk].
  rewrite Hself in Hdev, Hsc, Hmax, Htr, Himg.
  apply EnvLight_eq; congruence.
Qed.

End Rebuild.

(** X7.  [build_mips] is idempotent: after a build that returned, a second
    build with the same cutoff returns and leaves the object exactly as it
    is, base, cached image, chain, diffuse map and configuration. *)
Theorem build_mips_idempotent `{Collaborators} (fuel : nat) (cutoff : Q) (w w1 : World) :
  build_mips fuel cutoff w = (Ok tt, w1) ->
  build_mips fuel cutoff w1 = (Ok tt, w1).
Proof.
  intros Hb.
  destruct (build_mips_rebuild fuel cutoff w w1 w1 Hb eq_refl) as (w2 & Hb2 & Hs & Hl).
  rewrite Hb2. f_equal. destruct w2, w1. simpl in *. congruence.
Qed.

(** X8.  A query that returned can be repeated: the same query on the
    object it left gives the same pair of results and changes no attribute,
    on a trainable object (which rebuilds its mip chain a second time) as
    on a fixed one. *)
Theorem call_repeatable `{Collaborators} (fuel : nat) (n l : Tensor) (r : option Tensor)
    (w wq : World) (p : Tensor * Tensor) :
  __call__ fuel n l r w = (Ok p, wq) ->
  fst (__call__ fuel n l r wq) = Ok p /\
  self (snd (__call__ fuel n l r wq)) = self wq.
Proof.
  intros Hq.
  assert (Hsame : forall w1 w2, self w1 = self w2 -> same_derived w1 w2).
  { intros w1 w2 E. unfold same_derived, same_chain, same_inputs. rewrite E. repeat split. }
  destruct (trainable (self w)) eqn:Ht.
  - rewrite (call_trainable _ _ _ _ _ Ht) in Hq. unfold bind in Hq.
    destruct (build_mips fuel default_cutoff w) as [[[]| |] wb] eqn:Hb; try discriminate.
    assert (Hsq : self wq = self wb).
    { pose proof (sample_both_keeps_self n l r wb) as Hk. rewrite Hq in Hk. exact Hk. }
    assert (Htq : trainable (self wq) = true).
    { rewrite Hsq. pose proof (build_mips_keeps_trainable fuel default_cutoff w) as Hk.
      rewrite Hb in Hk. simpl in Hk. congruence. }
    rewrite (call_trainable _ _ _ _ _ Htq).
    destruct (build_mips_rebuild fuel default_cutoff w wb wq Hb Hsq) as (w2 & Hb2 & Hs & _).
    rewrite (bind_Ok _ _ _ _ _ Hb2). split.
    + transitivity (fst (sample_both n l r wb)); [|rewrite Hq; reflexivity].
      apply (determined_sample_both same_derived n l r same_derived_sampling), Hsame, Hs.
    + rewrite sample_both_keeps_self. congruence.
  - rewrite (call_fixed _ _ _ _ _ Ht) in Hq.
    assert (Hsq : self wq = self w).
    { pose proof (sample_both_keeps_self n l r w) as Hk. rewrite Hq in Hk. exact Hk. }
    assert (Htq : trainable (self wq) = false) by (rewrite Hsq; exact Ht).
    rewrite (call_fixed _ _ _ _ _ Htq). split.
    + transitivity (fst (sample_both n l r w)); [|rewrite Hq; reflexivity].
      apply (determined_sample_both same_derived n l r same_derived_sampling), Hsame, Hsq.
    + apply sample_both_keeps_self.
Qed.

(** ** The chain for any resolution *)

Section AnyResolution.
Context `{Collaborators}.

Hypothesis Hhalf : mip_halves.

(** The [while] loop from a level of resolution [r >= 0] with
    [min_res >= 0]: it stops after [k] downsamplings, [k] the first
    exponent with [r / 2^k <= min_res]. *)
Lemma mip_loop_general (fuel : nat) :
  forall w pre top r,
    specular (self w) = Some (pre ++ [top]) ->
    face_res (deref (self w) top) = Some r ->
    0 <= min_res (self w) ->
    (Z.to_nat r < fuel)%nat ->
    exists k,
      mip_loop fuel w =
        (Ok tt, upd (with_specular (pre ++ top :: map Detached (mips_of k (deref (self w) top)))) w) /\
      r / 2 ^ Z.of_nat k <= min_res (self w) /\
      (forall i, (i < k)%nat -> min_res (self w) < r / 2 ^ Z.of_nat i).
Proof.
  induction fuel as [|fuel IH]; intros w pre top r Hs Hr Hm Hfuel; [lia|].
  simpl mip_loop.
  rewrite (bind_Ok _ _ _ _ _ (specular_getitem_last_eval _ _ _ Hs)).
  unfold bind at 1. unfold lift. rewrite (shape_at_eval _ _ Hr).
  unfold bind at 1. unfold attr at 1.
  destruct (r >? min_res (self w)) eqn:Hgt.
  - rewrite Z.gtb_ltb in Hgt. apply Z.ltb_lt in Hgt.
    rewrite (bind_Ok _ _ _ _ _ (specular_getitem_last_eval _ _ _ Hs)).
    rewrite (bind_Ok _ _ _ _ _ (specular_append_eval _ _ _ Hs)).
    assert (Hhalf2 : 0 <= r / 2 < r) by (split; [apply Z.div_pos; lia|apply Z.div_lt; lia]).
    destruct (IH (upd (with_specular ((pre ++ [top]) ++ [Detached (cubemap_mip (deref (self w) top))])) w)
                 (pre ++ [top]) (Detached (cubemap_mip (deref (self w) top))) (r / 2))
      as (k & Hk & Hle & Hlt).
    + reflexivity.
    + simpl. apply Hhalf, Hr.
    + exact Hm.
    + lia.
    + exists (S k). simpl in Hk, Hle, Hlt. split; [|split].
      * rewrite Hk. simpl. rewrite <- app_assoc. reflexivity.
      * rewrite Nat2Z.inj_succ, Z.pow_succ_r, <- Z.div_div by (try lia; apply Z.pow_pos_nonneg; lia).
        exact Hle.
      * intros [|i] Hi; [simpl; rewrite Z.div_1_r; exact Hgt|].
        rewrite Nat2Z.inj_succ, Z.pow_succ_r, <- Z.div_div by (try lia; apply Z.pow_pos_nonneg; lia).
        apply Hlt. lia.
  - rewrite Z.gtb_ltb in Hgt. apply Z.ltb_ge in Hgt.
    exists 0%nat. simpl. rewrite (upd_with_specular_same _ _ Hs). split; [reflexivity|].
    split; [rewrite Z.div_1_r; exact Hgt|intros i Hi; lia].
Qed.

End AnyResolution.


Lemma any_resolution_outcome `{Collaborators} (Hhalf : mip_halves) (w : World) (r : Z)
    (fuel : nat) (cutoff : Q) :
  face_res (pdata (base (self w))) = Some r ->
  0 <= min_res (self w) ->
  (Z.to_nat r < fuel)%nat ->
  exists k,
    build_chain fuel w =
      (Ok tt, upd (with_specular
                     (BaseParam :: map Detached (mips_of k (pdata (base (self w)))))) w) /\
    r / 2 ^ Z.of_nat k <= min_res (self w) /\
    (forall i, (i < k)%nat -> min_res (self w) < r / 2 ^ Z.of_nat i) /\
    fst (build_mips fuel cutoff w) =
      (if decide (k = 1%nat) then Raise ZeroDivisionError else Ok tt) /\
    length <$> specular (self (snd (build_mips fuel cutoff w))) = Some (S k).
Proof.
  intros Hr Hm Hfuel.
  destruct (mip_loop_general Hhalf fuel (upd (with_specular [BaseParam]) w) [] BaseParam r
              eq_refl Hr Hm Hfuel) as (k & Hk & Hle & Hlt).
  exists k. simpl in Hk, Hle, Hlt.
  set (chain := BaseParam :: map Detached (mips_of k (pdata (base (self w))))) in *.
  assert (Hchain : build_chain fuel w = (Ok tt, upd (with_specular chain) w)).
  { unfold build_chain, specular_init. erewrite bind_Ok by reflexivity. exact Hk. }
  assert (Hlen : length chain = S k).
  { unfold chain. simpl. rewrite length_map, length_mips_of. reflexivity. }
  split; [exact Hchain|]. split; [exact Hle|]. split; [exact Hlt|].
  set (w1 := upd (with_specular chain) w).
  assert (Hs : specular (self w1) = Some chain) by reflexivity.
  destruct (last chain) as [top|] eqn:Hl.
  2:{ apply last_None in Hl. discriminate. }
  unfold build_mips. rewrite (bind_Ok _ _ _ _ _ Hchain). fold w1. split.
  - destruct (decide (k = 1%nat)) as [->|Hk1].
    + rewrite (filter_chain_two_levels cutoff w1 chain top Hs Hl Hlen). reflexivity.
    + rewrite (filter_chain_eval cutoff w1 chain top Hs Hl) by lia. reflexivity.
  - apply filter_chain_keeps_length.
    change (Some (length chain) = Some (S k)). rewrite Hlen. reflexivity.
Qed.

(** X9.  For a base of any face resolution [r] and any [min_res >= 0], and
    a [cubemap_mip] that halves the face resolution, the [while] loop of
    [build_mips] terminates (fuel above [r] is enough): it downsamples [k]
    times, [k] being the first exponent with [r / 2^k <= min_res], so the
    chain has [k + 1] levels and level [i] has resolution [r / 2^i].  Then
    [build_mips] returns, except for [k = 1] (two levels), where it raises
    [ZeroDivisionError]; in both cases [self.specular] holds [k + 1]
    levels. *)
Theorem build_mips_any_resolution `{Collaborators} (w : World) (r : Z) (fuel : nat)
    (cutoff : Q) :
  mip_halves ->
  face_res (pdata (base (self w))) = Some r ->
  0 <= min_res (self w) ->
  (Z.to_nat r < fuel)%nat ->
  exists k,
    build_chain fuel w =
      (Ok tt, upd (with_specular
                     (BaseParam :: map Detached (mips_of k (pdata (base (self w)))))) w) /\
    r / 2 ^ Z.of_nat k <= min_res (self w) /\
    (forall i, (i < k)%nat -> min_res (self w) < r / 2 ^ Z.of_nat i) /\
    (forall i, (i <= k)%nat ->
       face_res <$> (pdata (base (self w)) :: mips_of k (pdata (base (self w)))) !! i
       = Some (Some (r / 2 ^ Z.of_nat i))) /\
    fst (build_mips fuel cutoff w) =
      (if decide (k = 1%nat) then Raise ZeroDivisionError else Ok tt) /\
    length <$> specular (self (snd (build_mips fuel cutoff w))) = Some (S k).
Proof.
  intros Hhalf Hr Hm Hfuel.
  destruct (any_resolution_outcome Hhalf w r fuel cutoff Hr Hm Hfuel)
    as (k & Hchain & Hle & Hlt & Ho & Hlen).
  exists k. split; [exact Hchain|]. split; [exact Hle|]. split; [exact Hlt|].
  split; [|split; [exact Ho|exact Hlen]].
  intros i Hi. apply (mips_of_res Hhalf); assumption.
Qed.

(** ** Which resolutions the constructor accepts *)

Section InitResolution.
Context `{Collaborators}.

Lemma init_value_Ok maxres dev color :
  0 <= maxres ->
  exists v,
    match color with
    | Some c => create_trainable_env_fix maxres c dev
    | None => create_trainable_env_rnd maxres rnd_default_scale rnd_default_bias dev
    end = Ok v /\
    shape v = [6; maxres; maxres; 3].
Proof.
  intros Hm. destruct color as [c|].
  - unfold create_trainable_env_fix.
    replace (0 <=? maxres) with true by (symmetry; apply Z.leb_le; exact Hm).
    eexists. split; reflexivity.
  - unfold create_trainable_env_rnd, torch_rand. simpl forallb.
    replace (0 <=? maxres) with true by (symmetry; apply Z.leb_le; exact Hm).
    eexists. split; reflexivity.
Qed.

Lemma init_value_negative maxres dev color :
  maxres < 0 ->
  match color with
  | Some c => create_trainable_env_fix maxres c dev
  | None => create_trainable_env_rnd maxres rnd_default_scale rnd_default_bias dev
  end = Raise RuntimeError.
Proof.
  intros Hm. destruct color as [c|].
  - unfold create_trainable_env_fix.
    replace (0 <=? maxres) with false by (symmetry; apply Z.leb_gt; exact Hm). reflexivity.
  - unfold create_trainable_env_rnd, torch_rand. simpl forallb.
    replace (0 <=? maxres) with false by (symmetry; apply Z.leb_gt; exact Hm). reflexivity.
Qed.

End InitResolution.

(** X10.  Which resolutions the constructor accepts, without a path and
    with [min_res >= 0], [cubemap_mip] halving the face resolution:
    - [max_res < 0]: the initial tensor cannot be made, [RuntimeError];
    - [0 <= max_res <= min_res]: an object with a single level;
    - [min_res < max_res] and [max_res // 2 <= min_res] (for instance
      [max_res = 2 * min_res]): the chain has two levels and the
      constructor raises [ZeroDivisionError];
    - [min_res < max_res // 2]: an object with at least three levels. *)
Theorem init_resolution_cases `{Collaborators} (fuel : nat) (dev : option string) (sc : Q)
    (minres maxres : Z) (minr maxr : Q) (tr : bool) (color : option Q) :
  mip_halves ->
  0 <= minres ->
  (Z.to_nat maxres < fuel)%nat ->
  let o := __init__ fuel None dev sc minres maxres minr maxr tr color in
  (maxres < 0 -> o = Raise RuntimeError) /\
  (0 <= maxres -> maxres <= minres ->
     exists e, o = Ok e /\ length <$> specular e = Some 1%nat) /\
  (minres < maxres -> maxres / 2 <= minres -> o = Raise ZeroDivisionError) /\
  (minres < maxres / 2 ->
     exists e n, o = Ok e /\ length <$> specular e = Some n /\ (3 <= n)%nat).
Proof.
  intros Hhalf Hmin Hfuel o.
  split.
  { intros Hneg. unfold o, __init__. rewrite (init_value_negative _ _ _ Hneg). reflexivity. }
  assert (Hcases : 0 <= maxres ->
            exists k w1,
              build_mips fuel default_cutoff w1 =
                (fst (build_mips fuel default_cutoff w1), snd (build_mips fuel default_cutoff w1)) /\
              o = match fst (build_mips fuel default_cutoff w1) with
                  | Ok _ => Ok (self (snd (build_mips fuel default_cutoff w1)))
                  | Raise x => Raise x
                  | OutOfFuel => OutOfFuel
                  end /\
              maxres / 2 ^ Z.of_nat k <= minres /\
              (forall i, (i < k)%nat -> minres < maxres / 2 ^ Z.of_nat i) /\
              fst (build_mips fuel default_cutoff w1) =
                (if decide (k = 1%nat) then Raise ZeroDivisionError else Ok tt) /\
              length <$> specular (self (snd (build_mips fuel default_cutoff w1))) = Some (S k)).
  { intros Hmax.
    destruct (init_value_Ok maxres (default "cuda"%string dev) color Hmax) as (v & Hv & Hsh).
    set (w1 := {| self := {| device := default "cuda"%string dev; scale := sc; min_res := minres;
                             max_res := maxres; min_roughness := minr; max_roughness := maxr;
                             trainable := tr; base := {| pid := base_pid; pdata := v; requires_grad := tr |};
                             base_image := None; specular := None; diffuse := None |};
                  lookups := [] |}).
    destruct (any_resolution_outcome Hhalf w1 maxres fuel default_cutoff)
      as (k & _ & Hle & Hlt & Ho & Hlen).
    - unfold face_res. simpl. rewrite Hsh. reflexivity.
    - exact Hmin.
    - exact Hfuel.
    - exists k, w1. split; [apply surjective_pairing|].
      split; [|split; [exact Hle|split; [exact Hlt|split; [exact Ho|exact Hlen]]]].
      unfold o, __init__. rewrite Hv. unfold bind at 1. unfold ret at 1. fold w1.
      destruct (build_mips fuel default_cutoff w1) as [[[]| |] w2]; reflexivity. }
  split; [|split].
  - intros Hmax Hle. destruct (Hcases Hmax) as (k & w1 & _ & Ho & Hk & Hlt & Hout & Hlen).
    assert (k = 0)%nat as ->.
    { destruct k as [|k]; [reflexivity|]. specialize (Hlt 0%nat ltac:(lia)).
      simpl in Hlt. rewrite Z.div_1_r in Hlt. lia. }
    rewrite Hout in Ho. simpl in Ho. eexists. split; [exact Ho|exact Hlen].
  - intros Hlt0 Hhalf2.
    destruct (Hcases ltac:(lia)) as (k & w1 & _ & Ho & Hk & Hlt & Hout & Hlen).
    assert (k = 1)%nat as ->.
    { destruct k as [|[|k]]; [simpl in Hk; rewrite Z.div_1_r in Hk; lia|reflexivity|].
      specialize (Hlt 1%nat ltac:(lia)). change (2 ^ Z.of_nat 1) with 2 in Hlt. lia. }
    rewrite Hout in Ho. exact Ho.
  - intros Hlt2.
    assert (Hmax : 0 <= maxres).
    { destruct (Z_lt_le_dec maxres 0) as [Hn|]; [|assumption].
      assert (maxres / 2 < 0) by (apply Z.div_lt_upper_bound; lia). lia. }
    destruct (Hcases Hmax) as (k & w1 & _ & Ho & Hk & Hlt & Hout & Hlen).
    assert (2 <= k)%nat.
    { destruct k as [|[|k]]; [| |lia].
      - simpl in Hk. rewrite Z.div_1_r in Hk.
        assert (maxres / 2 <= maxres) by (apply Z.div_le_upper_bound; lia). lia.
      - change (2 ^ Z.of_nat 1) with 2 in Hk. lia. }
    destruct (decide (k = 1%nat)) as [->|_]; [lia|].
    rewrite Hout in Ho. simpl in Ho. exists (self (snd (build_mips fuel default_cutoff w1))), (S k).
    split; [exact Ho|]. split; [exact Hlen|lia].
Qed.

(** ** What the constructor leaves *)

Section Constructed.
Context `{Collaborators}.

(** After a returned [build_mips] both derived attributes are set. *)
Lemma build_mips_Ok_derived fuel cutoff w w' :
  build_mips fuel cutoff w = (Ok tt, w') ->
  exists chain d, specular (self w') = Some chain /\ chain <> [] /\ diffuse (self w') = Some d.
Proof.
  unfold build_mips. unfold bind at 1.
  destruct (build_chain fuel w) as [[[]|e|] w1] eqn:E; try discriminate.
  intros Hf.
  destruct (specular (self w1)) as [chain|] eqn:Hs.
  2:{ unfold filter_chain, specular_getitem_last, bind, getattr in Hf.
      rewrite Hs in Hf. discriminate. }
  destruct (last chain) as [top|] eqn:Hl.
  2:{ unfold filter_chain, specular_getitem_last, bind, getattr in Hf.
      rewrite Hs, Hl in Hf. discriminate. }
  destruct (decide (length chain = 2%nat)) as [H2|H2].
  { rewrite (filter_chain_two_levels _ _ _ _ Hs Hl H2) in Hf. discriminate. }
  rewrite (filter_chain_eval _ _ _ _ Hs Hl H2) in Hf.
  injection Hf as <-. simpl. eexists _, _. split; [reflexivity|]. split; [|reflexivity].
  intros E0. apply (f_equal length) in E0. rewrite length_filtered in E0.
  destruct chain; [discriminate|simpl in E0; lia].
Qed.

(** The attributes of the object [build_mips] leaves, in terms of the ones
    it started from. *)
Lemma build_mips_keeps fuel cutoff w w' o :
  build_mips fuel cutoff w = (o, w') ->
  device (self w') = device (self w) /\ scale (self w') = scale (self w) /\
  min_res (self w') = min_res (self w) /\ max_res (self w') = max_res (self w) /\
  min_roughness (self w') = min_roughness (self w) /\
  max_roughness (self w') = max_roughness (self w) /\
  trainable (self w') = trainable (self w) /\
  base (self w') = base (self w) /\
  base_image (self w') = base_image (self w).
Proof.
  intros Hb.
  pose proof (build_mips_frame fuel cutoff w) as Hf.
  pose proof (build_mips_same_inputs fuel cutoff w) as Hi.
  rewrite Hb in Hf, Hi. simpl in Hf, Hi.
  destruct Hf as (? & ? & ? & ? & ? & ?). destruct Hi as (? & ? & ? & ?).
  repeat split; congruence.
Qed.

End Constructed.

(** X11.  An object constructed without a path holds the keyword arguments
    as its attributes ([device=None] read as ['cuda']), a base Parameter of
    shape [(6, max_res, max_res, 3)] with [requires_grad = trainable], no
    cached lat-long image, and both derived attributes ([self.specular],
    not empty, and [self.diffuse]).  With a colour preset [c] the base is
    uniformly [c]. *)
Theorem init_without_path `{Collaborators} (fuel : nat) (dev : option string) (sc : Q)
    (minres maxres : Z) (minr maxr : Q) (tr : bool) (color : option Q) (e : EnvLight) :
  __init__ fuel None dev sc minres maxres minr maxr tr color = Ok e ->
  (device e = default "cuda"%string dev /\ scale e = sc /\ min_res e = minres /\
   max_res e = maxres /\ min_roughness e = minr /\ max_roughness e = maxr /\
   trainable e = tr) /\
  0 <= maxres /\
  requires_grad (base e) = tr /\
  shape (pdata (base e)) = [6; maxres; maxres; 3] /\
  length (data (pdata (base e))) = numel [6; maxres; maxres; 3] /\
  base_image e = None /\
  (exists chain d, specular e = Some chain /\ chain <> [] /\ diffuse e = Some d) /\
  (forall c, color = Some c -> Forall (fun x => x = c) (data (pdata (base e)))).
Proof.
  intros Hi.
  destruct (init_inv _ _ _ _ _ _ _ _ _ _ _ Hi) as (v & w1 & Hv & Hl & w2 & Hb & ->).
  injection Hl as <-.
  destruct (build_mips_keeps _ _ _ _ _ Hb)
    as (Hdev & Hsc & Hmin & Hmax & Hminr & Hmaxr & Htr & Hbase & Himg).
  simpl in Hdev, Hsc, Hmin, Hmax, Hminr, Hmaxr, Htr, Hbase, Himg.
  split; [repeat split; assumption|].
  assert (Hnn : 0 <= maxres).
  { destruct (Z_lt_le_dec maxres 0) as [Hn|]; [|assumption].
    rewrite (init_value_negative _ (default "cuda"%string dev) color Hn) in Hv. discriminate. }
  split; [exact Hnn|]. rewrite Hbase. simpl.
  split; [reflexivity|].
  assert (Hsd : shape v = [6; maxres; maxres; 3] /\
                length (data v) = numel [6; maxres; maxres; 3] /\
                (forall c, color = Some c -> Forall (fun x => x = c) (data v))).
  { destruct color as [c|].
    - destruct (create_trainable_env_fix_data _ _ _ _ Hv) as [Hs Hd].
      split; [exact Hs|]. rewrite Hd. split; [apply length_replicate|].
      intros c' [= <-]. apply Forall_forall. intros x Hx.
      apply elem_of_replicate in Hx. apply Hx.
    - destruct (create_trainable_env_rnd_data _ _ _ _ _ Hv) as [Hs Hd].
      split; [exact Hs|]. rewrite Hd. split; [rewrite length_map, length_seq; reflexivity|].
      intros c' [=]. }
  destruct Hsd as (Hs & Hd & Hc).
  split; [exact Hs|]. split; [exact Hd|]. split; [exact Himg|].
  split; [apply (build_mips_Ok_derived _ _ _ _ Hb)|exact Hc].
Qed.

(** X12.  With a path the constructor projects the decoded image onto the
    base: the base data is the cubemap of the scaled image, which is also
    kept as the cached lat-long image.  The initial value is computed first
    ([max_res >= 0] is needed even so) and then replaced: the colour preset
    has no effect on the constructed object. *)
Theorem init_with_path `{Collaborators} (fuel : nat) (path : string) (dev : option string)
    (sc : Q) (minres maxres : Z) (minr maxr : Q) (tr : bool) (color : option Q)
    (e : EnvLight) :
  __init__ fuel (Some path) dev sc minres maxres minr maxr tr color = Ok e ->
  0 <= maxres /\
  (exists image cubemap,
     imread path = Ok image /\
     latlong_to_cubemap (scaled_image image sc) [maxres; maxres] (default "cuda"%string dev)
       = Ok cubemap /\
     base e = {| pid := base_pid; pdata := cubemap; requires_grad := tr |} /\
     base_image e = Some (scaled_image image sc)) /\
  (forall color', __init__ fuel (Some path) dev sc minres maxres minr maxr tr color' = Ok e).
Proof.
  intros Hi.
  destruct (init_inv _ _ _ _ _ _ _ _ _ _ _ Hi) as (v & w1 & Hv & Hl & w2 & Hb & ->).
  assert (Hnn : 0 <= maxres).
  { destruct (Z_lt_le_dec maxres 0) as [Hn|]; [|assumption].
    rewrite (init_value_negative _ (default "cuda"%string dev) color Hn) in Hv. discriminate. }
  split; [exact Hnn|].
  rewrite load_eval in Hl. simpl in Hl.
  destruct (imread path) as [image| |] eqn:Him; try discriminate.
  destruct (latlong_to_cubemap _ _ _) as [cubemap| |] eqn:Hc; try discriminate.
  injection Hl as <-.
  destruct (build_mips_keeps _ _ _ _ _ Hb) as (_ & _ & _ & _ & _ & _ & _ & Hbase & Himg).
  split.
  { exists image, cubemap. split; [reflexivity|]. split; [exact Hc|].
    split; [rewrite Hbase; reflexivity|rewrite Himg; reflexivity]. }
  intros color'.
  destruct (init_value_Ok maxres (default "cuda"%string dev) color' Hnn) as (v' & Hv' & _).
  unfold __init__. rewrite Hv'. unfold bind at 1. rewrite load_eval, Him. simpl.
  rewrite Hc. unfold upd, with_base_data, with_base_image, set_pdata in Hb |- *. simpl in Hb |- *.
  rewrite Hb. reflexivity.
Qed.

(** ** The image [load] caches *)



(** ** Edits of the light on a fixed object *)

Section Stale.
Context `{Collaborators}.

(** Calls other than [build_mips] leave the derived state and what the
    samplers read of the configuration. *)
Lemma run_ops_no_build fuel ops :
  forallb (fun op => negb (is_build op)) ops = true ->
  forall w,
    let w' := run_ops fuel ops w in
    specular (self w') = specular (self w) /\ diffuse (self w') = diffuse (self w) /\
    min_roughness (self w') = min_roughness (self w) /\
    max_roughness (self w') = max_roughness (self w) /\
    trainable (self w') = trainable (self w).
Proof.
  induction ops as [|op rest IH]; intros Hops w; simpl; [repeat split|].
  simpl in Hops. apply andb_prop in Hops. destruct Hops as [Hop Hrest].
  destruct (IH Hrest (snd (run_op fuel op w))) as (Hs & Hd & Hminr & Hmaxr & Htr).
  rewrite Hs, Hd, Hminr, Hmaxr, Htr. clear IH Hs Hd Hminr Hmaxr Htr.
  destruct op; simpl; try discriminate.
  - rewrite load_eval. destruct (imread path); simpl; [|repeat split..].
    destruct (latlong_to_cubemap _ _ _); simpl; repeat split.
  - unfold gen_base_image, bind, attr, lift, modify.
    destruct (cubemap_to_latlong _ _); simpl; repeat split.
  - rewrite update_light_eval. destruct (base_image (self w)); simpl; [|repeat split].
    destruct (torch_roll1 _ _); simpl; [|repeat split..].
    destruct (latlong_to_cubemap _ _ _); simpl; repeat split.
Qed.

Lemma init_trainable fuel path dev sc minres maxres minr maxr tr color e :
  __init__ fuel path dev sc minres maxres minr maxr tr color = Ok e -> trainable e = tr.
Proof.
  intros Hi. destruct (init_inv _ _ _ _ _ _ _ _ _ _ _ Hi) as (v & w1 & _ & Hl & w2 & Hb & ->).
  destruct (build_mips_keeps _ _ _ _ _ Hb) as (_ & _ & _ & _ & _ & _ & Htr & _).
  rewrite Htr. destruct path as [p|].
  - rewrite load_eval in Hl. destruct (imread p); try discriminate. simpl in Hl.
    destruct (latlong_to_cubemap _ _ _); try discriminate. injection Hl as <-. reflexivity.
  - injection Hl as <-. reflexivity.
Qed.

End Stale.

(** X14.  On an object constructed with [trainable=False], the calls
    [load], [gen_base_image] and [update_light], in any number and order and
    whether they return or raise, change neither [self.specular] nor
    [self.diffuse], and a query afterwards gives exactly what it gave
    before them: an edit of the light is not seen by a query until
    [build_mips] is called. *)
Theorem fixed_queries_ignore_edits `{Collaborators} (fuel0 fuel : nat) (path : option string)
    (dev : option string) (sc : Q) (minres maxres : Z) (minr maxr : Q) (color : option Q)
    (e : EnvLight) (ops : list Op) (n l : Tensor) (r : option Tensor) :
  __init__ fuel0 path dev sc minres maxres minr maxr false color = Ok e ->
  forallb (fun op => negb (is_build op)) ops = true ->
  let w := {| self := e; lookups := [] |} in
  let w' := run_ops fuel ops w in
  specular (self w') = specular e /\
  diffuse (self w') = diffuse e /\
  fst (__call__ fuel n l r w') = fst (__call__ fuel n l r w).
Proof.
  intros Hi Hops w w'.
  destruct (run_ops_no_build fuel ops Hops w) as (Hs & Hd & Hminr & Hmaxr & Htr).
  fold w' in Hs, Hd, Hminr, Hmaxr, Htr.
  split; [exact Hs|]. split; [exact Hd|].
  assert (Ht : trainable (self w) = false) by (apply (init_trainable _ _ _ _ _ _ _ _ _ _ _ Hi)).
  assert (Ht' : trainable (self w') = false) by congruence.
  rewrite (call_fixed _ _ _ _ _ Ht), (call_fixed _ _ _ _ _ Ht').
  apply (determined_sample_both same_query n l r same_query_sampling).
  unfold same_query. split; [exact Hs|]. split; [|auto].
  apply (detached_after_calls fuel0 path dev sc minres maxres minr maxr false color e fuel ops Hi Hops).
Qed.

(** ** The exported map *)

(** X15.  [get_env_map] changes nothing, and its result is the lat-long
    projection at 512 x 1024 of the base data alone: it is the same from any
    two objects with the same base data, it is not affected by [build_mips]
    or [gen_base_image] (whatever they do), and it does not read the cached
    image [self.base_image], which [gen_base_image] makes at another
    resolution. *)
Theorem get_env_map_reads_base `{Collaborators} (w : World) :
  get_env_map w = (cubemap_to_latlong (pdata (base (self w))) [512; 1024], w) /\
  (forall w', pdata (base (self w')) = pdata (base (self w)) ->
     fst (get_env_map w') = fst (get_env_map w)) /\
  (forall fuel cutoff,
     fst (get_env_map (snd (build_mips fuel cutoff w))) = fst (get_env_map w)) /\
  fst (get_env_map (snd (gen_base_image w))) = fst (get_env_map w) /\
  (forall img, fst (get_env_map (upd (with_base_image img) w)) = fst (get_env_map w)).
Proof.
  assert (Hev : forall w0, get_env_map w0 = (cubemap_to_latlong (pdata (base (self w0))) [512; 1024], w0)).
  { intros w0. reflexivity. }
  split; [apply Hev|].
  assert (Hdep : forall w', pdata (base (self w')) = pdata (base (self w)) ->
                            fst (get_env_map w') = fst (get_env_map w)).
  { intros w' Hb. rewrite !Hev. simpl. rewrite Hb. reflexivity. }
  split; [exact Hdep|]. split; [|split].
  - intros fuel cutoff. apply Hdep.
    destruct (build_mips_same_inputs fuel cutoff w) as [Hb _]. rewrite <- Hb. reflexivity.
  - apply Hdep. unfold gen_base_image, bind, attr, lift, modify.
    destruct (cubemap_to_latlong _ _); reflexivity.
  - intros img. apply Hdep. reflexivity.
Qed.

(** * The further properties on the small instance *)

Lemma demo_w4_built :
  build_mips (H := Demo.collaborators) 3 default_cutoff demo_w4 = (Ok tt, demo_built4).
Proof. vm_compute. reflexivity. Qed.

Lemma demo_cached_rolled :
  update_light (H := Demo.collaborators) 1 demo_cached = (Ok tt, demo_rolled).
Proof. vm_compute. reflexivity. Qed.

Lemma demo_query_returns :
  __call__ (H := Demo.collaborators) 5 Demo.dirs Demo.dirs (Some Demo.rough) demo_fixed
  = (Ok demo_query_result, demo_query_world).
Proof. vm_compute. reflexivity. Qed.

Lemma demo_obj_sky_built :
  __init__ (H := Demo.collaborators) 8 (Some "sky.hdr"%string) None 1 1 4 (2 # 25) (1 # 2)
    false None
  = Ok demo_obj_sky.
Proof. vm_compute. reflexivity. Qed.

Lemma demo_cached_wf : tensor_wf {| shape := [1; 3; 1]; data := [1; 2; 3]%Q |}.
Proof. split; [repeat constructor; lia|reflexivity]. Qed.

(** X2 on the roughnesses 0.2 and 0.3, both below [max_roughness = 0.5]. *)
Lemma get_mip_monotone_witness :
  exists t y1 y2,
    get_mip (H := Demo.collaborators)
      (Some {| shape := [2; 1]; data := [1 # 5; 3 # 10]%Q |}) demo_w3 = (Ok t, demo_w3) /\
    data t !! 0%nat = Some y1 /\ data t !! 1%nat = Some y2 /\ (y1 <= y2)%Q.
Proof.
  assert (H0 : (- (2 ^ 127) <= min_roughness (self demo_w3))%Q)
    by (apply Qle_bool_imp_le; vm_compute; reflexivity).
  assert (Hmin : (f32 (f64 (min_roughness (self demo_w3)))
                  < f32 (f64 (max_roughness (self demo_w3))))%Q)
    by (vm_compute; reflexivity).
  assert (Hlow : (2 ^ (-126) <= f32 (f64 (f64 (max_roughness (self demo_w3))
                                          - f64 (min_roughness (self demo_w3)))))%Q)
    by (apply Qle_bool_imp_le; vm_compute; reflexivity).
  assert (Hhigh : (2 ^ (-126) <= f32 (f64 (1 - f64 (max_roughness (self demo_w3)))))%Q)
    by (apply Qle_bool_imp_le; vm_compute; reflexivity).
  assert (Hx : (1 # 5 <= 3 # 10)%Q) by (apply Qle_bool_imp_le; reflexivity).
  assert (Hside : (3 # 10 < f32 (f64 (max_roughness (self demo_w3))))%Q)
    by (vm_compute; reflexivity).
  destruct (get_mip_monotone (H := Demo.collaborators) demo_w3
              [BaseParam; BaseParam; BaseParam]
              {| shape := [2; 1]; data := [1 # 5; 3 # 10]%Q |} 0 1 (1 # 5) (3 # 10)
              eq_refl H0 Hmin Hlow Hhigh ltac:(simpl; lia) ltac:(simpl; lia)
              eq_refl eq_refl Hx)
    as (t & y1 & y2 & Ht & _ & _ & H1 & H2 & Hle & _).
  exists t, y1, y2. split; [exact Ht|]. split; [exact H1|]. split; [exact H2|].
  apply Hle. left. exact Hside.
Defined.

(** X3 on the cached image of [demo_cached]: a shift by 1 and then by 1 is
    a shift by 2. *)
Lemma update_light_accumulates_witness :
  base_image (self (snd (update_light (H := Demo.collaborators) 1 demo_rolled))) =
  base_image (self (snd (update_light (H := Demo.collaborators) (1 + 1) demo_cached))).
Proof.
  destruct (update_light_accumulates (H := Demo.collaborators) 1 1 demo_cached demo_rolled
              {| shape := [1; 3; 1]; data := [1; 2; 3]%Q |} 1 3 [1] eq_refl demo_cached_wf
              eq_refl ltac:(unfold roll_in_range; lia) ltac:(unfold roll_in_range; lia)
              ltac:(unfold roll_in_range; lia) demo_cached_rolled) as (_ & Himg & _).
  exact Himg.
Defined.

(** X4 on the cached image of [demo_cached], of width 3. *)
Lemma update_light_full_turn_witness :
  update_light (H := Demo.collaborators) (1 + 2 * 3) demo_cached =
  update_light (H := Demo.collaborators) 1 demo_cached.
Proof.
  destruct (update_light_full_turn (H := Demo.collaborators) 1 2 demo_cached
              {| shape := [1; 3; 1]; data := [1; 2; 3]%Q |} 1 3 [1] eq_refl demo_cached_wf
              eq_refl) as (Hturn & _).
  apply Hturn; unfold roll_in_range; lia.
Defined.

(** X6 on the query of [demo_fixed]. *)
Lemma call_returns_witness :
  lookups demo_query_world = lookups demo_fixed ++ [Linear; LinearMipmapLinear] /\
  (exists c, shape (fst demo_query_result) = shape_prefix Demo.dirs ++ [c]).
Proof.
  destruct (call_returns (H := Demo.collaborators) 5 Demo.dirs Demo.dirs (Some Demo.rough)
              demo_fixed demo_query_world (fst demo_query_result) (snd demo_query_result)
              demo_query_returns) as (Hlk & Hd & _).
  split; [exact Hlk|exact Hd].
Defined.

(** X7 on [demo_w4]. *)
Lemma build_mips_idempotent_witness :
  build_mips (H := Demo.collaborators) 3 default_cutoff demo_built4 = (Ok tt, demo_built4).
Proof.
  exact (build_mips_idempotent (H := Demo.collaborators) 3 default_cutoff demo_w4 demo_built4
           demo_w4_built).
Defined.

(** X8 on the query of [demo_fixed]. *)
Lemma call_repeatable_witness :
  fst (__call__ (H := Demo.collaborators) 5 Demo.dirs Demo.dirs (Some Demo.rough)
         demo_query_world) = Ok demo_query_result.
Proof.
  destruct (call_repeatable (H := Demo.collaborators) 5 Demo.dirs Demo.dirs (Some Demo.rough)
              demo_fixed demo_query_world demo_query_result demo_query_returns) as [Hq _].
  exact Hq.
Defined.

(** X9 on a base of resolution 6 with [min_res = 1]: the loop ends. *)
Lemma build_mips_any_resolution_witness :
  exists k,
    6 / 2 ^ Z.of_nat k <= 1 /\
    length <$> specular (self (snd (build_mips (H := Demo.collaborators) 7 default_cutoff
                                      demo_w6))) = Some (S k).
Proof.
  destruct (build_mips_any_resolution (H := Demo.collaborators) demo_w6 6 7 default_cutoff
              demo_mip_halves eq_refl ltac:(simpl; lia) ltac:(vm_compute; lia))
    as (k & _ & Hle & _ & _ & _ & Hlen).
  exists k. split; [exact Hle|exact Hlen].
Defined.

(** X10: [EnvLight(min_res=1, max_res=2)] cannot be constructed. *)
Lemma init_resolution_cases_witness :
  __init__ (H := Demo.collaborators) 8 None None 1 1 2 (2 # 25) (1 # 2) false (Some 1%Q)
  = Raise ZeroDivisionError.
Proof.
  destruct (init_resolution_cases (H := Demo.collaborators) 8 None 1 1 2 (2 # 25) (1 # 2)
              false (Some 1%Q) demo_mip_halves ltac:(lia) ltac:(vm_compute; lia))
    as (_ & _ & Htwo & _).
  apply Htwo; [lia|vm_compute; discriminate].
Defined.

(** X11 on the three-level object. *)
Lemma init_without_path_witness :
  base_image Demo.obj3 = None /\
  Forall (fun x => x = 1%Q) (data (pdata (base Demo.obj3))).
Proof.
  destruct (init_without_path (H := Demo.collaborators) 8 None 1 1 4 (2 # 25) (1 # 2) false
              (Some 1%Q) Demo.obj3 demo_light3_built)
    as (_ & _ & _ & _ & _ & Himg & _ & Hc).
  split; [exact Himg|exact (Hc 1%Q eq_refl)].
Defined.

(** X12: the object loaded from [sky.hdr] is the same with a preset. *)
Lemma init_with_path_witness :
  __init__ (H := Demo.collaborators) 8 (Some "sky.hdr"%string) None 1 1 4 (2 # 25) (1 # 2)
    false (Some 1%Q)
  = Ok demo_obj_sky.
Proof.
  destruct (init_with_path (H := Demo.collaborators) 8 "sky.hdr" None 1 1 4 (2 # 25) (1 # 2)
              false None demo_obj_sky demo_obj_sky_built) as (_ & _ & Hany).
  exact (Hany (Some 1%Q)).
Defined.


(** X14 on the three-level object and four edits, one of which raises. *)
Lemma fixed_queries_ignore_edits_witness :
  fst (__call__ (H := Demo.collaborators) 5 Demo.dirs Demo.dirs (Some Demo.rough)
         (run_ops (H := Demo.collaborators) 5 demo_edits {| self := Demo.obj3; lookups := [] |}))
  = fst (__call__ (H := Demo.collaborators) 5 Demo.dirs Demo.dirs (Some Demo.rough)
           {| self := Demo.obj3; lookups := [] |}).
Proof.
  destruct (fixed_queries_ignore_edits (H := Demo.collaborators) 8 5 None None 1 1 4
              (2 # 25) (1 # 2) (Some 1%Q) Demo.obj3 demo_edits Demo.dirs Demo.dirs
              (Some Demo.rough) demo_light3_built eq_refl) as (_ & _ & Hq).
  exact Hq.
Defined.
